(** * Geometric Resonance: audio analyzer and motion coordinator

    A shallow embedding of [js/utils.js], [js/audioAnalyzer.js] and
    [js/motionCoordinator.js].

    JavaScript numbers are modelled as extended real numbers: a finite
    value is a real number, and the three non-finite values of IEEE 754
    ([NaN], [+Infinity], [-Infinity]) are kept, with the arithmetic and the
    comparisons JavaScript gives them.  Rounding and the sign of zero are
    not modelled in the analyzer and the coordinator: every finite
    operation is exact there, and the theorems are stated on the ranges of
    inputs where rounding and overflow of the doubles do not change them.
    Where rounding decides a claim it is modelled: the single-precision
    store into a [Float32Array] by [Math_fround], some lines of the source
    on binary64 numbers in [Binary64].  [Uint8Array] inputs are lists of
    bytes, typed arrays are lists, integer counters are [Z]. *)

From Stdlib Require Import Reals Lra Lia List ZArith Bool String.
From Stdlib Require Import Strings.Byte.
From Stdlib Require Floats.
Import ListNotations.

Set Implicit Arguments.

(* ====================================================================== *)
(** ** JavaScript numbers *)
(* ====================================================================== *)

Module JS.

Local Open Scope R_scope.

Inductive num : Type :=
| Fin (r : R)
| NaN
| PInf
| NInf.

Definition isNaN (x : num) : bool :=
  match x with NaN => true | _ => false end.

(** [Number.isFinite] *)
Definition isFinite (x : num) : bool :=
  match x with Fin _ => true | _ => false end.

Definition Rltb (x y : R) : bool := if Rlt_dec x y then true else false.
Definition Rleb (x y : R) : bool := if Rle_dec x y then true else false.
Definition Reqb (x y : R) : bool := if Req_dec_T x y then true else false.

(** [a < b]; every comparison with [NaN] is false. *)
Definition ltb (a b : num) : bool :=
  match a, b with
  | Fin x, Fin y => Rltb x y
  | Fin _, PInf => true
  | NInf, Fin _ => true
  | NInf, PInf => true
  | _, _ => false
  end.

(** [a <= b] *)
Definition leb (a b : num) : bool :=
  match a, b with
  | Fin x, Fin y => Rleb x y
  | Fin _, PInf => true
  | NInf, Fin _ => true
  | NInf, PInf => true
  | PInf, PInf => true
  | NInf, NInf => true
  | _, _ => false
  end.

(** [a === b] on numbers *)
Definition eqb (a b : num) : bool :=
  match a, b with
  | Fin x, Fin y => Reqb x y
  | PInf, PInf => true
  | NInf, NInf => true
  | _, _ => false
  end.

Definition gtb (a b : num) : bool := ltb b a.
Definition geb (a b : num) : bool := leb b a.

(** Truthiness of a number, as [||] and [if] test it. *)
Definition truthy (x : num) : bool :=
  match x with
  | NaN => false
  | Fin r => negb (Reqb r 0)
  | _ => true
  end.

(** [a || b] on numbers *)
Definition or_else (a b : num) : num := if truthy a then a else b.

Definition opp (a : num) : num :=
  match a with
  | Fin x => Fin (- x)
  | NaN => NaN
  | PInf => NInf
  | NInf => PInf
  end.

Definition add (a b : num) : num :=
  match a, b with
  | NaN, _ | _, NaN => NaN
  | Fin x, Fin y => Fin (x + y)
  | PInf, NInf | NInf, PInf => NaN
  | PInf, _ | _, PInf => PInf
  | NInf, _ | _, NInf => NInf
  end.

Definition sub (a b : num) : num := add a (opp b).

(** The infinity of the sign of [r], [NaN] at zero. *)
Definition inf_of_sign (r : R) : num :=
  match total_order_T r 0 with
  | inleft (left _) => NInf
  | inleft (right _) => NaN
  | inright _ => PInf
  end.

Definition mul (a b : num) : num :=
  match a, b with
  | NaN, _ | _, NaN => NaN
  | Fin x, Fin y => Fin (x * y)
  | Fin x, PInf | PInf, Fin x => inf_of_sign x
  | Fin x, NInf | NInf, Fin x => inf_of_sign (- x)
  | PInf, PInf | NInf, NInf => PInf
  | PInf, NInf | NInf, PInf => NInf
  end.

(** Division; a zero divisor is the positive zero. *)
Definition div (a b : num) : num :=
  match a, b with
  | NaN, _ | _, NaN => NaN
  | Fin x, Fin y => if Reqb y 0 then inf_of_sign x else Fin (x / y)
  | Fin _, _ => Fin 0
  | PInf, Fin y => if Rltb y 0 then NInf else PInf
  | NInf, Fin y => if Rltb y 0 then PInf else NInf
  | _, _ => NaN
  end.

(** [Math.max] and [Math.min] of two arguments *)
Definition Math_max (a b : num) : num :=
  if isNaN a || isNaN b then NaN else if ltb a b then b else a.

Definition Math_min (a b : num) : num :=
  if isNaN a || isNaN b then NaN else if ltb b a then b else a.

Definition Math_abs (a : num) : num :=
  match a with
  | Fin x => Fin (Rabs x)
  | NaN => NaN
  | _ => PInf
  end.

Definition Math_sqrt (a : num) : num :=
  match a with
  | Fin x => if Rltb x 0 then NaN else Fin (sqrt x)
  | PInf => PInf
  | _ => NaN
  end.

Definition Math_exp (a : num) : num :=
  match a with
  | Fin x => Fin (exp x)
  | PInf => PInf
  | NInf => Fin 0
  | NaN => NaN
  end.

(** Logarithm in base [e] scaled by [1 / ln base]: [Math.log], [Math.log2]
    and [Math.log10]. *)
Definition log_base (base : R) (a : num) : num :=
  match a with
  | Fin x =>
      if Rltb x 0 then NaN
      else if Reqb x 0 then NInf
      else Fin (ln x / ln base)
  | PInf => PInf
  | _ => NaN
  end.

Definition Math_log (a : num) : num := log_base (exp 1) a.
Definition Math_log2 (a : num) : num := log_base 2 a.
Definition Math_log10 (a : num) : num := log_base 10 a.

Definition Math_sin (a : num) : num :=
  match a with
  | Fin x => Fin (sin x)
  | _ => NaN
  end.

Definition Math_floor (a : num) : num :=
  match a with
  | Fin x => Fin (IZR (Int_part x))
  | _ => a
  end.

Definition Math_ceil (a : num) : num :=
  match a with
  | Fin x => Fin (IZR (- Int_part (- x)))
  | _ => a
  end.

(** [Math.round]: the nearest integer, ties towards [+Infinity]. *)
Definition Math_round (a : num) : num :=
  match a with
  | Fin x => Fin (IZR (Int_part (x + / 2)))
  | _ => a
  end.

(** The integer nearest to [y], ties to the even one. *)
Definition round_half_even (y : R) : Z :=
  let k := Int_part y in
  let f := (y - IZR k)%R in
  if Rltb f (/ 2) then k
  else if Rltb (/ 2) f then (k + 1)%Z
  else if Z.even k then k else (k + 1)%Z.

(** [Math.fround]: the single-precision number nearest to a number, which
    is also what a store into a [Float32Array] cell keeps of it.  A
    binary32 number has 24 significant bits and an exponent from -126 to
    127: a number with [2^e <= |x| < 2^(e+1)] is rounded to a multiple of
    [2^(e-23)] (of [2^-149] below [2^-126]), ties to even, and to an
    infinity when the result reaches [2^128]. *)
Definition Math_fround (a : num) : num :=
  match a with
  | Fin x =>
      if Reqb x 0 then Fin 0
      else
        let e := Z.max (Int_part (ln (Rabs x) / ln 2)) (-126) in
        let ulp := powerRZ 2 (e - 23) in
        let r := (IZR (round_half_even (x / ulp)) * ulp)%R in
        if Rleb (powerRZ 2 128) (Rabs r) then inf_of_sign x else Fin r
  | _ => a
  end.

Definition is_integer (x : R) : bool := Reqb x (IZR (Int_part x)).

(** [Math.pow], following the case list of [Number::exponentiate]. *)
Definition Math_pow (base e : num) : num :=
  match e, base with
  | NaN, _ => NaN
  | Fin y, NaN => if Reqb y 0 then Fin 1 else NaN
  | _, NaN => NaN
  | Fin y, Fin x =>
      if Reqb y 0 then Fin 1
      else if Rltb 0 x then Fin (Rpower x y)
      else if Reqb x 0 then (if Rltb 0 y then Fin 0 else PInf)
      else if is_integer y then Fin (powerRZ x (Int_part y))
      else NaN
  | Fin y, PInf =>
      if Reqb y 0 then Fin 1 else if Rltb 0 y then PInf else Fin 0
  | Fin y, NInf =>
      if Reqb y 0 then Fin 1
      else if Rltb 0 y
           then (if is_integer y && negb (is_integer (y / 2)) then NInf else PInf)
           else Fin 0
  | PInf, Fin x =>
      if Rltb 1 (Rabs x) then PInf else if Reqb (Rabs x) 1 then NaN else Fin 0
  | NInf, Fin x =>
      if Rltb 1 (Rabs x) then Fin 0 else if Reqb (Rabs x) 1 then NaN else PInf
  | PInf, _ => PInf
  | NInf, _ => Fin 0
  end.

(** The remainder operator [%]: the result has the sign of the dividend. *)
Definition rem (a b : num) : num :=
  match a, b with
  | Fin x, Fin y =>
      if Reqb y 0 then NaN
      else Fin (x - y * IZR (if Rltb (x / y) 0
                             then - Int_part (- (x / y))
                             else Int_part (x / y)))
  | Fin x, (PInf | NInf) => Fin x
  | _, _ => NaN
  end.

(** A number used as an array index: [Some i] when it is a non-negative
    integer, and [None] otherwise (the read is then [undefined], the write
    is dropped). *)
Definition to_index (a : num) : option nat :=
  match a with
  | Fin x =>
      if is_integer x && Rleb 0 x then Some (Z.to_nat (Int_part x)) else None
  | _ => None
  end.

Definition of_nat (n : nat) : num := Fin (INR n).
Definition of_Z (z : Z) : num := Fin (IZR z).

End JS.

Export JS.

Declare Scope num_scope.
Delimit Scope num_scope with num.
Bind Scope num_scope with num.
Coercion Fin : R >-> num.

Infix "+" := add : num_scope.
Infix "-" := sub : num_scope.
Infix "*" := mul : num_scope.
Infix "/" := div : num_scope.
Notation "- x" := (opp x) : num_scope.
Infix "<?" := ltb : num_scope.
Infix "<=?" := leb : num_scope.
Infix ">?" := gtb (at level 70) : num_scope.
Infix ">=?" := geb (at level 70) : num_scope.
Infix "=?" := eqb : num_scope.

(* ====================================================================== *)
(** ** js/utils.js *)
(* ====================================================================== *)

Local Open Scope R_scope.
Local Open Scope num_scope.

(** [clamp = (v, a, b) => Math.min(b, Math.max(a, v))] *)
Definition clamp (v a b : num) : num := Math_min b (Math_max a v).

(** [lerp = (a, b, t) => a + (b - a) * t] *)
Definition lerp (a b t : num) : num := a + (b - a) * t.

(** Typed arrays and plain arrays of numbers.  A read outside the array is
    [undefined], which arithmetic turns into [NaN]. *)
Definition get (l : list num) (i : nat) : num := nth i l NaN.

(** [new Float32Array(n)] *)
Definition Float32Array (n : nat) : list num := repeat (Fin 0) n.

(** The array whose cell [i] holds [f i], for [i] from [0] to [n - 1]: a
    [for] loop that writes every cell of an array of length [n] once. *)
Definition tabulate (n : nat) (f : nat -> num) : list num := map f (seq 0 n).

(** A byte of a [Uint8Array], as a number. *)
Definition byte_num (b : byte) : num := of_Z (Z.of_N (Byte.to_N b)).

(** [array[i] = v] on a typed array: a write outside the array is dropped. *)
Fixpoint set (l : list num) (i : nat) (v : num) : list num :=
  match l, i with
  | [], _ => []
  | _ :: t, O => v :: t
  | x :: t, S j => x :: set t j v
  end.

(** The values [i] takes in [for (let i = a; i <= b; i++)] when [a] is a
    non-negative integer ([a] is [Math.max(1, Math.floor(..))] below, so it
    is one whenever it is finite).  The loop body never runs when a bound
    is [NaN], when [a] is [+Infinity] or when [b] is [-Infinity]. *)
Definition for_range (a b : num) : list nat :=
  match a, b with
  | Fin x, Fin y =>
      if Rleb x y
      then seq (Z.to_nat (Int_part x)) (Z.to_nat (Int_part (y - x) + 1))
      else []
  | _, _ => []
  end.

(* ====================================================================== *)
(** ** js/audioAnalyzer.js *)
(* ====================================================================== *)

Record AudioAnalyzer : Type := mkAudioAnalyzer {
  bands : nat;
  bandValues : list num;
  bandPeaks : list num;
  bandEdges : list num;
  prevBandValues : list num;
  onsetDecay : list num;
  _fftSmooth : option (list num);      (* [None] is [null] *)
  beatInterval : num;
  lastBeatTime : num;
  beatGate : num;
  bpmSmooth : num;
  beatCount : Z;
  barCount : Z;
  spectralCentroid : num;
  spectralFlux : num;
  energy : num;
  spectralSpread : num;
  spectralRolloff : num;
  spectralFlatness : num;
  onsetKick : num;
  onsetSnare : num;
  onsetHihat : num;
  onsetGlobal : num;
  _fluxHist : list num;
  _fluxKickHist : list num;
  _fluxSnareHist : list num;
  _fluxHihatHist : list num;
  _lastOnsetT : num;
  _lastKickT : num;
  _lastSnareT : num;
  _lastHihatT : num;
  rms : num;
  rmsSmooth : num;
  rmsPeak : num;
  sampleRate : num;
  fftSize : num;
  rootNote : num;
  noteName : option string;            (* [None] is [undefined] *)
  chroma : list num;
  _noteBins : list num;
  smoothSubBass : num;
  smoothBass : num;
  smoothLowMid : num;
  smoothMid : num;
  smoothHighMid : num;
  smoothHigh : num;
  smoothBrilliance : num;
  _envSubBass : num;
  _envBass : num;
  _envMid : num;
  _envHigh : num;
  _tMs : num;
  transientSharpness : num;
  harmonicRatio : num
}.

(** [_computeLogBandEdges(numBands, minHz, maxHz)]: the values the loop of
    lines 74-76 computes for the cells of [edges]. *)
Definition _computeLogBandEdges (numBands : nat) (minHz maxHz : num) : list num :=
  let logMin := Math_log10 minHz in
  let logMax := Math_log10 maxHz in
  tabulate (numBands + 1) (fun i =>
    Math_pow 10 (logMin + (of_nat i / of_nat numBands) * (logMax - logMin))).

(** The cells of a [Float32Array] after the numbers [l] have been stored
    into them, one per cell. *)
Definition Float32Array_store (l : list num) : list num := map Math_fround l.

(** What [_computeLogBandEdges] returns: [edges] is a [Float32Array] (line
    71), so each edge is kept in single precision. *)
Definition stored_band_edges (numBands : nat) (minHz maxHz : num) : list num :=
  Float32Array_store (_computeLogBandEdges numBands minHz maxHz).

(** [new AudioAnalyzer()] *)
Definition new_AudioAnalyzer : AudioAnalyzer := {|
  bands := 64%nat;
  bandValues := Float32Array 64;
  bandPeaks := Float32Array 64;
  bandEdges := _computeLogBandEdges 64 20 20000;
  prevBandValues := Float32Array 64;
  onsetDecay := Float32Array 64;
  _fftSmooth := None;
  beatInterval := 500;
  lastBeatTime := 0;
  beatGate := 0;
  bpmSmooth := 120;
  beatCount := 0;
  barCount := 0;
  spectralCentroid := 0.5;
  spectralFlux := 0;
  energy := 0;
  spectralSpread := 0;
  spectralRolloff := 0;
  spectralFlatness := 0;
  onsetKick := 0;
  onsetSnare := 0;
  onsetHihat := 0;
  onsetGlobal := 0;
  _fluxHist := [];
  _fluxKickHist := [];
  _fluxSnareHist := [];
  _fluxHihatHist := [];
  _lastOnsetT := 0;
  _lastKickT := 0;
  _lastSnareT := 0;
  _lastHihatT := 0;
  rms := 0;
  rmsSmooth := 0.06;
  rmsPeak := 0;
  sampleRate := 48000;
  fftSize := 8192;
  rootNote := NaN;
  noteName := Some "--"%string;
  chroma := Float32Array 12;
  _noteBins := Float32Array 12;
  smoothSubBass := 0;
  smoothBass := 0;
  smoothLowMid := 0;
  smoothMid := 0;
  smoothHighMid := 0;
  smoothHigh := 0;
  smoothBrilliance := 0;
  _envSubBass := 0;
  _envBass := 0;
  _envMid := 0;
  _envHigh := 0;
  _tMs := 0;
  transientSharpness := 0;
  harmonicRatio := 0
|}.

(** [arr.slice().sort((x, y) => x - y)]: ascending insertion sort.  (With a
    [NaN] in the array the comparator is inconsistent and the order
    JavaScript produces is implementation-defined.) *)
Fixpoint insert_sorted (x : num) (l : list num) : list num :=
  match l with
  | [] => [x]
  | y :: t => if x <=? y then x :: l else y :: insert_sorted x t
  end.

Definition sort_ascending (l : list num) : list num :=
  fold_right insert_sorted [] l.

(** [a[x]] for a number [x] *)
Definition get_at (l : list num) (x : num) : num :=
  match to_index x with
  | Some i => get l i
  | None => NaN
  end.

(** [_median(arr)] *)
Definition _median (arr : list num) : num :=
  if Nat.eqb (List.length arr) 0 then 0
  else
    let a := sort_ascending arr in
    let mid := (of_nat (List.length a) - 1) * 0.5 in
    lerp (get_at a (Math_floor mid)) (get_at a (Math_ceil mid))
         (mid - Math_floor mid).

(** [_mad(arr, med)] *)
Definition _mad (arr : list num) (med : num) : num :=
  _median (map (fun v => Math_abs (v - med)) arr) + 0.000001.

(** [_adaptiveThreshold(history, k)] *)
Definition _adaptiveThreshold (history : list num) (k : num) : num :=
  let med := _median history in
  med + k * _mad history med.

(** [_ensureFftSmooth(n)], returning the array [this._fftSmooth] holds
    afterwards. *)
Definition _ensureFftSmooth (fs : option (list num)) (n : nat) : list num :=
  match fs with
  | Some l => if Nat.eqb (List.length l) n then l else Float32Array n
  | None => Float32Array n
  end.

(** [x | 0]: [ToInt32]. *)
Definition to_int32 (x : num) : Z :=
  match x with
  | Fin r =>
      let t := if Rltb r 0 then (- Int_part (- r))%Z else Int_part r in
      ((t + 2 ^ 31) mod 2 ^ 32 - 2 ^ 31)%Z
  | _ => 0%Z
  end.

Definition note_names : list string :=
  ["C"; "C#"; "D"; "D#"; "E"; "F"; "F#"; "G"; "G#"; "A"; "A#"; "B"]%string.

(** [_noteName(pc)] *)
Definition _noteName (pc : num) : option string :=
  let i := Z.rem (to_int32 pc) 12 in
  if (i <? 0)%Z then None else nth_error note_names (Z.to_nat i).

(** [setFFTInfo(fftSize, sampleRate)] *)
Definition setFFTInfo (s : AudioAnalyzer) (fftSize' sampleRate' : num) : AudioAnalyzer :=
  {| bands := bands s;
     bandValues := bandValues s;
     bandPeaks := bandPeaks s;
     bandEdges := _computeLogBandEdges (bands s) 20 (Math_min 20000 (sampleRate' / 2));
     prevBandValues := prevBandValues s;
     onsetDecay := onsetDecay s;
     _fftSmooth := _fftSmooth s;
     beatInterval := beatInterval s;
     lastBeatTime := lastBeatTime s;
     beatGate := beatGate s;
     bpmSmooth := bpmSmooth s;
     beatCount := beatCount s;
     barCount := barCount s;
     spectralCentroid := spectralCentroid s;
     spectralFlux := spectralFlux s;
     energy := energy s;
     spectralSpread := spectralSpread s;
     spectralRolloff := spectralRolloff s;
     spectralFlatness := spectralFlatness s;
     onsetKick := onsetKick s;
     onsetSnare := onsetSnare s;
     onsetHihat := onsetHihat s;
     onsetGlobal := onsetGlobal s;
     _fluxHist := _fluxHist s;
     _fluxKickHist := _fluxKickHist s;
     _fluxSnareHist := _fluxSnareHist s;
     _fluxHihatHist := _fluxHihatHist s;
     _lastOnsetT := _lastOnsetT s;
     _lastKickT := _lastKickT s;
     _lastSnareT := _lastSnareT s;
     _lastHihatT := _lastHihatT s;
     rms := rms s;
     rmsSmooth := rmsSmooth s;
     rmsPeak := rmsPeak s;
     sampleRate := sampleRate';
     fftSize := fftSize';
     rootNote := rootNote s;
     noteName := noteName s;
     chroma := chroma s;
     _noteBins := _noteBins s;
     smoothSubBass := smoothSubBass s;
     smoothBass := smoothBass s;
     smoothLowMid := smoothLowMid s;
     smoothMid := smoothMid s;
     smoothHighMid := smoothHighMid s;
     smoothHigh := smoothHigh s;
     smoothBrilliance := smoothBrilliance s;
     _envSubBass := _envSubBass s;
     _envBass := _envBass s;
     _envMid := _envMid s;
     _envHigh := _envHigh s;
     _tMs := _tMs s;
     transientSharpness := transientSharpness s;
     harmonicRatio := harmonicRatio s |}.

(** *** [analyze]: the blocks of the method, in source order *)

(** Lines 121-127, one bin: the byte as a linear amplitude, then the
    attack/release smoothing. *)
Definition smooth_bin (baseAlpha : num) (freq : byte) (old : num) : num :=
  let linear := Math_pow (byte_num freq / 255) 1.2 in
  let a := if linear >? old then Math_min (baseAlpha * 2.5) 0.7 else baseAlpha in
  lerp old linear a.

(** Lines 114-127: [this._fftSmooth] after the bin loop. *)
Definition analyze_fft (s : AudioAnalyzer) (freqData : list byte) (smoothingAlpha : num)
  : list num :=
  let N := List.length freqData in
  let baseAlpha := clamp smoothingAlpha 0.05 0.4 in
  map (fun p => smooth_bin baseAlpha (fst p) (snd p))
      (combine freqData (_ensureFftSmooth (_fftSmooth s) N)).

(** Lines 139-144: the weighted sums [(v, w)] over the bins of one band. *)
Definition bin_step (fft : list num) (N : nat) (vw : num * num) (i : nat) : num * num :=
  let weight := 1.0 + (of_nat i / of_nat N) * 0.5 in
  (fst vw + get fft i * weight, snd vw + weight).

(** Lines 134-145: [val] of the band between [lowHz] and [highHz]. *)
Definition band_value (fft : list num) (hzPerBin lowHz highHz : num) : num :=
  let N := List.length fft in
  let startBin := Math_max 1 (Math_floor (lowHz / hzPerBin)) in
  let endBin := Math_min (of_nat N - 1) (Math_ceil (highHz / hzPerBin)) in
  let vw := fold_left (bin_step fft N) (for_range startBin endBin) (Fin 0, Fin 0) in
  if snd vw >? 0 then fst vw / snd vw else 0.

(** Line 146: [this.bandValues] after the band loop. *)
Definition analyze_bandValues (s : AudioAnalyzer) (freqData : list byte) (smoothingAlpha : num)
  : list num :=
  let fft := analyze_fft s freqData smoothingAlpha in
  let hzPerBin := sampleRate s / fftSize s in
  tabulate (bands s) (fun b =>
    band_value fft hzPerBin (get (bandEdges s) b) (get (bandEdges s) (b + 1))).

(** Line 147: [this.bandPeaks] after the band loop. *)
Definition analyze_bandPeaks (s : AudioAnalyzer) (vals : list num) : list num :=
  tabulate (bands s) (fun b => Math_max (get (bandPeaks s) b * 0.97) (get vals b)).

(** Lines 130-131 and 149-155: the sums the band loop accumulates. *)
Record band_sums : Type := {
  sumEnergy : num;
  sumCentroid : num;
  sumCentroidWeight : num;
  geoMean : num;
  arithmeticMean : num
}.

Definition band_sums_step (nbands : nat) (vals : list num) (acc : band_sums) (b : nat)
  : band_sums :=
  let val := get vals b in
  {| sumEnergy := sumEnergy acc + val * val;
     sumCentroid := sumCentroid acc + (of_nat b / of_nat nbands) * val;
     sumCentroidWeight := sumCentroidWeight acc + val;
     geoMean := geoMean acc
                + (if val >? 0.001 then Math_log (val + 0.001) else Math_log 0.001);
     arithmeticMean := arithmeticMean acc + val |}.

Definition analyze_band_sums (nbands : nat) (vals : list num) : band_sums :=
  fold_left (band_sums_step nbands vals) (seq 0 nbands)
    {| sumEnergy := 0; sumCentroid := 0; sumCentroidWeight := 0;
       geoMean := 0; arithmeticMean := 0 |}.

(** Lines 164-176: the four flux accumulators. *)
Record flux_sums : Type := {
  flux : num;
  fluxKick : num;
  fluxSnare : num;
  fluxHihat : num
}.

(** Lines 169-176: what one band, of centre frequency [hz] and squared
    rectified delta [rectified], adds to the accumulators. *)
Definition flux_add (hz rectified : num) (acc : flux_sums) : flux_sums :=
  let flux' := flux acc + rectified in
  if hz <? 150 then
    {| flux := flux'; fluxKick := fluxKick acc + rectified * 2.0;
       fluxSnare := fluxSnare acc; fluxHihat := fluxHihat acc |}
  else if (hz >=? 150) && (hz <? 400) then
    {| flux := flux'; fluxKick := fluxKick acc + rectified * 0.5;
       fluxSnare := fluxSnare acc; fluxHihat := fluxHihat acc |}
  else if (hz >=? 200) && (hz <? 2000) then
    {| flux := flux'; fluxKick := fluxKick acc;
       fluxSnare := fluxSnare acc + rectified; fluxHihat := fluxHihat acc |}
  else if hz >=? 4000 then
    {| flux := flux'; fluxKick := fluxKick acc;
       fluxSnare := fluxSnare acc; fluxHihat := fluxHihat acc + rectified * 1.5 |}
  else
    {| flux := flux'; fluxKick := fluxKick acc;
       fluxSnare := fluxSnare acc; fluxHihat := fluxHihat acc |}.

(** Line 172: the centre frequency of band [b]. *)
Definition band_center (edges : list num) (b : nat) : num :=
  (get edges b + get edges (b + 1)) / 2.

(** Lines 166-167: the rectified delta [pos] of band [b]. *)
Definition band_pos (vals prev : list num) (b : nat) : num :=
  Math_max 0 (get vals b - get prev b).

Definition flux_step (edges vals prev : list num) (acc : flux_sums) (b : nat) : flux_sums :=
  let pos := band_pos vals prev b in
  let rectified := pos * pos in
  flux_add (band_center edges b) rectified acc.

Definition flux_zero : flux_sums :=
  {| flux := 0; fluxKick := 0; fluxSnare := 0; fluxHihat := 0 |}.

(** Lines 164-180: the accumulators when the flux loop ends. *)
Definition flux_loop (s : AudioAnalyzer) (vals : list num) : flux_sums :=
  fold_left (flux_step (bandEdges s) vals (prevBandValues s)) (seq 0 (bands s)) flux_zero.

(** Lines 181-184 *)
Definition flux_sqrt (acc : flux_sums) : flux_sums :=
  {| flux := Math_sqrt (flux acc);
     fluxKick := Math_sqrt (fluxKick acc);
     fluxSnare := Math_sqrt (fluxSnare acc);
     fluxHihat := Math_sqrt (fluxHihat acc) |}.

(** Line 178: [this.onsetDecay] after the flux loop. *)
Definition analyze_onsetDecay (s : AudioAnalyzer) (vals : list num) : list num :=
  tabulate (bands s) (fun b =>
    Math_max (get (onsetDecay s) b * 0.82)
             (clamp (band_pos vals (prevBandValues s) b * 2.8) 0 1)).

(** Lines 186-189: [pushHist(arr, v, maxLen)] *)
Definition pushHist (arr : list num) (v : num) (maxLen : nat) : list num :=
  let arr' := arr ++ [v] in
  if Nat.ltb maxLen (List.length arr') then tl arr' else arr'.

(** Lines 197-203: [trigOnset(v, thr, ref, cooldown, sensitivity)], given
    the value [last] of [this[ref]]; the result is the strength and the
    value of [this[ref]] afterwards. *)
Definition trigOnset (now v thr last cooldown sensitivity : num) : num * num :=
  if (v >? thr) && ((now - last) >? cooldown)
  then (clamp ((v / thr - 1.0) * sensitivity) 0.5 1.5, now)
  else (Fin 0, last).

(** Lines 226-234: the loop over the time-domain samples, accumulating
    [(sum, zeroCrossings)]; [prev] is the byte before the current one. *)
Definition time_sample (b : byte) : num := (byte_num b - 128) / 128.

Definition crosses_zero (sample prev : num) : bool :=
  ((sample >=? 0) && (prev <? 0)) || ((sample <? 0) && (prev >=? 0)).

Fixpoint time_loop (prev : option byte) (l : list byte) (acc : num * num) : num * num :=
  match l with
  | [] => acc
  | x :: t =>
      let sample := time_sample x in
      let sum := fst acc + sample * sample in
      let zeroCrossings :=
        match prev with
        | Some p => if crosses_zero sample (time_sample p) then snd acc + 1 else snd acc
        | None => snd acc
        end in
      time_loop (Some x) t (sum, zeroCrossings)
  end.

(** Lines 248-252: [computeBandEnergy(startBand, endBand)] *)
Definition computeBandEnergy (nbands : nat) (vals : list num) (startBand endBand : nat) : num :=
  let sum := fold_left (fun sum i => sum + get vals i)
                       (seq startBand (Nat.min (endBand + 1) nbands - startBand)) (Fin 0) in
  sum / (of_nat endBand - of_nat startBand + 1).

(** Lines 264-267: [updateEnv(current, target, attack, release)] *)
Definition updateEnv (current target attack release : num) : num :=
  let coeff := if target >? current then attack else release in
  current + (target - current) * coeff.

(** Lines 311-318, one bin of the chroma loop. *)
Definition chroma_step (fft : list num) (hzPerBin : num) (chroma : list num) (i : nat)
  : list num :=
  let freq := of_nat i * hzPerBin in
  if (freq >? 30) && (freq <? 4000) then
    let midi := 69 + 12 * Math_log2 (freq / 440) in
    let c := rem (rem (Math_round midi) 12 + 12) 12 in
    match to_index c with
    | Some k => set chroma k (get chroma k + get fft i)
    | None => chroma
    end
  else chroma.

(** Lines 310-318: [this.chroma] after the chroma loop. *)
Definition analyze_chroma (s : AudioAnalyzer) (fft : list num) : list num :=
  let N := List.length fft in
  let hzPerBin := sampleRate s / fftSize s in
  fold_left (chroma_step fft hzPerBin) (seq 4 (Nat.min 400 N - 4))
            (map (fun _ => Fin 0) (chroma s)).

(** Lines 320-323: [(maxVal, maxIdx)] of the dominant pitch class. *)
Definition dominant_step (chroma : list num) (acc : num * num) (i : nat) : num * num :=
  if get chroma i >? fst acc then (get chroma i, of_nat i) else acc.

Definition dominant (chroma : list num) : num * num :=
  fold_left (dominant_step chroma) (seq 0 12) (Fin 0, Fin 0).

(** Lines 190-208: the four onset detectors.  Each pushes the flux of its
    channel on its history and calls [trigOnset] against the adaptive
    threshold of that history. *)
Definition fired_global (s : AudioAnalyzer) (f : flux_sums) (now : num) : num * num :=
  trigOnset now (flux f)
            (_adaptiveThreshold (pushHist (_fluxHist s) (flux f) 60) 2.2)
            (_lastOnsetT s) 80 2.4.

Definition fired_kick (s : AudioAnalyzer) (f : flux_sums) (now : num) : num * num :=
  trigOnset now (fluxKick f)
            (_adaptiveThreshold (pushHist (_fluxKickHist s) (fluxKick f) 50) 2.0)
            (_lastKickT s) 150 3.0.

Definition fired_snare (s : AudioAnalyzer) (f : flux_sums) (now : num) : num * num :=
  trigOnset now (fluxSnare f)
            (_adaptiveThreshold (pushHist (_fluxSnareHist s) (fluxSnare f) 50) 2.2)
            (_lastSnareT s) 100 2.4.

Definition fired_hihat (s : AudioAnalyzer) (f : flux_sums) (now : num) : num * num :=
  trigOnset now (fluxHihat f)
            (_adaptiveThreshold (pushHist (_fluxHihatHist s) (fluxHihat f) 40) 2.5)
            (_lastHihatT s) 50 2.4.

(** Lines 225-237: [(this.rms, this.harmonicRatio)] after the RMS block,
    which runs when [timeData] is a non-empty array. *)
Definition analyze_rms (s : AudioAnalyzer) (timeData : option (list byte)) : num * num :=
  match timeData with
  | Some (x :: t) =>
      let len := of_nat (List.length (x :: t)) in
      let acc := time_loop None (x :: t) (Fin 0, Fin 0) in
      (Math_sqrt (fst acc / len), clamp (snd acc / len * 50) 0 1)
  | _ => (rms s, harmonicRatio s)
  end.

(** Lines 296-300: [(this.beatInterval, this.bpmSmooth)] after the tempo
    update of a beat that fires at [now]. *)
Definition tempo_update (s : AudioAnalyzer) (now : num) : num * num :=
  let interval := now - lastBeatTime s in
  if (lastBeatTime s >? 0) && (interval >? 180) && (interval <? 2500)
  then
    let beatInterval' := lerp (beatInterval s) interval 0.25 in
    (beatInterval', lerp (bpmSmooth s) (60000 / beatInterval') 0.15)
  else (beatInterval s, bpmSmooth s).

(** Line 294: the test that decides whether a beat fires. *)
Definition beat_fires (s : AudioAnalyzer) (kOn now : num) : bool :=
  (kOn >? 0.3) && ((now - lastBeatTime s) >? 180) && (beatGate s <=? 0).

(** [analyze(freqData, timeData, dt, freqL, freqR, smoothingAlpha)].
    [freqL] and [freqR] are never read and are left out; [timeData] is
    [None] for [null], [smoothingAlpha] is [None] when the argument is
    omitted.  The result is the returned [isBeat] and the analyzer after
    the call. *)
Definition analyze (s : AudioAnalyzer) (freqData : list byte)
    (timeData : option (list byte)) (dt : num) (smoothingAlpha : option num)
  : bool * AudioAnalyzer :=
  let alpha := match smoothingAlpha with Some a => a | None => Fin 0.18 end in
  let tMs := _tMs s + dt * 1000 in
  (* bins and bands *)
  let fft := analyze_fft s freqData alpha in
  let vals := analyze_bandValues s freqData alpha in
  let peaks := analyze_bandPeaks s vals in
  let sums := analyze_band_sums (bands s) vals in
  let spectralCentroid' :=
    if sumCentroidWeight sums >? 0.000001
    then sumCentroid sums / sumCentroidWeight sums else Fin 0.5 in
  let arithmeticMean' := arithmeticMean sums / of_nat (bands s) in
  let geoMean' := Math_exp (geoMean sums / of_nat (bands s)) in
  let spectralFlatness' :=
    if arithmeticMean' >? 0.001 then geoMean' / arithmeticMean' else Fin 0 in
  (* spectral flux and onsets *)
  let f := flux_sqrt (flux_loop s vals) in
  let onsetDecay' := analyze_onsetDecay s vals in
  let now := tMs in
  let gOn := fired_global s f now in
  let kOn := fired_kick s f now in
  let sOn := fired_snare s f now in
  let hOn := fired_hihat s f now in
  let onsetGlobal' := Math_max (fst gOn) (onsetGlobal s * 0.88) in
  let onsetKick' := Math_max (fst kOn) (onsetKick s * 0.78) in
  let onsetSnare' := Math_max (fst sOn) (onsetSnare s * 0.82) in
  let onsetHihat' := Math_max (fst hOn) (onsetHihat s * 0.90) in
  let transientSharpness' :=
    clamp (onsetKick' * 1.2 + onsetSnare' * 0.8 + onsetHihat' * 0.5 + onsetGlobal' * 0.3)
          0 2.0 in
  (* RMS *)
  let rms_harm := analyze_rms s timeData in
  let rms' := fst rms_harm in
  let attackTime := Fin 0.005 in
  let releaseTime := Fin 0.15 in
  let attackCoeff := 1 - Math_exp (- dt / attackTime) in
  let releaseCoeff := 1 - Math_exp (- dt / releaseTime) in
  let envCoeff := if rms' >? rmsSmooth s then attackCoeff else releaseCoeff in
  let rmsSmooth' := rmsSmooth s + (rms' - rmsSmooth s) * envCoeff in
  let rmsPeak' := Math_max (rmsPeak s * 0.9995) rmsSmooth' in
  (* named bands *)
  let rawSubBass := computeBandEnergy (bands s) vals 0 3 in
  let rawBass := computeBandEnergy (bands s) vals 4 8 in
  let rawLowMid := computeBandEnergy (bands s) vals 9 16 in
  let rawMid := computeBandEnergy (bands s) vals 17 28 in
  let rawHighMid := computeBandEnergy (bands s) vals 29 40 in
  let rawHigh := computeBandEnergy (bands s) vals 41 52 in
  let rawBrilliance := computeBandEnergy (bands s) vals 53 63 in
  let fastAttack := 1 - Math_pow 0.001 (dt * 12.0) in
  let medAttack := 1 - Math_pow 0.001 (dt * 6.0) in
  let slowRelease := 1 - Math_pow 0.001 (dt * 1.5) in
  let medRelease := 1 - Math_pow 0.001 (dt * 2.5) in
  let smoothSubBass' := updateEnv (smoothSubBass s) rawSubBass fastAttack slowRelease in
  let smoothBass' := updateEnv (smoothBass s) rawBass fastAttack slowRelease in
  let smoothLowMid' := updateEnv (smoothLowMid s) rawLowMid medAttack medRelease in
  let smoothMid' := updateEnv (smoothMid s) rawMid medAttack medRelease in
  let smoothHighMid' := updateEnv (smoothHighMid s) rawHighMid medAttack medRelease in
  let smoothHigh' := updateEnv (smoothHigh s) rawHigh fastAttack medRelease in
  let smoothBrilliance' :=
    updateEnv (smoothBrilliance s) rawBrilliance fastAttack medRelease in
  let energy' :=
    clamp (0.25 * smoothSubBass' + 0.30 * smoothBass' + 0.15 * smoothLowMid'
           + 0.15 * smoothMid' + 0.10 * smoothHighMid' + 0.05 * smoothHigh')
          0 1.5 in
  (* beat and tempo *)
  let isBeat := beat_fires s (fst kOn) now in
  let tempo := if isBeat then tempo_update s now else (beatInterval s, bpmSmooth s) in
  let beatInterval' := fst tempo in
  let bpmSmooth' := snd tempo in
  let beatCount' := if isBeat then (beatCount s + 1)%Z else beatCount s in
  let barCount' :=
    if isBeat && (beatCount' mod 4 =? 0)%Z then (barCount s + 1)%Z else barCount s in
  let beatGate' := Math_max 0 ((if isBeat then Fin 100 else beatGate s) - dt * 1000) in
  (* chroma; [this._fftSmooth] is an array here, so the guard of line 309 holds *)
  let chroma' := analyze_chroma s fft in
  let mx := dominant chroma' in
  let found := fst mx >? 0.1 in
  (isBeat,
   {| bands := bands s;
      bandValues := vals;
      bandPeaks := peaks;
      bandEdges := bandEdges s;
      prevBandValues := tabulate (bands s) (get vals);
      onsetDecay := onsetDecay';
      _fftSmooth := Some fft;
      beatInterval := beatInterval';
      lastBeatTime := if isBeat then now else lastBeatTime s;
      beatGate := beatGate';
      bpmSmooth := bpmSmooth';
      beatCount := beatCount';
      barCount := barCount';
      spectralCentroid := spectralCentroid';
      spectralFlux := clamp (flux f * 0.8) 0 2.5;
      energy := energy';
      spectralSpread := spectralSpread s;
      spectralRolloff := spectralRolloff s;
      spectralFlatness := spectralFlatness';
      onsetKick := onsetKick';
      onsetSnare := onsetSnare';
      onsetHihat := onsetHihat';
      onsetGlobal := onsetGlobal';
      _fluxHist := pushHist (_fluxHist s) (flux f) 60;
      _fluxKickHist := pushHist (_fluxKickHist s) (fluxKick f) 50;
      _fluxSnareHist := pushHist (_fluxSnareHist s) (fluxSnare f) 50;
      _fluxHihatHist := pushHist (_fluxHihatHist s) (fluxHihat f) 40;
      _lastOnsetT := snd gOn;
      _lastKickT := snd kOn;
      _lastSnareT := snd sOn;
      _lastHihatT := snd hOn;
      rms := rms';
      rmsSmooth := rmsSmooth';
      rmsPeak := rmsPeak';
      sampleRate := sampleRate s;
      fftSize := fftSize s;
      rootNote := if found then snd mx else rootNote s;
      noteName := if found then _noteName (snd mx) else noteName s;
      chroma := chroma';
      _noteBins := _noteBins s;
      smoothSubBass := smoothSubBass';
      smoothBass := smoothBass';
      smoothLowMid := smoothLowMid';
      smoothMid := smoothMid';
      smoothHighMid := smoothHighMid';
      smoothHigh := smoothHigh';
      smoothBrilliance := smoothBrilliance';
      _envSubBass := _envSubBass s;
      _envBass := _envBass s;
      _envMid := _envMid s;
      _envHigh := _envHigh s;
      _tMs := tMs;
      transientSharpness := transientSharpness';
      harmonicRatio := snd rms_harm |}).

(** [getBand(i)] and [getOnset(i)] *)
Definition getBand (s : AudioAnalyzer) (i : nat) : num :=
  get (bandValues s) (Nat.min i (bands s - 1)).

Definition getOnset (s : AudioAnalyzer) (i : nat) : num :=
  get (onsetDecay s) (Nat.min i (bands s - 1)).

(** [getBPM()] *)
Definition getBPM (s : AudioAnalyzer) : num :=
  Math_round (if isFinite (bpmSmooth s) then bpmSmooth s
              else 60000 / clamp (beatInterval s) 240 2000).

(* ====================================================================== *)
(** ** js/motionCoordinator.js *)
(* ====================================================================== *)

Record MotionCoordinator : Type := mkMotionCoordinator {
  pulse : num;
  impact : num;
  swell : num;
  breathe : num;
  lowMotion : num;
  midMotion : num;
  highMotion : num;
  scaleSuggestion : num;
  zoomSuggestion : num;
  _pulseRaw : num;
  _impactRaw : num;
  _swellRaw : num;
  _lowRaw : num;
  _midRaw : num;
  _highRaw : num;
  _pulseSmooth1 : num;
  _pulseSmooth2 : num;
  _swellSmooth1 : num;
  _swellSmooth2 : num;
  _lastBeatTime : num;
  _beatLockout : num;
  _breathePhase : num
}.

(** [new MotionCoordinator()] *)
Definition new_MotionCoordinator : MotionCoordinator := {|
  pulse := 0;
  impact := 0;
  swell := 0;
  breathe := 0;
  lowMotion := 0;
  midMotion := 0;
  highMotion := 0;
  scaleSuggestion := 1;
  zoomSuggestion := 0;
  _pulseRaw := 0;
  _impactRaw := 0;
  _swellRaw := 0;
  _lowRaw := 0;
  _midRaw := 0;
  _highRaw := 0;
  _pulseSmooth1 := 0;
  _pulseSmooth2 := 0;
  _swellSmooth1 := 0;
  _swellSmooth2 := 0;
  _lastBeatTime := 0;
  _beatLockout := 0;
  _breathePhase := 0
|}.

(** Line 59: the test of the pulse trigger branch. *)
Definition pulse_triggers (m : MotionCoordinator) (audio : AudioAnalyzer) : bool :=
  (onsetKick audio >? 0.4) && (_beatLockout m <=? 0).

(** [update(audio, dt, musicPhase, smoothness)].  [perf_now] is the value
    [performance.now()] returns in the call; [musicPhase] is never read and
    is left out; [smoothness] is [None] when the argument is omitted. *)
Definition update (m : MotionCoordinator) (perf_now : num) (audio : AudioAnalyzer)
    (dt : num) (smoothness : option num) : MotionCoordinator :=
  let smoothness := match smoothness with Some x => x | None => Fin 0.7 end in
  let now := perf_now in
  let smoothFactor := 0.3 + smoothness * 0.7 in
  let lerpSlow := dt * (1.5 - smoothFactor * 1.2) in
  let lerpMed := dt * (4.0 - smoothFactor * 3.0) in
  let lerpFast := dt * (8.0 - smoothFactor * 5.0) in
  (* beat pulse *)
  let beatLockoutTime := 150 + smoothness * 200 in
  let trig := pulse_triggers m audio in
  let pulseRaw1 := if trig then clamp (onsetKick audio * 0.9) 0.5 1.0 else _pulseRaw m in
  let beatLockout1 := if trig then beatLockoutTime else _beatLockout m in
  let lastBeatTime' := if trig then now else _lastBeatTime m in
  let beatLockout' := Math_max 0 (beatLockout1 - dt * 1000) in
  let pulseDecayRate := 0.92 + smoothness * 0.06 in
  let pulseRaw' := pulseRaw1 * pulseDecayRate in
  let pulseSmooth1' := lerp (_pulseSmooth1 m) pulseRaw' lerpFast in
  let pulseSmooth2' := lerp (_pulseSmooth2 m) pulseSmooth1' lerpMed in
  let pulse' := pulseSmooth2' in
  (* impact *)
  let impactInfluence := 1.0 - smoothness * 0.8 in
  let rawImpact := (onsetSnare audio * 0.5 + onsetHihat audio * 0.3) * impactInfluence in
  let impactRaw' := Math_max (_impactRaw m * 0.9) rawImpact in
  let impact' := lerp (impact m) impactRaw' lerpFast in
  (* swell *)
  let targetSwell := energy audio * 0.7 + rmsSmooth audio * 0.3 in
  let swellRaw' := lerp (_swellRaw m) targetSwell (dt * (0.5 - smoothness * 0.35)) in
  let swellSmooth1' := lerp (_swellSmooth1 m) swellRaw' lerpSlow in
  let swellSmooth2' := lerp (_swellSmooth2 m) swellSmooth1' lerpSlow in
  let swell' := swellSmooth2' in
  (* breathe *)
  let bpm := or_else (getBPM audio) 120 in
  let breathePhase' := _breathePhase m + dt * (bpm / 60) * 0.25 in
  let breathe' :=
    (Math_sin (breathePhase' * Fin PI * 2) * 0.5 + 0.5) * swell' * 0.7 in
  (* frequency bands *)
  let lowTarget := (smoothSubBass audio + smoothBass audio) * 0.5 in
  let midTarget := (smoothLowMid audio + smoothMid audio) * 0.5 in
  let highTarget := (smoothHighMid audio + smoothHigh audio) * 0.5 in
  let lowRaw' := lerp (_lowRaw m) lowTarget lerpMed in
  let midRaw' := lerp (_midRaw m) midTarget lerpMed in
  let highRaw' := lerp (_highRaw m) highTarget lerpMed in
  let lowMotion' := lerp (lowMotion m) lowRaw' lerpSlow in
  let midMotion' := lerp (midMotion m) midRaw' lerpSlow in
  let highMotion' := lerp (highMotion m) highRaw' lerpSlow in
  (* suggestions *)
  let pulseScale := pulse' * (0.2 - smoothness * 0.12) in
  let swellScale := swell' * 0.12 in
  let breatheScale := breathe' * 0.06 in
  let pulseZoom := pulse' * (0.12 - smoothness * 0.10) in
  {| pulse := pulse';
     impact := impact';
     swell := swell';
     breathe := breathe';
     lowMotion := lowMotion';
     midMotion := midMotion';
     highMotion := highMotion';
     scaleSuggestion := 1.0 + pulseScale + swellScale + breatheScale;
     zoomSuggestion := - pulseZoom + breathe' * 0.04;
     _pulseRaw := pulseRaw';
     _impactRaw := impactRaw';
     _swellRaw := swellRaw';
     _lowRaw := lowRaw';
     _midRaw := midRaw';
     _highRaw := highRaw';
     _pulseSmooth1 := pulseSmooth1';
     _pulseSmooth2 := pulseSmooth2';
     _swellSmooth1 := swellSmooth1';
     _swellSmooth2 := swellSmooth2';
     _lastBeatTime := lastBeatTime';
     _beatLockout := beatLockout';
     _breathePhase := breathePhase' |}.

(** [getSmoothed(value, extraSmooth)]: the returned number and the
    coordinator after the call.  [extraSmooth] is [None] when the argument
    is omitted. *)
Definition getSmoothed (m : MotionCoordinator) (value : num) (extraSmooth : option num)
  : num * MotionCoordinator :=
  let extraSmooth := match extraSmooth with Some x => x | None => Fin 0.5 end in
  (value * (1.0 - extraSmooth * 0.5), m).

(* ====================================================================== *)
(** ** Runs of the analyzer *)
(* ====================================================================== *)

Inductive channel : Type := Kick | Snare | Hihat | Global.

(** The envelope of a channel: [onsetKick], [onsetSnare], [onsetHihat] or
    [onsetGlobal]. *)
Definition onset_of (c : channel) (s : AudioAnalyzer) : num :=
  match c with
  | Kick => onsetKick s
  | Snare => onsetSnare s
  | Hihat => onsetHihat s
  | Global => onsetGlobal s
  end.

(** The decay factor of lines 211-214. *)
Definition decay_factor (c : channel) : R :=
  match c with
  | Kick => 0.78
  | Snare => 0.82
  | Hihat => 0.90
  | Global => 0.88
  end.

(** One frame of input: the arguments of a call to [analyze]. *)
Record frame : Type := {
  freqData : list byte;
  timeData : option (list byte);
  dt : num;
  smoothingAlpha : option num
}.

Definition analyze_frame (s : AudioAnalyzer) (fr : frame) : bool * AudioAnalyzer :=
  analyze s (freqData fr) (timeData fr) (dt fr) (smoothingAlpha fr).

(** The flux scalars of a call (lines 181-184). *)
Definition call_flux (s : AudioAnalyzer) (fr : frame) : flux_sums :=
  let alpha := match smoothingAlpha fr with Some a => a | None => Fin 0.18 end in
  flux_sqrt (flux_loop s (analyze_bandValues s (freqData fr) alpha)).

(** The strength [trigOnset] returns for a channel in a call ([gOn], [kOn],
    [sOn], [hOn]): [0.0] when the channel does not fire. *)
Definition call_onset (c : channel) (s : AudioAnalyzer) (fr : frame) : num :=
  let now := _tMs s + dt fr * 1000 in
  let f := call_flux s fr in
  match c with
  | Kick => fst (fired_kick s f now)
  | Snare => fst (fired_snare s f now)
  | Hihat => fst (fired_hihat s f now)
  | Global => fst (fired_global s f now)
  end.

(** The analyzer after a sequence of calls. *)
Definition run (s : AudioAnalyzer) (frames : list frame) : AudioAnalyzer :=
  fold_left (fun s fr => snd (analyze_frame s fr)) frames s.

(** Channel [c] fires in none of the calls of the run. *)
Fixpoint quiet (c : channel) (s : AudioAnalyzer) (frames : list frame) : Prop :=
  match frames with
  | [] => True
  | fr :: rest => call_onset c s fr = Fin 0 /\ quiet c (snd (analyze_frame s fr)) rest
  end.


(** A frame a caller can pass: [dt] is a finite number and [smoothingAlpha],
    when given, is a number (not [NaN]).  The byte arrays are well-formed by
    their type. *)
Definition wf_frame (fr : frame) : Prop :=
  isFinite (dt fr) = true
  /\ forall a, smoothingAlpha fr = Some a -> isNaN a = false.

(** The analyzers a program can hold: built by the constructor, then driven
    through [setFFTInfo] and [analyze], with frames that satisfy [P]. *)
Inductive reachable_by (P : frame -> Prop) : AudioAnalyzer -> Prop :=
| reachable_new : reachable_by P new_AudioAnalyzer
| reachable_setFFTInfo : forall s fftSize' sampleRate',
    reachable_by P s -> reachable_by P (setFFTInfo s fftSize' sampleRate')
| reachable_analyze : forall s fr,
    reachable_by P s -> P fr -> reachable_by P (snd (analyze_frame s fr)).

(** Reachable with any frames at all, and with well-formed frames. *)
Definition reachable : AudioAnalyzer -> Prop := reachable_by (fun _ => True).
Definition reachable_wf : AudioAnalyzer -> Prop := reachable_by wf_frame.

(** A number that [Number.isFinite] accepts. *)
Definition finite (x : num) : Prop := isFinite x = true.

(** A finite number that is not negative. *)
Definition nonneg (x : num) : Prop := exists r : R, x = Fin r /\ (0 <= r)%R.

(** The sums of the band loop are finite; the flux accumulators are finite
    and not negative. *)
Record finite_sums (a : band_sums) : Prop := {
  fs_energy : finite (sumEnergy a);
  fs_centroid : finite (sumCentroid a);
  fs_weight : finite (sumCentroidWeight a);
  fs_geo : finite (geoMean a);
  fs_arith : finite (arithmeticMean a)
}.

Record nonneg_flux (a : flux_sums) : Prop := {
  nf_flux : nonneg (flux a);
  nf_kick : nonneg (fluxKick a);
  nf_snare : nonneg (fluxSnare a);
  nf_hihat : nonneg (fluxHihat a)
}.

(** The state an analyzer keeps between calls is well-formed: the arrays
    have their lengths and hold finite numbers, the scalars are finite, the
    beat interval is positive, and [rootNote] is [NaN] or a pitch class. *)
Record analyzer_ok (s : AudioAnalyzer) : Prop := {
  ok_bands : bands s = 64%nat;
  ok_bandValues : Forall finite (bandValues s);
  ok_bandPeaks : Forall finite (bandPeaks s);
  ok_bandPeaks_len : List.length (bandPeaks s) = bands s;
  ok_prevBandValues : Forall finite (prevBandValues s);
  ok_prevBandValues_len : List.length (prevBandValues s) = bands s;
  ok_onsetDecay : Forall finite (onsetDecay s);
  ok_onsetDecay_len : List.length (onsetDecay s) = bands s;
  ok_fftSmooth : forall l, _fftSmooth s = Some l -> Forall finite l;
  ok_beatInterval : exists r : R, beatInterval s = Fin r /\ (0 < r)%R;
  ok_lastBeatTime : finite (lastBeatTime s);
  ok_beatGate : finite (beatGate s);
  ok_bpmSmooth : finite (bpmSmooth s);
  ok_spectralCentroid : finite (spectralCentroid s);
  ok_spectralFlux : finite (spectralFlux s);
  ok_energy : finite (energy s);
  ok_spectralSpread : finite (spectralSpread s);
  ok_spectralRolloff : finite (spectralRolloff s);
  ok_spectralFlatness : finite (spectralFlatness s);
  ok_onsetKick : finite (onsetKick s);
  ok_onsetSnare : finite (onsetSnare s);
  ok_onsetHihat : finite (onsetHihat s);
  ok_onsetGlobal : finite (onsetGlobal s);
  ok_fluxHist : Forall finite (_fluxHist s);
  ok_fluxKickHist : Forall finite (_fluxKickHist s);
  ok_fluxSnareHist : Forall finite (_fluxSnareHist s);
  ok_fluxHihatHist : Forall finite (_fluxHihatHist s);
  ok_lastOnsetT : finite (_lastOnsetT s);
  ok_lastKickT : finite (_lastKickT s);
  ok_lastSnareT : finite (_lastSnareT s);
  ok_lastHihatT : finite (_lastHihatT s);
  ok_rms : nonneg (rms s);
  ok_rmsSmooth : finite (rmsSmooth s);
  ok_rmsPeak : finite (rmsPeak s);
  ok_rootNote : rootNote s = NaN \/ exists i : nat, (i < 12)%nat /\ rootNote s = of_nat i;
  ok_chroma : Forall finite (chroma s);
  ok_smoothSubBass : finite (smoothSubBass s);
  ok_smoothBass : finite (smoothBass s);
  ok_smoothLowMid : finite (smoothLowMid s);
  ok_smoothMid : finite (smoothMid s);
  ok_smoothHighMid : finite (smoothHighMid s);
  ok_smoothHigh : finite (smoothHigh s);
  ok_smoothBrilliance : finite (smoothBrilliance s);
  ok_tMs : finite (_tMs s);
  ok_transientSharpness : finite (transientSharpness s);
  ok_harmonicRatio : finite (harmonicRatio s)
}.

(** The public numbers of a FeatureSnapshot other than [rootNote]: the
    scalar fields, and the array fields.  ([beatCount] and [barCount] are
    integers.) *)
Definition feature_scalars (s : AudioAnalyzer) : list num :=
  [ spectralCentroid s; spectralFlux s; spectralFlatness s; energy s;
    rms s; rmsSmooth s; rmsPeak s; transientSharpness s; harmonicRatio s;
    smoothSubBass s; smoothBass s; smoothLowMid s; smoothMid s;
    smoothHighMid s; smoothHigh s; smoothBrilliance s;
    onsetKick s; onsetSnare s; onsetHihat s; onsetGlobal s;
    bpmSmooth s; beatInterval s ].

Definition feature_arrays (s : AudioAnalyzer) : list (list num) :=
  [ bandValues s; bandPeaks s; onsetDecay s; chroma s ].

(** The public numbers of a MotionSnapshot. *)
Definition motion_fields (m : MotionCoordinator) : list num :=
  [ pulse m; impact m; swell m; breathe m; lowMotion m; midMotion m;
    highMotion m; scaleSuggestion m; zoomSuggestion m ].

(** Every number a coordinator holds, public or internal. *)
Definition motion_state (m : MotionCoordinator) : list num :=
  motion_fields m ++
  [ _pulseRaw m; _impactRaw m; _swellRaw m; _lowRaw m; _midRaw m; _highRaw m;
    _pulseSmooth1 m; _pulseSmooth2 m; _swellSmooth1 m; _swellSmooth2 m;
    _lastBeatTime m; _beatLockout m; _breathePhase m ].

(** The coordinators a program can hold: built by the constructor, then
    updated with analyzers reachable through well-formed frames and with
    finite [performance.now()], [dt] and [smoothness]. *)
Inductive motion_reachable : MotionCoordinator -> Prop :=
| motion_new : motion_reachable new_MotionCoordinator
| motion_update : forall m perf_now audio dt smoothness,
    motion_reachable m -> reachable_wf audio ->
    finite perf_now -> finite dt ->
    (forall x, smoothness = Some x -> finite x) ->
    motion_reachable (update m perf_now audio dt smoothness).

(** The number of calls of a run in which a beat fires (in which [analyze]
    returns [true]). *)
Fixpoint beats_fired (s : AudioAnalyzer) (frames : list frame) : nat :=
  match frames with
  | [] => 0
  | fr :: rest =>
      (if fst (analyze_frame s fr) then 1 else 0)
      + beats_fired (snd (analyze_frame s fr)) rest
  end.

(** A call to [update]: the value of [performance.now()] in the call and
    the analyzer passed as [audio]. *)
Definition update_call : Type := (num * AudioAnalyzer)%type.

(** For a sequence of calls to [update] with the same [dt] and
    [smoothness]: whether each call runs the pulse trigger branch (lines
    59-64), in call order. *)
Fixpoint trigger_trace (m : MotionCoordinator) (calls : list update_call)
    (dt : num) (smoothness : option num) : list bool :=
  match calls with
  | [] => []
  | (perf_now, audio) :: rest =>
      pulse_triggers m audio
      :: trigger_trace (update m perf_now audio dt smoothness) rest dt smoothness
  end.

(** How many calls of the sequence run the pulse trigger branch. *)
Definition trigger_count (m : MotionCoordinator) (calls : list update_call)
    (dt : num) (smoothness : option num) : nat :=
  count_occ bool_dec (trigger_trace m calls dt smoothness) true.

(** Calls of [update] at 60 per second with a lockout of 150 ms: with [k]
    calls of lockout left and the kick above the threshold in every call,
    which of the next [n] calls trigger. *)
Fixpoint countdown_trace (k n : nat) : list bool :=
  match n with
  | O => []
  | S n' =>
      match k with
      | O => true :: countdown_trace 8 n'
      | S k' => false :: countdown_trace k' n'
      end
  end.

(** The analyzer fields [update] reads, after a kick of strength 1: the
    analyzer as constructed, but for [onsetKick]. *)
Definition kick_audio : AudioAnalyzer := {|
  bands := 64%nat;
  bandValues := Float32Array 64;
  bandPeaks := Float32Array 64;
  bandEdges := _computeLogBandEdges 64 20 20000;
  prevBandValues := Float32Array 64;
  onsetDecay := Float32Array 64;
  _fftSmooth := None;
  beatInterval := 500;
  lastBeatTime := 0;
  beatGate := 0;
  bpmSmooth := 120;
  beatCount := 0;
  barCount := 0;
  spectralCentroid := 0.5;
  spectralFlux := 0;
  energy := 0;
  spectralSpread := 0;
  spectralRolloff := 0;
  spectralFlatness := 0;
  onsetKick := 1;
  onsetSnare := 0;
  onsetHihat := 0;
  onsetGlobal := 0;
  _fluxHist := [];
  _fluxKickHist := [];
  _fluxSnareHist := [];
  _fluxHihatHist := [];
  _lastOnsetT := 0;
  _lastKickT := 0;
  _lastSnareT := 0;
  _lastHihatT := 0;
  rms := 0;
  rmsSmooth := 0.06;
  rmsPeak := 0;
  sampleRate := 48000;
  fftSize := 8192;
  rootNote := NaN;
  noteName := Some "--"%string;
  chroma := Float32Array 12;
  _noteBins := Float32Array 12;
  smoothSubBass := 0;
  smoothBass := 0;
  smoothLowMid := 0;
  smoothMid := 0;
  smoothHighMid := 0;
  smoothHigh := 0;
  smoothBrilliance := 0;
  _envSubBass := 0;
  _envBass := 0;
  _envMid := 0;
  _envHigh := 0;
  _tMs := 0;
  transientSharpness := 0;
  harmonicRatio := 0
|}.

(** The lockout counted in calls: [k] calls of 1000/60 ms are left, or the
    lockout has expired ([k = 0]). *)
Definition lockout_left (m : MotionCoordinator) (k : nat) : Prop :=
  exists l : R, _beatLockout m = Fin l
    /\ match k with
       | O => (l <= 0)%R
       | S _ => l = (INR k * (1 / 60 * 1000))%R
       end.

(** The time stamp of the last onset of a channel: [_lastKickT],
    [_lastSnareT], [_lastHihatT] or [_lastOnsetT]. *)
Definition last_onset_of (c : channel) (s : AudioAnalyzer) : num :=
  match c with
  | Kick => _lastKickT s
  | Snare => _lastSnareT s
  | Hihat => _lastHihatT s
  | Global => _lastOnsetT s
  end.

(** A full-scale frame: 4096 bins (an FFT of size 8192) all at 255, no
    time-domain data, [dt = 0], and the default [smoothingAlpha]. *)
Definition loud_frame : frame :=
  {| freqData := repeat "255"%byte 4096;
     timeData := None;
     dt := 0;
     smoothingAlpha := None |}.

(** A fresh analyzer after one call, and after two calls, with the
    full-scale frame. *)
Definition after_first_loud : AudioAnalyzer := snd (analyze_frame new_AudioAnalyzer loud_frame).
Definition after_second_loud : AudioAnalyzer := snd (analyze_frame after_first_loud loud_frame).

(* ====================================================================== *)
(** ** Lines of the source in IEEE 754 doubles *)
(* ====================================================================== *)

(** Some lines of the source once more, this time on binary64 numbers with
    their rounding and overflow, where these decide a claim: the countdown
    of the lockout and the smoothing of the pulse (lines 49-71 of
    [update]), and the decay of an onset envelope (lines 211-214 of
    [analyze]). *)
Module Binary64.

Import Floats.
Local Open Scope float_scope.
#[local] Set Warnings "-inexact-float".

Definition Math_max (a b : float) : float :=
  if PrimFloat.is_nan a || PrimFloat.is_nan b then nan
  else if a <? b then b else a.

(** Whether the call runs the trigger branch, and [this._beatLockout] after
    line 65. *)
Definition lockout_step (beatLockout onsetKick dt smoothness : float) : bool * float :=
  let beatLockoutTime := 150 + smoothness * 200 in
  let trig := (0.4 <? onsetKick) && (beatLockout <=? 0) in
  let beatLockout1 := if trig then beatLockoutTime else beatLockout in
  (trig, Math_max 0 (beatLockout1 - dt * 1000)).

(** [n] calls with the same [onsetKick], [dt] and [smoothness]. *)
Fixpoint lockout_trace (n : nat) (beatLockout onsetKick dt smoothness : float)
  : list bool :=
  match n with
  | O => []
  | S n' =>
      let r := lockout_step beatLockout onsetKick dt smoothness in
      fst r :: lockout_trace n' (snd r) onsetKick dt smoothness
  end.

(** 60 calls from an expired lockout with [onsetKick = 1], [dt = 1/60] and
    [smoothness = 0]. *)
Definition one_second_at_60 : list bool := lockout_trace 60 0 1 (1 / 60) 0.

Definition Math_min (a b : float) : float :=
  if PrimFloat.is_nan a || PrimFloat.is_nan b then nan
  else if b <? a then b else a.

Definition clamp (v a b : float) : float := Math_min b (Math_max a v).
Definition lerp (a b t : float) : float := a + (b - a) * t.

(** The numbers lines 49-71 of [update] read and write: the lockout
    countdown, the raw pulse and its two smoothing stages ([pulse] is the
    second one). *)
Record pulse_state : Type := {
  beatLockout : float;
  pulseRaw : float;
  pulseSmooth1 : float;
  pulseSmooth2 : float
}.

(** Lines 49-71 of [update]. *)
Definition pulse_step (onsetKick dt smoothness : float) (st : pulse_state)
  : pulse_state :=
  let smoothFactor := 0.3 + smoothness * 0.7 in
  let lerpMed := dt * (4.0 - smoothFactor * 3.0) in
  let lerpFast := dt * (8.0 - smoothFactor * 5.0) in
  let beatLockoutTime := 150 + smoothness * 200 in
  let trig := (0.4 <? onsetKick) && (beatLockout st <=? 0) in
  let pulseRaw1 := if trig then clamp (onsetKick * 0.9) 0.5 1.0 else pulseRaw st in
  let beatLockout1 := if trig then beatLockoutTime else beatLockout st in
  let beatLockout' := Math_max 0 (beatLockout1 - dt * 1000) in
  let pulseDecayRate := 0.92 + smoothness * 0.06 in
  let pulseRaw' := pulseRaw1 * pulseDecayRate in
  let pulseSmooth1' := lerp (pulseSmooth1 st) pulseRaw' lerpFast in
  let pulseSmooth2' := lerp (pulseSmooth2 st) pulseSmooth1' lerpMed in
  {| beatLockout := beatLockout';
     pulseRaw := pulseRaw';
     pulseSmooth1 := pulseSmooth1';
     pulseSmooth2 := pulseSmooth2' |}.

(** [pulse] after [n] calls of [update] on a fresh coordinator, with
    [onsetKick = 1], [dt = 1] (one call per second) and [smoothness = 0]. *)
Definition pulse_at_one_call_per_second (n : nat) : float :=
  pulseSmooth2
    (Nat.iter n (pulse_step 1 1 0)
       {| beatLockout := 0; pulseRaw := 0; pulseSmooth1 := 0; pulseSmooth2 := 0 |}).

(** Lines 211-214 of [analyze]: the envelope of a channel after a call,
    given the strength [fired] its detector returned (0 when it did not
    fire) and the decay factor of the channel. *)
Definition onset_decay (fired onset factor : float) : float :=
  Math_max fired (onset * factor).

Definition zero : float := 0.

(** The decay factor of [onsetKick] (line 212). *)
Definition kick_factor : float := 0.78.

(** [onsetKick] after [n] calls in which the kick detector does not fire. *)
Definition quiet_kick (n : nat) (onsetKick : float) : float :=
  Nat.iter n (fun x => onset_decay zero x kick_factor) onsetKick.

(** [2^-1073], about 1e-323: twice the smallest positive double. *)
Definition tiny_onset : float := 0x1p-1073.

(** The upper bound of the strength [trigOnset] returns (line 200). *)
Definition strongest_onset : float := 1.5.

Definition is_positive (x : float) : bool := 0 <? x.

End Binary64.

(* ====================================================================== *)
(** ** A run in which beats fire *)
(* ====================================================================== *)

(** A frame of 4096 bins that all hold [level], with no time-domain data
    and the default [smoothingAlpha], [seconds] after the previous one. *)
Definition uniform_frame (level : byte) (seconds : R) : frame :=
  {| freqData := repeat level 4096;
     timeData := None;
     dt := Fin seconds;
     smoothingAlpha := None |}.

Definition silence : frame := uniform_frame "000"%byte 0.1.
Definition full_scale : frame := uniform_frame "255"%byte 0.1.

(** Two silent frames and a full-scale one, 100 ms apart. *)
Definition beat_cycle : list frame := [silence; silence; full_scale].

(** The bins of band [b] (the values of [i] in the inner loop of lines
    140-144) for the edges of the constructor, 48000 / 8192 Hz per bin and
    4096 bins. *)
Definition band_bins (b : nat) : list nat :=
  let edges := _computeLogBandEdges 64 20 20000 in
  let hzPerBin := Fin 48000 / Fin 8192 in
  for_range (Math_max 1 (Math_floor (get edges b / hzPerBin)))
            (Math_min (of_nat 4096 - 1) (Math_ceil (get edges (b + 1) / hzPerBin))).

(** The value of band [b] when every smoothed bin holds [c]: [c] if the
    band has a bin, and 0 otherwise. *)
Definition band_level (c : R) (b : nat) : R :=
  match band_bins b with
  | [] => 0%R
  | _ :: _ => c
  end.

(** An analyzer as constructed whose smoothed bins all hold [c] and whose
    previous band values are the band values of such bins. *)
Record uniform (s : AudioAnalyzer) (c : R) : Prop := {
  u_bands : bands s = 64%nat;
  u_edges : bandEdges s = _computeLogBandEdges 64 20 20000;
  u_rate : sampleRate s = Fin 48000;
  u_size : fftSize s = Fin 8192;
  u_fft : _fftSmooth s = Some (repeat (Fin c) 4096) \/ (_fftSmooth s = None /\ c = 0%R);
  u_prev : forall b, (b < 64)%nat -> get (prevBandValues s) b = Fin (band_level c b)
}.

(** The number of entries of a history that are 0. *)
Definition zeros (l : list num) : nat :=
  List.length (filter (fun x => x =? 0) l).

(** What the kick and beat detectors read of an analyzer [s]: uniform bins
    at [c], the clock at [t] ms, the last kick onset at [lk] ms and the last
    beat at [lb] ms, an open beat gate, and a kick history of [n]
    non-negative entries of which [z] are 0. *)
Record beat_state (s : AudioAnalyzer) (c t lk lb : R) (n z : nat) : Prop := {
  bs_uniform : uniform s c;
  bs_tMs : _tMs s = Fin t;
  bs_lastKick : _lastKickT s = Fin lk;
  bs_lastBeat : lastBeatTime s = Fin lb;
  bs_gate : beatGate s = Fin 0;
  bs_hist : Forall nonneg (_fluxKickHist s);
  bs_length : List.length (_fluxKickHist s) = n;
  bs_zeros : zeros (_fluxKickHist s) = z
}.

(** [k] beat cycles in a row. *)
Definition cycles (k : nat) : list frame := List.concat (repeat beat_cycle k).

(* ====================================================================== *)
(** ** js/utils.js: the remaining helpers *)
(* ====================================================================== *)

Definition Math_cos (a : num) : num :=
  match a with
  | Fin x => Fin (cos x)
  | _ => NaN
  end.

Definition Math_PI : num := Fin PI.

(** [TAU = Math.PI * 2] *)
Definition TAU : num := Math_PI * 2.

(** [fract = (x) => x - Math.floor(x)] *)
Definition fract (x : num) : num := x - Math_floor x.

(** The easing functions. *)
Definition easeOutQuad (t : num) : num := t * (2 - t).
Definition easeOutCubic (t : num) : num := 1 - Math_pow (1 - t) 3.
Definition easeOutExpo (t : num) : num :=
  if t =? 1 then 1 else 1 - Math_pow 2 (Fin (-10) * t).
Definition easeInOutSine (t : num) : num := - (Math_cos (Math_PI * t) - 1) / 2.

(** [foldTheta(theta, n)] *)
Definition foldTheta (theta n : num) : num :=
  let sector := TAU / Math_max 1 n in
  let a := rem (theta + Math_PI) sector in
  let a := if a <? 0 then a + sector else a in
  a * n.

(** A finite number between [lo] and [hi]. *)
Definition between (lo hi : R) (x : num) : Prop :=
  exists r : R, x = Fin r /\ (lo <= r <= hi)%R.

(* ====================================================================== *)
(** ** Ranges of the analyzer's state *)
(* ====================================================================== *)

(** The ranges the analyzer keeps its features in: smoothed bins, band
    values, band peaks and per-band onsets in [0, 1]; the four onset
    envelopes in [0, 1.5]; the clamped features in the range of their
    clamp; the RMS in [0, 1]; the flux histories not negative. *)
Record analyzer_ranges (s : AudioAnalyzer) : Prop := {
  rg_fftSmooth : forall l, _fftSmooth s = Some l -> Forall (between 0 1) l;
  rg_bandValues : Forall (between 0 1) (bandValues s);
  rg_bandPeaks : Forall (between 0 1) (bandPeaks s);
  rg_prevBandValues : Forall (between 0 1) (prevBandValues s);
  rg_onsetDecay : Forall (between 0 1) (onsetDecay s);
  rg_onsetKick : between 0 1.5 (onsetKick s);
  rg_onsetSnare : between 0 1.5 (onsetSnare s);
  rg_onsetHihat : between 0 1.5 (onsetHihat s);
  rg_onsetGlobal : between 0 1.5 (onsetGlobal s);
  rg_spectralFlux : between 0 2.5 (spectralFlux s);
  rg_transientSharpness : between 0 2 (transientSharpness s);
  rg_energy : between 0 1.5 (energy s);
  rg_harmonicRatio : between 0 1 (harmonicRatio s);
  rg_spectralCentroid : between 0 1 (spectralCentroid s);
  rg_rms : between 0 1 (rms s);
  rg_fluxHist : Forall nonneg (_fluxHist s);
  rg_fluxKickHist : Forall nonneg (_fluxKickHist s);
  rg_fluxSnareHist : Forall nonneg (_fluxSnareHist s);
  rg_fluxHihatHist : Forall nonneg (_fluxHihatHist s)
}.

(** The band values a call computes (line 146). *)
Definition call_bandValues (s : AudioAnalyzer) (fr : frame) : list num :=
  analyze_bandValues s (freqData fr)
    match smoothingAlpha fr with Some a => a | None => Fin 0.18 end.

(** No band value of the call is above the value of the previous call. *)
Definition no_band_rises (s : AudioAnalyzer) (fr : frame) : Prop :=
  forall b : nat, (b < bands s)%nat ->
    exists v p : R,
      get (call_bandValues s fr) b = Fin v /\ get (prevBandValues s) b = Fin p
      /\ (v <= p)%R.

(** A frame whose [dt] is a finite number that is not negative, as the
    animation loop passes it. *)
Definition forward_frame (fr : frame) : Prop :=
  wf_frame fr /\ exists d : R, dt fr = Fin d /\ (0 <= d)%R.

(** The analyzers reachable with such frames. *)
Definition reachable_forward : AudioAnalyzer -> Prop := reachable_by forward_frame.

(** The envelope followers stay in [0, 1]. *)
Record analyzer_envelopes (s : AudioAnalyzer) : Prop := {
  ev_rmsSmooth : between 0 1 (rmsSmooth s);
  ev_rmsPeak : between 0 1 (rmsPeak s);
  ev_smoothSubBass : between 0 1 (smoothSubBass s);
  ev_smoothBass : between 0 1 (smoothBass s);
  ev_smoothLowMid : between 0 1 (smoothLowMid s);
  ev_smoothMid : between 0 1 (smoothMid s);
  ev_smoothHighMid : between 0 1 (smoothHighMid s);
  ev_smoothHigh : between 0 1 (smoothHigh s);
  ev_smoothBrilliance : between 0 1 (smoothBrilliance s);
  ev_energy : between 0 1 (energy s)
}.

(** The clock and the beat gate: the clock is not before the last beat, and
    the gate has closed again 100 ms after it. *)
Record analyzer_timing (s : AudioAnalyzer) : Prop := {
  tm_state : exists t lb g : R,
      _tMs s = Fin t /\ lastBeatTime s = Fin lb /\ beatGate s = Fin g
      /\ (0 <= lb <= t)%R /\ (0 <= g <= Rmax 0 (100 - (t - lb)))%R
}.

(* ====================================================================== *)
(** ** Ranges of the motion coordinator *)
(* ====================================================================== *)

(** The coordinators the animation loop can hold: built by the constructor,
    then updated with analyzers driven with [dt >= 0], a [dt] from 0 to
    0.05 s and a [smoothness] from 0 to 1 (0.7 when it is omitted). *)
Inductive motion_driven : MotionCoordinator -> Prop :=
| driven_new : motion_driven new_MotionCoordinator
| driven_update : forall m perf_now audio (d : R) smoothness,
    motion_driven m -> reachable_forward audio -> (0 <= d <= 0.05)%R ->
    between 0 1 (match smoothness with Some x => x | None => Fin 0.7 end) ->
    motion_driven (update m perf_now audio (Fin d) smoothness).

(** The ranges the coordinator keeps its outputs and its accumulators in. *)
Record motion_ranges (m : MotionCoordinator) : Prop := {
  mr_pulse : between 0 1 (pulse m);
  mr_impact : between 0 1.2 (impact m);
  mr_swell : between 0 1 (swell m);
  mr_breathe : between 0 0.7 (breathe m);
  mr_lowMotion : between 0 1 (lowMotion m);
  mr_midMotion : between 0 1 (midMotion m);
  mr_highMotion : between 0 1 (highMotion m);
  mr_scaleSuggestion : between 1 1.362 (scaleSuggestion m);
  mr_zoomSuggestion : between (-0.12) 0.028 (zoomSuggestion m);
  mr_pulseRaw : between 0 1 (_pulseRaw m);
  mr_impactRaw : between 0 1.2 (_impactRaw m);
  mr_swellRaw : between 0 1 (_swellRaw m);
  mr_lowRaw : between 0 1 (_lowRaw m);
  mr_midRaw : between 0 1 (_midRaw m);
  mr_highRaw : between 0 1 (_highRaw m);
  mr_pulseSmooth1 : between 0 1 (_pulseSmooth1 m);
  mr_pulseSmooth2 : between 0 1 (_pulseSmooth2 m);
  mr_swellSmooth1 : between 0 1 (_swellSmooth1 m);
  mr_swellSmooth2 : between 0 1 (_swellSmooth2 m);
  mr_beatLockout : between 0 350 (_beatLockout m);
  mr_breathePhase : nonneg (_breathePhase m)
}.

(* ====================================================================== *)
(** ** main.js: the frame time and the music clock *)
(* ====================================================================== *)

(** Lines 440-441 of [animate]: the [dt] of a frame, from the time stamp of
    the previous frame ([0] before the first one) and of this one. *)
Definition frame_dt (lastFrameTime timestamp : num) : num :=
  let rawDt := if truthy lastFrameTime
               then (timestamp - lastFrameTime) / 1000 else Fin 0.016 in
  Math_min rawDt 0.05.

Module Music.

(** The object [music]. *)
Record t : Type := mk {
  beats : num;
  phase : num;
  bpmSmooth : num;
  lastSeenBar : Z
}.

(** Its initial value. *)
Definition init : t :=
  {| beats := 0; phase := 0; bpmSmooth := 120; lastSeenBar := (-1)%Z |}.

End Music.

(** [updateMusicClock(dt)], on the objects [music] and [audio]. *)
Definition updateMusicClock (music : Music.t) (audio : AudioAnalyzer) (dt : num)
  : Music.t :=
  let bpm := or_else (getBPM audio) 120 in
  let bpmSmooth' := lerp (Music.bpmSmooth music) bpm 0.08 in
  let beats' := Music.beats music + dt * (clamp bpmSmooth' 50 220 / 60) in
  {| Music.beats := beats';
     Music.phase := beats' * TAU;
     Music.bpmSmooth := bpmSmooth';
     Music.lastSeenBar := Music.lastSeenBar music |}.

(* ====================================================================== *)
(** ** js/geometryBuilders.js *)
(* ====================================================================== *)

(** A point [{x, y, z}] returned by a surface function. *)
Record point : Type := { px : num; py : num; pz : num }.

(** The arrays [createParametricGeometry] hands to the buffer geometry:
    the flat vertex coordinates and the triangle indices. *)
Record parametric_geometry : Type := {
  vertices : list num;
  indices : list nat
}.

(** [for (let i = 0; i <= n; i++)] and [for (let i = 0; i < n; i++)] *)
Definition upto (n : nat) : list nat := seq 0 (n + 1).
Definition below (n : nat) : list nat := seq 0 n.

(** [createParametricGeometry(func, slices, stacks, scale)], for loop
    bounds that are non-negative integers; [scale] is [None] when the
    argument is omitted. *)
Definition createParametricGeometry (func : num -> num -> point) (slices stacks : nat)
    (scale : option num) : parametric_geometry :=
  let scale := match scale with Some x => x | None => Fin 8 end in
  {| vertices :=
       flat_map (fun i =>
         let v := of_nat i / of_nat stacks in
         flat_map (fun j =>
           let u := of_nat j / of_nat slices in
           let p := func u v in
           [px p * scale; py p * scale; pz p * scale])
         (upto slices))
       (upto stacks);
     indices :=
       flat_map (fun i =>
         flat_map (fun j =>
           let a := (i * (slices + 1) + j)%nat in
           let b := (a + slices + 1)%nat in
           [a; b; (a + 1)%nat; b; (b + 1)%nat; (a + 1)%nat])
         (below slices))
       (below stacks) |}.

(** The triangles of an index array, three indices at a time. *)
Fixpoint triangles (l : list nat) : list (nat * nat * nat) :=
  match l with
  | a :: b :: c :: rest => (a, b, c) :: triangles rest
  | _ => []
  end.

(* ====================================================================== *)
(** ** js/sceneObjects.js and main.js: the shockwave pool *)
(* ====================================================================== *)

Section Shockwaves.

(** The type of a colour ([THREE.Color]). *)
Variable color : Type.

(** One entry of the pool, with what the code reads and writes of its
    mesh: the uniform scale, the position, the visibility and the two
    uniforms of its material. *)
Record shockwave : Type := {
  sw_life : num;
  sw_active : bool;
  sw_strength : num;
  sw_scale : num;
  sw_position : num * num * num;
  sw_visible : bool;
  sw_opacity : num;
  sw_color : color
}.

(** [buildShockwaves(scene, config)]: the pool it returns, for the value
    of [config.showShockwaves]; [white] is [new THREE.Color(1, 1, 1)]. *)
Definition buildShockwaves (white : color) (showShockwaves : bool) : list shockwave :=
  if negb showShockwaves then []
  else
    repeat {| sw_life := 0; sw_active := false; sw_strength := 1.0;
              sw_scale := 1; sw_position := (Fin 0, Fin 0, Fin 0);
              sw_visible := showShockwaves; sw_opacity := 0; sw_color := white |}
           12.

(** The index [shockwaves.find(x => !x.active)] stops at, if any. *)
Fixpoint first_inactive (l : list shockwave) : option nat :=
  match l with
  | [] => None
  | s :: rest =>
      if negb (sw_active s) then Some 0%nat
      else option_map S (first_inactive rest)
  end.

(** The entry [spawnShockwave] reuses: the first inactive one, or entry 0. *)
Definition spawn_slot (l : list shockwave) : nat :=
  match first_inactive l with Some i => i | None => 0%nat end.

(** What [spawnShockwave] writes into the entry it reuses. *)
Definition respawn (shockwaveIntensity : num) (c : color) (strength : num) (s : shockwave)
  : shockwave :=
  let strength' := clamp strength 0.15 1.25 in
  {| sw_life := 1.0;
     sw_active := true;
     sw_strength := strength';
     sw_scale := 1.0;
     sw_position := (Fin 0, Fin 0, Fin 0);
     sw_visible := sw_visible s;
     sw_opacity := shockwaveIntensity * strength';
     sw_color := c |}.

Fixpoint update_at (l : list shockwave) (i : nat) (f : shockwave -> shockwave)
  : list shockwave :=
  match l, i with
  | [], _ => []
  | s :: rest, O => f s :: rest
  | s :: rest, S j => s :: update_at rest j f
  end.

(** [spawnShockwave(shockwaves, config, color, strength)]: the pool after
    the call; [strength] is [None] when the argument is omitted. *)
Definition spawnShockwave (shockwaves : list shockwave) (showShockwaves : bool)
    (shockwaveIntensity : num) (c : color) (strength : option num) : list shockwave :=
  let strength := match strength with Some x => x | None => Fin 1.0 end in
  if negb showShockwaves || Nat.eqb (List.length shockwaves) 0 then shockwaves
  else update_at shockwaves (spawn_slot shockwaves)
                 (respawn shockwaveIntensity c strength).

(** Lines 811-823 of [animate], for one entry of the pool.  (The copy of
    the camera's quaternion is left out.) *)
Definition age_shockwave (dt shockwaveIntensity : num) (s : shockwave) : shockwave :=
  if negb (sw_active s) then s
  else
    let life := sw_life s - dt * 1.8 in
    if life <=? 0 then
      {| sw_life := life; sw_active := false; sw_strength := sw_strength s;
         sw_scale := sw_scale s; sw_position := sw_position s;
         sw_visible := sw_visible s; sw_opacity := 0; sw_color := sw_color s |}
    else
      {| sw_life := life; sw_active := true; sw_strength := sw_strength s;
         sw_scale := sw_scale s + dt * 22; sw_position := sw_position s;
         sw_visible := sw_visible s;
         sw_opacity := life * shockwaveIntensity * or_else (sw_strength s) 1.0;
         sw_color := sw_color s |}.

(** The loop over the pool, and the pool after a sequence of frames. *)
Definition age_shockwaves (dt shockwaveIntensity : num) (l : list shockwave)
  : list shockwave :=
  map (age_shockwave dt shockwaveIntensity) l.

Definition age_frames (shockwaveIntensity : num) (dts : list num) (l : list shockwave)
  : list shockwave :=
  fold_left (fun l dt => age_shockwaves dt shockwaveIntensity l) dts l.

(** The number of active entries. *)
Definition active_count (l : list shockwave) : nat :=
  List.length (filter sw_active l).

End Shockwaves.

Arguments first_inactive {color} l.
Arguments spawn_slot {color} l.
Arguments update_at {color} l i f.
Arguments active_count {color} l.

(** A pool entry is settled when, if active, its life lies in (0, 1], and,
    if inactive, its opacity is 0. *)
Definition settled {color : Type} (s : shockwave color) : Prop :=
  (sw_active s = true -> exists l : R, sw_life s = Fin l /\ (0 < l <= 1)%R)
  /\ (sw_active s = false -> sw_opacity s = Fin 0).

(* ====================================================================== *)
(** ** js/colorHelpers.js *)
(* ====================================================================== *)

(** An [{h, s, l}] triple. *)
Record hsl : Type := { hue : num; sat : num; lum : num }.

(** [Math.max(...values)]: [-Infinity] for no argument. *)
Definition Math_max_of (values : list num) : num := fold_left Math_max values NInf.

(** [getHarmonizedColor(energy, bandMix01, config, palette, audio, music)]:
    the triple it passes to [setHSL].  [hsl1] and [hsl2] are what [getHSL]
    returned for [config.colorPrimary] and [config.colorSecondary];
    [colorReactivity], [colorCycle] and [synesthesia] are the fields of
    [config] it reads, [hOffset] and [globalHueShift] those of [palette],
    [musicPhase] is [music.phase]. *)
Definition getHarmonizedColor (energy' bandMix01 : num) (hsl1 hsl2 : hsl)
    (colorReactivity : num) (colorCycle synesthesia : bool)
    (hOffset globalHueShift : num) (audio : AudioAnalyzer) (musicPhase : num) : hsl :=
  let rawMix := bandMix01 * colorReactivity + energy' * colorReactivity * 0.4 in
  let mixAmt := clamp (easeInOutSine rawMix) 0 1 in
  let h := lerp (hue hsl1) (hue hsl2) mixAmt + hOffset + globalHueShift in
  let h :=
    if colorCycle
    then h + 0.018 * Math_sin (musicPhase * 0.06)
           + 0.008 * Math_sin (musicPhase * 0.15 + Math_PI / 3)
    else h in
  let h :=
    if synesthesia && isFinite (rootNote audio) then
      let chromaMax := Math_max_of (chroma audio) in
      if chromaMax >? 0.1 then
        let noteHue := rootNote audio / 12 in
        lerp h noteHue (0.35 * (chromaMax / (chromaMax + 0.5)))
      else h
    else h in
  let h := fract h in
  let baseSat := lerp (sat hsl1) (sat hsl2) mixAmt in
  let satBoost := transientSharpness audio * 0.15 + smoothHighMid audio * 0.1 in
  let s := clamp (baseSat * (0.75 + 0.50 * smoothHigh audio + satBoost)) 0.1 0.98 in
  let baseLum := lerp (lum hsl1) (lum hsl2) mixAmt in
  let lumBoost := onsetKick audio * 0.15 + spectralFlux audio * 0.08 in
  let l := clamp (baseLum * (0.50 + 0.70 * energy' + lumBoost)) 0.08 0.88 in
  {| hue := h; sat := s; lum := l |}.

(** A bound far above the subnormal doubles (the normal ones start at
    2.2e-308): a number above it is strictly decreased when it is
    multiplied by one of the decay factors, also after rounding. *)
Definition normal_floor : R := / 10 ^ 300.

(** An analyzer whose public fields [bpmSmooth] and [beatInterval] have
    been assigned from outside ([audio.bpmSmooth = ...;
    audio.beatInterval = ...]). *)
Definition with_tempo (s : AudioAnalyzer) (bpmSmooth' beatInterval' : num) : AudioAnalyzer :=
  {| bands := bands s;
     bandValues := bandValues s;
     bandPeaks := bandPeaks s;
     bandEdges := bandEdges s;
     prevBandValues := prevBandValues s;
     onsetDecay := onsetDecay s;
     _fftSmooth := _fftSmooth s;
     beatInterval := beatInterval';
     lastBeatTime := lastBeatTime s;
     beatGate := beatGate s;
     bpmSmooth := bpmSmooth';
     beatCount := beatCount s;
     barCount := barCount s;
     spectralCentroid := spectralCentroid s;
     spectralFlux := spectralFlux s;
     energy := energy s;
     spectralSpread := spectralSpread s;
     spectralRolloff := spectralRolloff s;
     spectralFlatness := spectralFlatness s;
     onsetKick := onsetKick s;
     onsetSnare := onsetSnare s;
     onsetHihat := onsetHihat s;
     onsetGlobal := onsetGlobal s;
     _fluxHist := _fluxHist s;
     _fluxKickHist := _fluxKickHist s;
     _fluxSnareHist := _fluxSnareHist s;
     _fluxHihatHist := _fluxHihatHist s;
     _lastOnsetT := _lastOnsetT s;
     _lastKickT := _lastKickT s;
     _lastSnareT := _lastSnareT s;
     _lastHihatT := _lastHihatT s;
     rms := rms s;
     rmsSmooth := rmsSmooth s;
     rmsPeak := rmsPeak s;
     sampleRate := sampleRate s;
     fftSize := fftSize s;
     rootNote := rootNote s;
     noteName := noteName s;
     chroma := chroma s;
     _noteBins := _noteBins s;
     smoothSubBass := smoothSubBass s;
     smoothBass := smoothBass s;
     smoothLowMid := smoothLowMid s;
     smoothMid := smoothMid s;
     smoothHighMid := smoothHighMid s;
     smoothHigh := smoothHigh s;
     smoothBrilliance := smoothBrilliance s;
     _envSubBass := _envSubBass s;
     _envBass := _envBass s;
     _envMid := _envMid s;
     _envHigh := _envHigh s;
     _tMs := _tMs s;
     transientSharpness := transientSharpness s;
     harmonicRatio := harmonicRatio s |}.

(** A frame whose [smoothingAlpha], when it is given, is a number. *)
Definition alpha_frame (fr : frame) : Prop :=
  forall a, smoothingAlpha fr = Some a -> isNaN a = false.

(** The analyzers reachable with such frames, whatever their [dt]. *)
Definition reachable_alpha : AudioAnalyzer -> Prop := reachable_by alpha_frame.

(** The numbers the band loop reads: smoothed bins and band peaks in
    [0, 1], one peak per band. *)
Record spectrum_ok (s : AudioAnalyzer) : Prop := {
  sp_bands : bands s = 64%nat;
  sp_fftSmooth : forall l, _fftSmooth s = Some l -> Forall (between 0 1) l;
  sp_bandPeaks : Forall (between 0 1) (bandPeaks s);
  sp_bandPeaks_len : List.length (bandPeaks s) = 64%nat
}.

(** A full-scale frame of 4096 bins passed with [smoothingAlpha = NaN]. *)
Definition NaN_alpha_frame : frame :=
  {| freqData := repeat "255"%byte 4096;
     timeData := None;
     dt := Fin 0.016;
     smoothingAlpha := Some NaN |}.

(** A number of magnitude at most [10^6]: far from the overflow of the
    doubles, and small enough for its fractional part to be kept. *)
Definition moderate (x : num) : Prop := between (-1000000) 1000000 x.
(* ====================================================================== *)
(** ** Lemmas on numbers *)
(* ====================================================================== *)

Lemma Rltb_true (x y : R) : Rltb x y = true <-> (x < y)%R.
Proof. unfold Rltb; destruct (Rlt_dec x y); split; auto; discriminate. Qed.

Lemma Rltb_false (x y : R) : Rltb x y = false <-> (y <= x)%R.
Proof.
  unfold Rltb; destruct (Rlt_dec x y); split; intros; try discriminate; try lra; auto.
Qed.

Lemma Rleb_true (x y : R) : Rleb x y = true <-> (x <= y)%R.
Proof. unfold Rleb; destruct (Rle_dec x y); split; auto; discriminate. Qed.

Lemma Rleb_false (x y : R) : Rleb x y = false <-> (y < x)%R.
Proof.
  unfold Rleb; destruct (Rle_dec x y); split; intros; try discriminate; try lra; auto.
Qed.

Lemma Reqb_true (x y : R) : Reqb x y = true <-> x = y.
Proof. unfold Reqb; destruct (Req_dec_T x y); split; auto; discriminate. Qed.

Lemma Reqb_false (x y : R) : Reqb x y = false <-> x <> y.
Proof.
  unfold Reqb; destruct (Req_dec_T x y); split; intros; try discriminate; auto.
  contradiction.
Qed.

(** Decide the comparisons of real numbers that occur in the goal and in
    the hypotheses, closing the impossible cases by linear arithmetic. *)
Ltac rdec :=
  unfold Rltb, Rleb, Reqb in *;
  repeat match goal with
    | |- context [Rlt_dec ?a ?b] => destruct (Rlt_dec a b)
    | |- context [Rle_dec ?a ?b] => destruct (Rle_dec a b)
    | |- context [Req_dec_T ?a ?b] => destruct (Req_dec_T a b)
    | H : context [Rlt_dec ?a ?b] |- _ => destruct (Rlt_dec a b)
    | H : context [Rle_dec ?a ?b] |- _ => destruct (Rle_dec a b)
    | H : context [Req_dec_T ?a ?b] |- _ => destruct (Req_dec_T a b)
    end;
  try discriminate; try lra; try reflexivity; auto.

(** Unfold the operations of [num] down to real arithmetic. *)
Ltac num_unfold :=
  unfold clamp, lerp, Math_max, Math_min, gtb, geb, sub in *;
  cbn [add opp mul ltb leb eqb isNaN isFinite orb andb negb fst snd] in *.

Lemma ltb_Fin (x y : R) : (Fin x <? Fin y) = true <-> (x < y)%R.
Proof. apply Rltb_true. Qed.

Lemma leb_Fin (x y : R) : (Fin x <=? Fin y) = true <-> (x <= y)%R.
Proof. apply Rleb_true. Qed.

Lemma ltb_leb_false (a b : num) : (a <=? b) = true -> (b <? a) = false.
Proof. destruct a, b; cbn; auto; intros; rdec. Qed.

Lemma Math_max_Fin (x y : R) : Math_max (Fin x) (Fin y) = Fin (Rmax x y).
Proof.
  unfold Math_max, Rmax; cbn; rdec; f_equal; lra.
Qed.

Lemma Math_min_Fin (x y : R) : Math_min (Fin x) (Fin y) = Fin (Rmin x y).
Proof.
  unfold Math_min, Rmin; cbn; rdec; f_equal; lra.
Qed.

Lemma clamp_Fin (v a b : R) : clamp (Fin v) (Fin a) (Fin b) = Fin (Rmin b (Rmax a v)).
Proof. unfold clamp. now rewrite Math_max_Fin, Math_min_Fin. Qed.

Lemma lerp_Fin (a b t : R) : lerp (Fin a) (Fin b) (Fin t) = Fin (a + (b - a) * t).
Proof. unfold lerp, sub; cbn. f_equal; lra. Qed.

Lemma div_Fin (x y : R) : y <> 0%R -> Fin x / Fin y = Fin (x / y).
Proof. intros; cbn; rdec. Qed.

(* ====================================================================== *)
(** ** [getSmoothed] *)
(* ====================================================================== *)

(** C10: [getSmoothed(value, extraSmooth)] keeps no state and smooths
    nothing: it returns exactly [value * (1 - extraSmooth * 0.5)] (with
    [extraSmooth = 0.5] when the argument is omitted), whatever the
    coordinator holds, and the coordinator after the call is the
    coordinator before it, field for field. *)
Theorem getSmoothed_pure :
  forall (m : MotionCoordinator) (value extraSmooth : num),
    fst (getSmoothed m value (Some extraSmooth)) = value * (1.0 - extraSmooth * 0.5)
    /\ fst (getSmoothed m value None) = value * (1.0 - 0.5 * 0.5)
    /\ (forall e, snd (getSmoothed m value e) = m)
    /\ (forall m' e, fst (getSmoothed m' value e) = fst (getSmoothed m value e)).
Proof.
  intros m value extraSmooth; repeat split.
Qed.

(* ====================================================================== *)
(** ** The flux accumulators *)
(* ====================================================================== *)

(** C1 (what the code does): a band whose centre frequency lies in
    150-400 Hz adds half its squared rectified delta to the kick sum and
    nothing to the snare sum, also in the 200-400 Hz part that the snare
    test [hz >= 200 && hz < 2000] names: the [else if] chain never reaches
    that test for such a band. *)
Theorem flux_add_150_400_kick_only :
  forall (hz : R) (rectified : num) (acc : flux_sums),
    (150 <= hz)%R -> (hz < 400)%R ->
    flux_add (Fin hz) rectified acc =
      {| flux := flux acc + rectified;
         fluxKick := fluxKick acc + rectified * 0.5;
         fluxSnare := fluxSnare acc;
         fluxHihat := fluxHihat acc |}.
Proof.
  intros hz rectified acc Hlo Hhi. unfold flux_add, geb.
  assert (H1 : (Fin hz <? 150) = false) by (apply Rltb_false; lra).
  assert (H2 : (150 <=? Fin hz) = true) by (apply Rleb_true; lra).
  assert (H3 : (Fin hz <? 400) = true) by (apply Rltb_true; lra).
  now rewrite H1, H2, H3.
Qed.

Lemma flux_add_150_400_kick_only_witness :
  flux_add (Fin 300) 1 flux_zero =
    {| flux := 0 + 1; fluxKick := 0 + 1 * 0.5; fluxSnare := 0; fluxHihat := 0 |}.
Proof.
  apply (@flux_add_150_400_kick_only 300 1 flux_zero); lra.
Defined.

(* ====================================================================== *)
(** ** Onset envelopes *)
(* ====================================================================== *)

Lemma onset_of_analyze (c : channel) (s : AudioAnalyzer) (fr : frame) :
  onset_of c (snd (analyze_frame s fr)) =
    Math_max (call_onset c s fr) (onset_of c s * Fin (decay_factor c)).
Proof. destruct c; reflexivity. Qed.

Lemma onset_quiet_step (c : channel) (s : AudioAnalyzer) (fr : frame) (x : R) :
  onset_of c s = Fin x -> (0 < x)%R -> call_onset c s fr = Fin 0 ->
  onset_of c (snd (analyze_frame s fr)) = Fin (x * decay_factor c).
Proof.
  intros Hx Hpos Hq. rewrite onset_of_analyze, Hq, Hx. cbn [mul].
  rewrite Math_max_Fin. f_equal. apply Rmax_right.
  destruct c; cbn; lra.
Qed.

Lemma normal_floor_pos : (0 < normal_floor)%R.
Proof. unfold normal_floor. apply Rinv_0_lt_compat, pow_lt. lra. Qed.

Lemma decay_factor_range (c : channel) : (0.78 <= decay_factor c <= 0.90)%R.
Proof. destruct c; cbn; lra. Qed.

Lemma onset_quiet_run (c : channel) (frames : list frame) :
  forall (s : AudioAnalyzer) (x : R),
    onset_of c s = Fin x -> (0 < x)%R -> quiet c s frames ->
    onset_of c (run s frames) = Fin (x * decay_factor c ^ List.length frames).
Proof.
  induction frames as [|fr rest IH]; intros s x Hx Hpos Hq.
  - cbn. rewrite Hx. f_equal. lra.
  - destruct Hq as [Hq Hrest]. cbn [run fold_left List.length].
    change (fold_left _ rest ?a) with (run a rest).
    rewrite (IH _ (x * decay_factor c)%R).
    + f_equal. cbn [pow]. lra.
    + now apply onset_quiet_step.
    + pose proof (decay_factor_range c). nra.
    + exact Hrest.
Qed.

(** C7 (as stated, refuted): in doubles a positive envelope is not always
    strictly smaller after a call in which its channel does not fire.
    [onsetKick = 2^-1073] (about 1e-323) is positive, and
    [Math.max(0, onsetKick * 0.78)] is [2^-1073] again: the product rounds
    back to the same subnormal number.  The kick envelope reaches this
    value from the strongest onset, 1.5, after 3000 calls without a kick,
    and stays there. *)
Lemma onset_decay_stalls_in_doubles :
  Binary64.is_positive Binary64.tiny_onset = true
  /\ Binary64.onset_decay Binary64.zero Binary64.tiny_onset Binary64.kick_factor
     = Binary64.tiny_onset
  /\ PrimFloat.ltb
       (Binary64.onset_decay Binary64.zero Binary64.tiny_onset Binary64.kick_factor)
       Binary64.tiny_onset = false
  /\ Binary64.quiet_kick 3000 Binary64.strongest_onset = Binary64.tiny_onset
  /\ Binary64.quiet_kick 3001 Binary64.strongest_onset
     = Binary64.quiet_kick 3000 Binary64.strongest_onset.
Proof. repeat split; vm_compute; reflexivity. Qed.


(* ====================================================================== *)
(** ** Finite numbers *)
(* ====================================================================== *)

Create HintDb fin discriminated.

Lemma finite_Fin (r : R) : finite (Fin r).
Proof. reflexivity. Qed.

Lemma finite_inv (x : num) : finite x -> exists r, x = Fin r.
Proof. destruct x; try discriminate; eauto. Qed.

Lemma nonneg_finite (x : num) : nonneg x -> finite x.
Proof. intros (r & -> & _); reflexivity. Qed.

Lemma finite_not_NaN (x : num) : finite x -> isNaN x = false.
Proof. destruct x; auto; discriminate. Qed.

(** Destruct every number known to be finite into its real value. *)
Ltac fin_cases :=
  repeat match goal with
    | H : finite ?x |- _ =>
        let r := fresh "r" in
        let E := fresh "E" in
        destruct (finite_inv H) as [r E]; rewrite E in *; clear H; try clear E
    end.

Lemma finite_add (a b : num) : finite a -> finite b -> finite (a + b).
Proof. intros; fin_cases; reflexivity. Qed.

Lemma finite_opp (a : num) : finite a -> finite (- a).
Proof. intros; fin_cases; reflexivity. Qed.

Lemma finite_sub (a b : num) : finite a -> finite b -> finite (a - b).
Proof. intros; fin_cases; reflexivity. Qed.

Lemma finite_mul (a b : num) : finite a -> finite b -> finite (a * b).
Proof. intros; fin_cases; reflexivity. Qed.

Lemma finite_div (a b : num) : finite a -> finite b -> b <> Fin 0 -> finite (a / b).
Proof.
  intros Ha Hb Hn; fin_cases. cbn. rdec. exfalso; apply Hn; now f_equal.
Qed.

Lemma finite_div_Fin (a : num) (y : R) : finite a -> y <> 0%R -> finite (a / Fin y).
Proof. intros; apply finite_div; auto using finite_Fin. congruence. Qed.

Lemma finite_max (a b : num) : finite a -> finite b -> finite (Math_max a b).
Proof. intros; fin_cases. now rewrite Math_max_Fin. Qed.

Lemma finite_min (a b : num) : finite a -> finite b -> finite (Math_min a b).
Proof. intros; fin_cases. now rewrite Math_min_Fin. Qed.

Lemma finite_lerp (a b t : num) : finite a -> finite b -> finite t -> finite (lerp a b t).
Proof. intros; fin_cases. now rewrite lerp_Fin. Qed.

(** [clamp] between finite bounds returns a finite number for every
    argument but [NaN]. *)
Lemma finite_clamp (v : num) (a b : R) : isNaN v = false -> finite (clamp v (Fin a) (Fin b)).
Proof.
  intros Hv. destruct v; try discriminate; unfold clamp, Math_max, Math_min; cbn.
  - rdec; cbn; rdec.
  - rdec.
  - rdec.
Qed.

Lemma finite_exp (a : num) : finite a -> finite (Math_exp a).
Proof. intros; fin_cases; reflexivity. Qed.

Lemma finite_sin (a : num) : finite a -> finite (Math_sin a).
Proof. intros; fin_cases; reflexivity. Qed.

Lemma finite_round (a : num) : finite a -> finite (Math_round a).
Proof. intros; fin_cases; reflexivity. Qed.

Lemma finite_floor (a : num) : finite a -> finite (Math_floor a).
Proof. intros; fin_cases; reflexivity. Qed.

Lemma finite_abs (a : num) : finite a -> finite (Math_abs a).
Proof. intros; fin_cases; reflexivity. Qed.

Lemma finite_sqrt (a : num) : nonneg a -> finite (Math_sqrt a).
Proof. intros (r & -> & Hr). cbn. rdec. Qed.

(** A positive base raised to a finite power. *)
Lemma finite_pow_pos (x : R) (e : num) : (0 < x)%R -> finite e -> finite (Math_pow (Fin x) e).
Proof. intros Hx He; fin_cases. cbn. rdec. Qed.

Lemma finite_of_nat (n : nat) : finite (of_nat n).
Proof. reflexivity. Qed.

#[export] Hint Resolve finite_Fin finite_add finite_opp finite_sub finite_mul
  finite_max finite_min finite_lerp finite_exp finite_sin finite_round
  finite_floor finite_abs finite_of_nat nonneg_finite finite_div_Fin : fin.

Lemma nonneg_Fin (r : R) : (0 <= r)%R -> nonneg (Fin r).
Proof. intros; exists r; auto. Qed.

Lemma nonneg_add (a b : num) : nonneg a -> nonneg b -> nonneg (a + b).
Proof. intros (x & -> & Hx) (y & -> & Hy). exists (x + y)%R. split; auto; lra. Qed.

Lemma nonneg_mul (a b : num) : nonneg a -> nonneg b -> nonneg (a * b).
Proof. intros (x & -> & Hx) (y & -> & Hy). exists (x * y)%R. split; auto; nra. Qed.

Lemma nonneg_square (a : num) : finite a -> nonneg (a * a).
Proof. intros; fin_cases. exists (r * r)%R. split; auto; nra. Qed.

Lemma nonneg_max_0 (a : num) : finite a -> nonneg (Math_max 0 a).
Proof.
  intros; fin_cases. rewrite Math_max_Fin. apply nonneg_Fin, Rmax_l.
Qed.

Lemma nonneg_sqrt (a : num) : nonneg a -> nonneg (Math_sqrt a).
Proof.
  intros (r & -> & Hr). cbn. rdec. apply nonneg_Fin, sqrt_pos.
Qed.

#[export] Hint Resolve nonneg_Fin nonneg_add nonneg_mul nonneg_square nonneg_max_0
  nonneg_sqrt : fin.

(** *** Arrays of finite numbers *)

Lemma get_finite (l : list num) (i : nat) :
  Forall finite l -> (i < List.length l)%nat -> finite (get l i).
Proof.
  intros Hl Hi. unfold get. rewrite Forall_forall in Hl. apply Hl, nth_In, Hi.
Qed.

Lemma tabulate_length (n : nat) (f : nat -> num) : List.length (tabulate n f) = n.
Proof. unfold tabulate. now rewrite length_map, length_seq. Qed.

Lemma get_tabulate (n : nat) (f : nat -> num) (i : nat) :
  (i < n)%nat -> get (tabulate n f) i = f i.
Proof.
  intros Hi. unfold get, tabulate.
  rewrite (nth_indep _ NaN (f 0%nat)) by (now rewrite length_map, length_seq).
  rewrite map_nth, seq_nth; auto.
Qed.

Lemma tabulate_Forall (P : num -> Prop) (n : nat) (f : nat -> num) :
  (forall i, (i < n)%nat -> P (f i)) -> Forall P (tabulate n f).
Proof.
  intros H. unfold tabulate. apply Forall_forall. intros x Hx.
  apply in_map_iff in Hx. destruct Hx as (i & <- & Hi).
  apply in_seq in Hi. apply H. lia.
Qed.

Lemma Float32Array_finite (n : nat) : Forall finite (Float32Array n).
Proof.
  unfold Float32Array. apply Forall_forall. intros x Hx.
  apply repeat_spec in Hx. subst. reflexivity.
Qed.

Lemma Float32Array_length (n : nat) : List.length (Float32Array n) = n.
Proof. apply repeat_length. Qed.

Lemma set_length (l : list num) (i : nat) (v : num) :
  List.length (set l i v) = List.length l.
Proof. revert i; induction l; intros [|i]; cbn; auto. Qed.

Lemma set_Forall (P : num -> Prop) (l : list num) (i : nat) (v : num) :
  Forall P l -> ((i < List.length l)%nat -> P v) -> Forall P (set l i v).
Proof.
  revert i; induction l as [|x l IH]; intros [|i] Hl Hv; cbn; auto.
  - inversion Hl; subst. constructor; auto. apply Hv. cbn; lia.
  - inversion Hl; subst. constructor; auto. apply IH; auto.
    intros; apply Hv. cbn; lia.
Qed.

(** *** The bins and the bands *)

Lemma byte_num_range (b : byte) : exists r : R, byte_num b = Fin r /\ (0 <= r <= 255)%R.
Proof.
  unfold byte_num, of_Z. eexists; split; [reflexivity|].
  pose proof (Byte.to_N_bounded b) as Hb.
  split.
  - apply IZR_le. lia.
  - apply IZR_le. lia.
Qed.

Lemma finite_pow_unit (x y : R) : (0 <= x)%R -> (0 < y)%R -> finite (Math_pow (Fin x) (Fin y)).
Proof. intros Hx Hy. cbn. rdec. Qed.

Lemma smooth_bin_finite (baseAlpha : num) (f : byte) (old : num) :
  finite baseAlpha -> finite old -> finite (smooth_bin baseAlpha f old).
Proof.
  intros Ha Ho. unfold smooth_bin.
  destruct (byte_num_range f) as (r & -> & Hr).
  rewrite div_Fin by lra.
  assert (Hl : finite (Math_pow (Fin (r / 255)) 1.2)).
  { apply finite_pow_unit; [|lra].
    apply Rmult_le_pos; lra. }
  destruct (_ >? _); auto with fin.
Qed.

Lemma ensureFftSmooth_length (fs : option (list num)) (n : nat) :
  List.length (_ensureFftSmooth fs n) = n.
Proof.
  unfold _ensureFftSmooth. destruct fs as [l|].
  - destruct (Nat.eqb_spec (List.length l) n); auto using Float32Array_length.
  - apply Float32Array_length.
Qed.

Lemma ensureFftSmooth_finite (fs : option (list num)) (n : nat) :
  (forall l, fs = Some l -> Forall finite l) ->
  Forall finite (_ensureFftSmooth fs n).
Proof.
  intros H. unfold _ensureFftSmooth. destruct fs as [l|].
  - destruct (Nat.eqb (List.length l) n); auto using Float32Array_finite.
  - apply Float32Array_finite.
Qed.

Lemma analyze_fft_length (s : AudioAnalyzer) (freqData : list byte) (alpha : num) :
  List.length (analyze_fft s freqData alpha) = List.length freqData.
Proof.
  unfold analyze_fft. rewrite length_map, length_combine, ensureFftSmooth_length.
  apply Nat.min_id.
Qed.

Lemma analyze_fft_finite (s : AudioAnalyzer) (freqData : list byte) (alpha : num) :
  (forall l, _fftSmooth s = Some l -> Forall finite l) ->
  isNaN alpha = false ->
  Forall finite (analyze_fft s freqData alpha).
Proof.
  intros Hf Ha. unfold analyze_fft.
  apply Forall_forall. intros x Hx. apply in_map_iff in Hx.
  destruct Hx as ([f old] & <- & Hin). cbn [fst snd].
  apply smooth_bin_finite.
  - now apply finite_clamp.
  - apply in_combine_r in Hin.
    pose proof (ensureFftSmooth_finite (List.length freqData) Hf) as HF.
    rewrite Forall_forall in HF. now apply HF.
Qed.

Lemma Int_part_nonneg (r : R) : (0 <= r)%R -> (0 <= Int_part r)%Z.
Proof.
  intros Hr. destruct (base_Int_part r) as [_ H].
  assert (H1 : (IZR (-1) < IZR (Int_part r))%R) by (cbn; lra).
  apply lt_IZR in H1. lia.
Qed.

Lemma Int_part_le (r : R) : (IZR (Int_part r) <= r)%R.
Proof. apply base_Int_part. Qed.

Lemma Int_part_IZR (z : Z) : Int_part (IZR z) = z.
Proof. symmetry. apply Int_part_spec. lra. Qed.

Lemma for_range_bound (a b : num) (i : nat) :
  In i (for_range a b) ->
  exists x y : R, a = Fin x /\ b = Fin y /\
    ((0 <= x)%R -> (INR i <= y)%R).
Proof.
  unfold for_range. destruct a as [x| | |], b as [y| | |]; try (intros []).
  destruct (Rleb x y) eqn:Hxy; [|intros []].
  apply Rleb_true in Hxy. intros Hi. exists x, y. repeat split; auto.
  intros Hx. apply in_seq in Hi.
  pose proof (Int_part_nonneg Hx) as Hp.
  assert (Hq : (0 <= Int_part (y - x))%Z) by (apply Int_part_nonneg; lra).
  pose proof (Int_part_le x) as Hpx. pose proof (Int_part_le (y - x)) as Hqx.
  assert (Hz : (Z.of_nat i <= Int_part x + Int_part (y - x))%Z) by lia.
  apply IZR_le in Hz. rewrite plus_IZR, <- INR_IZR_INZ in Hz. lra.
Qed.

Lemma Math_max_Fin_l (a : R) (c : num) (x : R) :
  Math_max (Fin a) c = Fin x -> (a <= x)%R.
Proof.
  unfold Math_max. destruct c; cbn; try discriminate.
  all: rdec; intros [= <-]; lra.
Qed.

Lemma Math_min_Fin_l (a : R) (c : num) (y : R) :
  Math_min (Fin a) c = Fin y -> (y <= a)%R.
Proof.
  unfold Math_min. destruct c; cbn; try discriminate.
  all: rdec; intros [= <-]; lra.
Qed.

Lemma bin_step_inv (fft : list num) (N : nat) (vw : num * num) (i : nat) :
  Forall finite fft -> List.length fft = N -> (i < N)%nat ->
  finite (fst vw) -> nonneg (snd vw) ->
  finite (fst (bin_step fft N vw i)) /\ nonneg (snd (bin_step fft N vw i)).
Proof.
  intros Hf Hlen Hi Hv Hw. unfold bin_step; cbn [fst snd].
  assert (HN : INR N <> 0%R) by (apply not_0_INR; lia).
  unfold of_nat. rewrite div_Fin by exact HN.
  assert (Hq : (0 <= INR i / INR N)%R).
  { apply Rmult_le_pos; [apply pos_INR|].
    left; apply Rinv_0_lt_compat. pose proof (pos_INR N); lra. }
  split.
  - apply finite_add; auto. apply finite_mul; [|reflexivity].
    apply get_finite; auto; lia.
  - apply nonneg_add; auto. cbn. apply nonneg_Fin. lra.
Qed.

Lemma band_value_finite (fft : list num) (hzPerBin lowHz highHz : num) :
  Forall finite fft -> finite (band_value fft hzPerBin lowHz highHz).
Proof.
  intros Hf. unfold band_value.
  set (N := List.length fft).
  set (startBin := Math_max 1 _). set (endBin := Math_min (of_nat N - 1) _).
  assert (Hinv : forall l vw,
             (forall i, In i l -> (i < N)%nat) ->
             finite (fst vw) -> nonneg (snd vw) ->
             finite (fst (fold_left (bin_step fft N) l vw))
             /\ nonneg (snd (fold_left (bin_step fft N) l vw))).
  { induction l as [|i l IH]; intros vw Hl Hv Hw; cbn [fold_left]; auto.
    destruct (@bin_step_inv fft N vw i) as [H1 H2]; auto.
    - apply Hl; now left.
    - apply IH; auto. intros j Hj; apply Hl; now right. }
  destruct (Hinv (for_range startBin endBin) (Fin 0, Fin 0)) as [Hv Hw].
  - intros i Hi. destruct (for_range_bound _ _ _ Hi) as (x & y & Ex & Ey & Hb).
    apply Math_max_Fin_l in Ex.
    unfold endBin, of_nat, sub in Ey. cbn [opp add] in Ey.
    apply Math_min_Fin_l in Ey.
    assert (Hiy : (INR i <= y)%R) by (apply Hb; lra).
    apply INR_lt. lra.
  - reflexivity.
  - apply nonneg_Fin; lra.
  - destruct Hw as (w & Ew & Hw). rewrite Ew. unfold gtb. cbn [ltb].
    destruct (Rltb 0 w) eqn:E; [|reflexivity].
    apply Rltb_true in E.
    apply finite_div; [exact Hv | reflexivity | intros [= ->]; lra].
Qed.

(** *** Band sums, flux and onsets *)

Lemma analyze_bandValues_length (s : AudioAnalyzer) (freqData : list byte) (alpha : num) :
  List.length (analyze_bandValues s freqData alpha) = bands s.
Proof. apply tabulate_length. Qed.

Lemma analyze_bandValues_finite (s : AudioAnalyzer) (freqData : list byte) (alpha : num) :
  (forall l, _fftSmooth s = Some l -> Forall finite l) ->
  isNaN alpha = false ->
  Forall finite (analyze_bandValues s freqData alpha).
Proof.
  intros Hf Ha. apply tabulate_Forall. intros b _.
  apply band_value_finite. now apply analyze_fft_finite.
Qed.

Lemma analyze_bandPeaks_finite (s : AudioAnalyzer) (vals : list num) :
  Forall finite (bandPeaks s) -> List.length (bandPeaks s) = bands s ->
  Forall finite vals -> List.length vals = bands s ->
  Forall finite (analyze_bandPeaks s vals).
Proof.
  intros Hp Hpl Hv Hvl. apply tabulate_Forall. intros b Hb.
  apply finite_max; [apply finite_mul; [|reflexivity]|]; apply get_finite; auto; lia.
Qed.

Lemma finite_log_pos (x : R) : (0 < x)%R -> finite (Math_log (Fin x)).
Proof. intros Hx. cbn. rdec. Qed.

Lemma band_sums_step_finite (nbands : nat) (vals : list num) (acc : band_sums) (b : nat) :
  Forall finite vals -> List.length vals = nbands -> (b < nbands)%nat ->
  finite_sums acc -> finite_sums (band_sums_step nbands vals acc b).
Proof.
  intros Hv Hl Hb [H1 H2 H3 H4 H5].
  assert (Hval : finite (get vals b)) by (apply get_finite; auto; lia).
  assert (HN : INR nbands <> 0%R) by (apply not_0_INR; lia).
  unfold band_sums_step. constructor; cbn [sumEnergy sumCentroid sumCentroidWeight geoMean arithmeticMean].
  - auto with fin.
  - apply finite_add; auto. apply finite_mul; auto.
    unfold of_nat. now rewrite div_Fin.
  - auto with fin.
  - apply finite_add; auto.
    destruct (finite_inv Hval) as [v ->]. unfold gtb. cbn [ltb add].
    destruct (Rltb 0.001 v) eqn:E.
    + apply Rltb_true in E. apply finite_log_pos. lra.
    + apply finite_log_pos. lra.
  - auto with fin.
Qed.

Lemma analyze_band_sums_finite (nbands : nat) (vals : list num) :
  Forall finite vals -> List.length vals = nbands ->
  finite_sums (analyze_band_sums nbands vals).
Proof.
  intros Hv Hl. unfold analyze_band_sums.
  assert (Hinv : forall l acc, (forall b, In b l -> (b < nbands)%nat) ->
             finite_sums acc ->
             finite_sums (fold_left (band_sums_step nbands vals) l acc)).
  { induction l as [|b l IH]; intros acc Hb Hacc; cbn [fold_left]; auto.
    apply IH; [intros; apply Hb; now right|].
    apply band_sums_step_finite; auto. apply Hb; now left. }
  apply Hinv.
  - intros b Hb. apply in_seq in Hb. lia.
  - constructor; reflexivity.
Qed.

Lemma flux_add_nonneg (hz rectified : num) (acc : flux_sums) :
  nonneg rectified -> nonneg_flux acc -> nonneg_flux (flux_add hz rectified acc).
Proof.
  intros Hr [H1 H2 H3 H4]. unfold flux_add.
  assert (nonneg (rectified * 2.0)) by (apply nonneg_mul; auto; apply nonneg_Fin; lra).
  assert (nonneg (rectified * 0.5)) by (apply nonneg_mul; auto; apply nonneg_Fin; lra).
  assert (nonneg (rectified * 1.5)) by (apply nonneg_mul; auto; apply nonneg_Fin; lra).
  repeat match goal with |- context [if ?c then _ else _] => destruct c end;
    constructor; cbn [flux fluxKick fluxSnare fluxHihat]; auto with fin.
Qed.

Lemma band_pos_nonneg (vals prev : list num) (b : nat) :
  finite (get vals b) -> finite (get prev b) -> nonneg (band_pos vals prev b).
Proof. intros; unfold band_pos; auto with fin. Qed.

Lemma flux_loop_nonneg (s : AudioAnalyzer) (vals : list num) :
  Forall finite vals -> List.length vals = bands s ->
  Forall finite (prevBandValues s) -> List.length (prevBandValues s) = bands s ->
  nonneg_flux (flux_loop s vals).
Proof.
  intros Hv Hvl Hp Hpl. unfold flux_loop.
  assert (Hinv : forall l acc, (forall b, In b l -> (b < bands s)%nat) ->
             nonneg_flux acc ->
             nonneg_flux (fold_left (flux_step (bandEdges s) vals (prevBandValues s)) l acc)).
  { induction l as [|b l IH]; intros acc Hb Hacc; cbn [fold_left]; auto.
    apply IH; [intros; apply Hb; now right|].
    assert (b < bands s)%nat by (apply Hb; now left).
    unfold flux_step. apply flux_add_nonneg; auto.
    assert (Hn : nonneg (band_pos vals (prevBandValues s) b))
      by (apply band_pos_nonneg; apply get_finite; auto; lia).
    apply nonneg_mul; auto. }
  apply Hinv.
  - intros b Hb. apply in_seq in Hb. lia.
  - constructor; apply nonneg_Fin; lra.
Qed.

Lemma flux_sqrt_nonneg (a : flux_sums) : nonneg_flux a -> nonneg_flux (flux_sqrt a).
Proof. intros [H1 H2 H3 H4]. constructor; cbn; auto with fin. Qed.

Lemma analyze_onsetDecay_finite (s : AudioAnalyzer) (vals : list num) :
  Forall finite vals -> List.length vals = bands s ->
  Forall finite (prevBandValues s) -> List.length (prevBandValues s) = bands s ->
  Forall finite (onsetDecay s) -> List.length (onsetDecay s) = bands s ->
  Forall finite (analyze_onsetDecay s vals).
Proof.
  intros Hv Hvl Hp Hpl Ho Hol. apply tabulate_Forall. intros b Hb.
  assert (Hn : nonneg (band_pos vals (prevBandValues s) b))
    by (apply band_pos_nonneg; apply get_finite; auto; lia).
  apply finite_max.
  - apply finite_mul; [|reflexivity]. apply get_finite; auto; lia.
  - apply finite_clamp. apply finite_not_NaN. auto with fin.
Qed.

Lemma pushHist_finite (arr : list num) (v : num) (maxLen : nat) :
  Forall finite arr -> finite v -> Forall finite (pushHist arr v maxLen).
Proof.
  intros Ha Hv. unfold pushHist.
  assert (H : Forall finite (arr ++ [v])) by (apply Forall_app; auto).
  destruct (Nat.ltb _ _); auto.
  destruct (arr ++ [v]); cbn; auto. now inversion H.
Qed.

(** *** The adaptive threshold *)

Lemma insert_sorted_Forall (P : num -> Prop) (x : num) (l : list num) :
  P x -> Forall P l -> Forall P (insert_sorted x l).
Proof.
  intros Hx. induction l as [|y l IH]; intros Hl; cbn.
  - auto.
  - inversion Hl; subst. destruct (x <=? y); auto.
Qed.

Lemma insert_sorted_length (x : num) (l : list num) :
  List.length (insert_sorted x l) = S (List.length l).
Proof.
  induction l as [|y l IH]; cbn; auto. destruct (x <=? y); cbn; auto.
Qed.

Lemma sort_ascending_Forall (P : num -> Prop) (l : list num) :
  Forall P l -> Forall P (sort_ascending l).
Proof.
  induction 1; cbn; auto. now apply insert_sorted_Forall.
Qed.

Lemma sort_ascending_length (l : list num) :
  List.length (sort_ascending l) = List.length l.
Proof.
  induction l; cbn; auto. rewrite insert_sorted_length. now f_equal.
Qed.

Lemma get_at_finite (a : list num) (z : Z) :
  Forall finite a -> (0 <= z < Z.of_nat (List.length a))%Z ->
  finite (get_at a (Fin (IZR z))).
Proof.
  intros Ha Hz. unfold get_at, to_index, is_integer.
  rewrite Int_part_IZR.
  assert (E1 : Reqb (IZR z) (IZR z) = true) by now apply Reqb_true.
  assert (E2 : Rleb 0 (IZR z) = true) by (apply Rleb_true, IZR_le; lia).
  rewrite E1, E2. cbn [andb]. apply get_finite; auto. lia.
Qed.

Lemma median_finite (arr : list num) : Forall finite arr -> finite (_median arr).
Proof.
  intros Ha. unfold _median.
  destruct (Nat.eqb_spec (List.length arr) 0) as [|Hn]; [reflexivity|].
  set (a := sort_ascending arr).
  assert (Hfa : Forall finite a) by now apply sort_ascending_Forall.
  assert (Hla : List.length a = List.length arr) by apply sort_ascending_length.
  rewrite Hla.
  set (len := List.length arr) in *.
  assert (Hlen : (1 <= INR len)%R).
  { change 1%R with (INR 1). apply le_INR. lia. }
  unfold of_nat, sub. cbn [opp add mul Math_floor Math_ceil].
  set (mid := ((INR len + - (1)) * 0.5)%R).
  assert (Hmid : (0 <= mid)%R) by (unfold mid; lra).
  assert (Hmid' : (mid <= INR len - 1)%R) by (unfold mid; lra).
  assert (Hlo : (0 <= Int_part mid < Z.of_nat len)%Z).
  { split; [now apply Int_part_nonneg|].
    pose proof (Int_part_le mid) as H.
    apply lt_IZR. rewrite <- INR_IZR_INZ. lra. }
  assert (Hhi : (0 <= - Int_part (- mid) < Z.of_nat len)%Z).
  { destruct (base_Int_part (- mid)) as [H1 H2]. split.
    - assert (H : (IZR (Int_part (- mid)) < IZR 1)%R) by (cbn; lra).
      apply lt_IZR in H. lia.
    - apply lt_IZR. rewrite opp_IZR, <- INR_IZR_INZ. lra. }
  apply finite_lerp.
  - rewrite <- Hla in Hlo. now apply get_at_finite.
  - rewrite <- Hla in Hhi. now apply get_at_finite.
  - reflexivity.
Qed.

Lemma mad_finite (arr : list num) (med : num) :
  Forall finite arr -> finite med -> finite (_mad arr med).
Proof.
  intros Ha Hm. unfold _mad. apply finite_add; [|reflexivity].
  apply median_finite. apply Forall_forall. intros x Hx.
  apply in_map_iff in Hx. destruct Hx as (v & <- & Hv).
  rewrite Forall_forall in Ha. auto with fin.
Qed.

Lemma adaptiveThreshold_finite (history : list num) (k : R) :
  Forall finite history -> finite (_adaptiveThreshold history (Fin k)).
Proof.
  intros Hh. unfold _adaptiveThreshold.
  pose proof (median_finite Hh).
  apply finite_add; auto. apply finite_mul; [reflexivity|]. now apply mad_finite.
Qed.

(** The strength [trigOnset] returns is [0] or lies in [0.5, 1.5]; the time
    stamp it leaves is the old one or [now]. *)
Lemma trigOnset_strength (now v thr last : num) (cooldown sensitivity : R) :
  finite v -> finite thr -> (0 < sensitivity)%R ->
  exists r : R,
    fst (trigOnset now v thr last (Fin cooldown) (Fin sensitivity)) = Fin r
    /\ (r = 0 \/ 0.5 <= r <= 1.5)%R.
Proof.
  intros Hv Ht Hs. unfold trigOnset.
  destruct ((v >? thr) && _) eqn:E; cbn [fst].
  2:{ exists 0%R. split; auto. }
  apply andb_prop in E. destruct E as [E _].
  fin_cases. unfold gtb in E. apply ltb_Fin in E.
  assert (Hc : exists q, clamp ((Fin r0 / Fin r - 1.0) * Fin sensitivity) 0.5 1.5 = Fin q
                         /\ (0.5 <= q <= 1.5)%R).
  { cbn [div]. destruct (Reqb r 0) eqn:E0.
    - apply Reqb_true in E0. subst r.
      unfold inf_of_sign. destruct (total_order_T r0 0) as [[H|H]|H]; try lra.
      cbn. unfold inf_of_sign. destruct (total_order_T sensitivity 0) as [[H'|H']|H']; try lra.
      unfold clamp, Math_max, Math_min; cbn.
      exists 1.5%R. split; [|lra]. rdec.
    - unfold sub. cbn [opp add mul]. rewrite clamp_Fin.
      eexists; split; [reflexivity|].
      unfold Rmin, Rmax.
      repeat match goal with |- context [Rle_dec ?a ?b] => destruct (Rle_dec a b) end; lra. }
  destruct Hc as (q & -> & Hq). eauto.
Qed.

Lemma trigOnset_finite_fst (now v thr last : num) (cooldown sensitivity : R) :
  finite v -> finite thr -> (0 < sensitivity)%R ->
  finite (fst (trigOnset now v thr last (Fin cooldown) (Fin sensitivity))).
Proof.
  intros Hv Ht Hs.
  destruct (trigOnset_strength now last cooldown Hv Ht Hs) as (r & -> & _).
  reflexivity.
Qed.

Lemma trigOnset_finite_snd (now v thr last cooldown sensitivity : num) :
  finite now -> finite last ->
  finite (snd (trigOnset now v thr last cooldown sensitivity)).
Proof.
  intros Hn Hl. unfold trigOnset. destruct (_ && _); auto.
Qed.

(** *** RMS, named bands and chroma *)

Lemma time_sample_finite (b : byte) : finite (time_sample b).
Proof.
  unfold time_sample. destruct (byte_num_range b) as (r & -> & _).
  unfold sub. cbn [opp add]. now rewrite div_Fin by lra.
Qed.

Lemma time_loop_inv (l : list byte) :
  forall prev acc, nonneg (fst acc) -> nonneg (snd acc) ->
    nonneg (fst (time_loop prev l acc)) /\ nonneg (snd (time_loop prev l acc)).
Proof.
  induction l as [|x l IH]; intros prev acc H1 H2; cbn [time_loop]; auto.
  apply IH; cbn [fst snd].
  - apply nonneg_add; auto. apply nonneg_square, time_sample_finite.
  - destruct prev; auto. destruct (crosses_zero _ _); auto.
    apply nonneg_add; auto. apply nonneg_Fin; lra.
Qed.

Lemma nonneg_div_nat (a : num) (n : nat) : nonneg a -> (0 < n)%nat -> nonneg (a / of_nat n).
Proof.
  intros (r & -> & Hr) Hn. unfold of_nat.
  assert (H : (0 < INR n)%R) by now apply lt_0_INR.
  rewrite div_Fin by lra. apply nonneg_Fin.
  apply Rmult_le_pos; auto. left; now apply Rinv_0_lt_compat.
Qed.

Lemma computeBandEnergy_finite (nbands : nat) (vals : list num) (startBand endBand : nat) :
  Forall finite vals -> List.length vals = nbands -> (startBand <= endBand)%nat ->
  finite (computeBandEnergy nbands vals startBand endBand).
Proof.
  intros Hv Hl Hse. unfold computeBandEnergy.
  assert (Hinv : forall l acc, (forall i, In i l -> (i < nbands)%nat) -> finite acc ->
             finite (fold_left (fun sum i => sum + get vals i) l acc)).
  { induction l as [|i l IH]; intros acc Hi Hacc; cbn [fold_left]; auto.
    apply IH; [intros; apply Hi; now right|].
    apply finite_add; auto. apply get_finite; auto.
    rewrite Hl. apply Hi; now left. }
  apply finite_div.
  - apply Hinv; [|reflexivity]. intros i Hi. apply in_seq in Hi. lia.
  - reflexivity.
  - unfold of_nat, sub. cbn [opp add]. intros [= H].
    apply le_INR in Hse. lra.
Qed.

Lemma updateEnv_finite (current target attack release : num) :
  finite current -> finite target -> finite attack -> finite release ->
  finite (updateEnv current target attack release).
Proof.
  intros. unfold updateEnv. destruct (_ >? _); auto with fin.
Qed.

Lemma chroma_step_finite (fft : list num) (hzPerBin : num) (chroma : list num) (i : nat) :
  Forall finite fft -> (i < List.length fft)%nat -> Forall finite chroma ->
  Forall finite (chroma_step fft hzPerBin chroma i).
Proof.
  intros Hf Hi Hc. unfold chroma_step.
  destruct (_ && _); auto. destruct (to_index _) as [k|]; auto.
  apply set_Forall; auto. intros Hk.
  apply finite_add; apply get_finite; auto.
Qed.

Lemma chroma_step_length (fft : list num) (hzPerBin : num) (chroma : list num) (i : nat) :
  List.length (chroma_step fft hzPerBin chroma i) = List.length chroma.
Proof.
  unfold chroma_step. destruct (_ && _); auto. destruct (to_index _); auto.
  apply set_length.
Qed.

Lemma analyze_chroma_finite (s : AudioAnalyzer) (fft : list num) :
  Forall finite fft -> Forall finite (analyze_chroma s fft).
Proof.
  intros Hf. unfold analyze_chroma.
  assert (Hinv : forall l c, (forall i, In i l -> (i < List.length fft)%nat) ->
             Forall finite c ->
             Forall finite (fold_left (chroma_step fft (sampleRate s / fftSize s)) l c)).
  { induction l as [|i l IH]; intros c Hi Hc; cbn [fold_left]; auto.
    apply IH; [intros; apply Hi; now right|].
    apply chroma_step_finite; auto. apply Hi; now left. }
  apply Hinv.
  - intros i Hi. apply in_seq in Hi. lia.
  - apply Forall_forall. intros x Hx. apply in_map_iff in Hx.
    destruct Hx as (_ & <- & _). reflexivity.
Qed.

Lemma analyze_chroma_length (s : AudioAnalyzer) (fft : list num) :
  List.length (analyze_chroma s fft) = List.length (chroma s).
Proof.
  unfold analyze_chroma.
  assert (Hinv : forall l c,
             List.length (fold_left (chroma_step fft (sampleRate s / fftSize s)) l c)
             = List.length c).
  { induction l as [|i l IH]; intros c; cbn [fold_left]; auto.
    now rewrite IH, chroma_step_length. }
  now rewrite Hinv, length_map.
Qed.

(** The dominant pitch class: a finite maximum, and an index below 12. *)
Lemma dominant_spec (chroma : list num) :
  Forall finite chroma ->
  finite (fst (dominant chroma))
  /\ exists i : nat, (i < 12)%nat /\ snd (dominant chroma) = of_nat i.
Proof.
  intros Hc. unfold dominant.
  assert (Hinv : forall l acc, (forall i, In i l -> (i < 12)%nat) ->
             (finite (fst acc) /\ exists i, (i < 12)%nat /\ snd acc = of_nat i) ->
             let r := fold_left (dominant_step chroma) l acc in
             finite (fst r) /\ exists i, (i < 12)%nat /\ snd r = of_nat i).
  { induction l as [|i l IH]; intros acc Hi Hacc; cbn [fold_left]; auto.
    apply IH; [intros; apply Hi; now right|].
    unfold dominant_step. destruct (_ >? _) eqn:E; auto. cbn [fst snd]. split.
    - unfold gtb in E. destruct Hacc as [Hm _].
      destruct (finite_inv Hm) as [m Em]. rewrite Em in E.
      unfold get in *. destruct (nth_in_or_default i chroma NaN) as [Hin|Hd].
      + rewrite Forall_forall in Hc. now apply Hc.
      + rewrite Hd in E. discriminate E.
    - exists i. split; auto. apply Hi; now left. }
  apply Hinv.
  - intros i Hi. apply in_seq in Hi. lia.
  - split; [reflexivity|]. exists 0%nat. split; [lia|reflexivity].
Qed.

(** *** The analyzer keeps its state well-formed *)

Lemma tempo_update_ok (s : AudioAnalyzer) (now : num) :
  (exists r : R, beatInterval s = Fin r /\ (0 < r)%R) -> finite (bpmSmooth s) ->
  (exists r : R, fst (tempo_update s now) = Fin r /\ (0 < r)%R)
  /\ finite (snd (tempo_update s now)).
Proof.
  intros (bi & Ebi & Hbi) Hbpm. unfold tempo_update.
  destruct (_ && _) eqn:E; cbn [fst snd]; [|eauto].
  apply andb_prop in E. destruct E as [E E2]. apply andb_prop in E. destruct E as [_ E1].
  unfold gtb in E1.
  destruct (now - lastBeatTime s) as [i| | |]; cbn in E1, E2; try discriminate.
  apply Rltb_true in E1, E2.
  rewrite Ebi, lerp_Fin. split.
  - eexists; split; [reflexivity|]. lra.
  - rewrite div_Fin by lra. auto with fin.
Qed.

Lemma analyze_rms_ok (s : AudioAnalyzer) (timeData : option (list byte)) :
  nonneg (rms s) -> finite (harmonicRatio s) ->
  nonneg (fst (analyze_rms s timeData)) /\ finite (snd (analyze_rms s timeData)).
Proof.
  intros Hr Hh. unfold analyze_rms.
  destruct timeData as [[|x t]|]; cbn [fst snd]; auto.
  destruct (@time_loop_inv (x :: t) None (Fin 0, Fin 0)) as [H1 H2];
    try (apply nonneg_Fin; lra).
  split.
  - apply nonneg_sqrt, nonneg_div_nat; auto. cbn; lia.
  - apply finite_clamp, finite_not_NaN. apply finite_mul; [|reflexivity].
    apply nonneg_finite, nonneg_div_nat; auto. cbn; lia.
Qed.

Lemma trigOnset_hist_finite (hist : list num) (v now last : num)
    (k cooldown sensitivity : R) (maxLen : nat) :
  Forall finite hist -> nonneg v -> finite now -> finite last -> (0 < sensitivity)%R ->
  let r := trigOnset now v (_adaptiveThreshold (pushHist hist v maxLen) (Fin k)) last
                     (Fin cooldown) (Fin sensitivity) in
  finite (fst r) /\ finite (snd r).
Proof.
  intros Hh Hv Hn Hl Hs r. subst r. split.
  - apply trigOnset_finite_fst; auto with fin.
    apply adaptiveThreshold_finite, pushHist_finite; auto with fin.
  - now apply trigOnset_finite_snd.
Qed.

Lemma fired_ok (s : AudioAnalyzer) (f : flux_sums) (now : num) :
  analyzer_ok s -> nonneg_flux f -> finite now ->
  (finite (fst (fired_global s f now)) /\ finite (snd (fired_global s f now)))
  /\ (finite (fst (fired_kick s f now)) /\ finite (snd (fired_kick s f now)))
  /\ (finite (fst (fired_snare s f now)) /\ finite (snd (fired_snare s f now)))
  /\ (finite (fst (fired_hihat s f now)) /\ finite (snd (fired_hihat s f now))).
Proof.
  intros Ok [F1 F2 F3 F4] Hnow. destruct Ok.
  unfold fired_global, fired_kick, fired_snare, fired_hihat.
  repeat apply conj; apply trigOnset_hist_finite; auto; lra.
Qed.

Lemma new_AudioAnalyzer_ok : analyzer_ok new_AudioAnalyzer.
Proof.
  constructor; cbn -[Float32Array];
    try reflexivity; try apply Float32Array_finite; try apply Float32Array_length;
    try (apply nonneg_Fin; lra); auto.
  all: try discriminate.
  all: try (exists 500%R; split; auto; lra).
Qed.

Lemma setFFTInfo_ok (s : AudioAnalyzer) (fftSize' sampleRate' : num) :
  analyzer_ok s -> analyzer_ok (setFFTInfo s fftSize' sampleRate').
Proof. intros []; constructor; cbn; auto. Qed.

Lemma finite_pow_001 (e : num) : finite e -> finite (Math_pow 0.001 e).
Proof. intros; apply finite_pow_pos; auto; lra. Qed.

Lemma analyze_ok (s : AudioAnalyzer) (fr : frame) :
  analyzer_ok s -> wf_frame fr -> analyzer_ok (snd (analyze_frame s fr)).
Proof.
  intros Ok [Hdt Halpha].
  destruct fr as [freq time dt0 alpha0]. cbn [dt smoothingAlpha] in Hdt, Halpha.
  unfold analyze_frame. cbn [freqData timeData dt smoothingAlpha].
  set (alpha := match alpha0 with Some a => a | None => Fin 0.18 end).
  assert (Ha : isNaN alpha = false).
  { unfold alpha. destruct alpha0; auto. }
  pose proof (@analyze_fft_finite s freq alpha (ok_fftSmooth Ok) Ha) as Hfft.
  pose proof (@analyze_bandValues_finite s freq alpha (ok_fftSmooth Ok) Ha) as Hvals.
  pose proof (analyze_bandValues_length s freq alpha) as Hvlen.
  set (vals := analyze_bandValues s freq alpha) in *.
  pose proof (@analyze_band_sums_finite (bands s) vals Hvals Hvlen) as [S1 S2 S3 S4 S5].
  pose proof (@flux_sqrt_nonneg _
                (@flux_loop_nonneg s vals Hvals Hvlen (ok_prevBandValues Ok)
                   (ok_prevBandValues_len Ok))) as Hf.
  set (f := flux_sqrt (flux_loop s vals)) in *.
  assert (Htms : finite (_tMs s + dt0 * 1000)) by (pose proof (ok_tMs Ok); auto with fin).
  set (now := _tMs s + dt0 * 1000) in *.
  destruct (fired_ok Ok Hf Htms) as ((G1 & G2) & (K1 & K2) & (N1 & N2) & (H1 & H2)).
  destruct Hf as [F1 F2 F3 F4].
  destruct (@analyze_rms_ok s time (ok_rms Ok) (ok_harmonicRatio Ok)) as [R1 R2].
  destruct (@tempo_update_ok s now (ok_beatInterval Ok) (ok_bpmSmooth Ok)) as [T1 T2].
  assert (Hb : bands s = 64%nat) by apply (ok_bands Ok).
  assert (Hcoef : forall k : R, finite (1 - Math_pow 0.001 (dt0 * Fin k))).
  { intros k. apply finite_sub; [reflexivity|]. apply finite_pow_001; auto with fin. }
  assert (Hraw : forall a b, (a <= b)%nat -> finite (computeBandEnergy (bands s) vals a b)).
  { intros a b Hab. now apply computeBandEnergy_finite. }
  assert (Hrs : finite (rmsSmooth s + (fst (analyze_rms s time) - rmsSmooth s)
                 * (if fst (analyze_rms s time) >? rmsSmooth s
                    then 1 - Math_exp (- dt0 / 0.005) else 1 - Math_exp (- dt0 / 0.15)))).
  { pose proof (ok_rmsSmooth Ok).
    assert (finite (1 - Math_exp (- dt0 / 0.005))).
    { apply finite_sub; [reflexivity|]. apply finite_exp, finite_div_Fin; auto with fin. lra. }
    assert (finite (1 - Math_exp (- dt0 / 0.15))).
    { apply finite_sub; [reflexivity|]. apply finite_exp, finite_div_Fin; auto with fin. lra. }
    destruct (_ >? _); auto with fin. }
  pose proof (ok_rootNote Ok) as Hroot.
  destruct Ok.
  constructor; unfold analyze; fold alpha; fold vals; fold f; fold now;
    cbn [snd bands bandValues bandPeaks bandEdges prevBandValues onsetDecay _fftSmooth
         beatInterval lastBeatTime beatGate bpmSmooth beatCount barCount spectralCentroid
         spectralFlux energy spectralSpread spectralRolloff spectralFlatness onsetKick
         onsetSnare onsetHihat onsetGlobal _fluxHist _fluxKickHist _fluxSnareHist
         _fluxHihatHist _lastOnsetT _lastKickT _lastSnareT _lastHihatT rms rmsSmooth
         rmsPeak sampleRate fftSize rootNote noteName chroma _noteBins smoothSubBass
         smoothBass smoothLowMid smoothMid smoothHighMid smoothHigh smoothBrilliance
         _envSubBass _envBass _envMid _envHigh _tMs transientSharpness harmonicRatio].
  all: try assumption.
  all: try (apply pushHist_finite; auto with fin; fail).
  all: try (apply updateEnv_finite; auto; apply Hraw; lia).
  all: try (apply finite_max; auto with fin; fail).
  - apply analyze_bandPeaks_finite; auto.
  - apply tabulate_length.
  - apply tabulate_Forall. intros b Hlt. apply get_finite; auto. lia.
  - apply tabulate_length.
  - apply analyze_onsetDecay_finite; auto.
  - apply tabulate_length.
  - intros l [= <-]. exact Hfft.
  - destruct (beat_fires _ _ _); auto.
  - destruct (beat_fires _ _ _); auto.
  - destruct (beat_fires _ _ _); auto with fin.
  - destruct (beat_fires _ _ _); auto.
  - destruct (finite_inv S3) as [w Ew]. rewrite Ew. unfold gtb. cbn [ltb].
    destruct (Rltb 0.000001 w) eqn:E; [|reflexivity].
    apply Rltb_true in E. apply finite_div_Fin; auto. lra.
  - apply finite_clamp, finite_not_NaN. auto with fin.
  - apply finite_clamp, finite_not_NaN.
    repeat apply finite_add; apply finite_mul; try reflexivity;
      apply updateEnv_finite; auto; apply Hraw; lia.
  - assert (HN : INR (bands s) <> 0%R) by (apply not_0_INR; lia).
    destruct (finite_inv S5) as [am Eam]. rewrite Eam.
    unfold of_nat. rewrite (div_Fin am HN). unfold gtb. cbn [ltb].
    destruct (Rltb 0.001 (am / INR (bands s))) eqn:E; [|reflexivity].
    apply Rltb_true in E. apply finite_div_Fin; [|lra].
    apply finite_exp, finite_div_Fin; auto.
  - destruct (@dominant_spec (analyze_chroma s (analyze_fft s freq alpha))) as (_ & i & Hi & Ei).
    { now apply analyze_chroma_finite. }
    destruct (fst (dominant _) >? _); [right; exists i; auto | exact Hroot].
  - now apply analyze_chroma_finite.
  - apply finite_clamp, finite_not_NaN.
    repeat apply finite_add; apply finite_mul; try reflexivity;
      apply finite_max; auto with fin.
Qed.

Lemma reachable_wf_ok (s : AudioAnalyzer) : reachable_wf s -> analyzer_ok s.
Proof.
  induction 1.
  - apply new_AudioAnalyzer_ok.
  - now apply setFFTInfo_ok.
  - now apply analyze_ok.
Qed.

Lemma reachable_forward_wf (s : AudioAnalyzer) : reachable_forward s -> reachable_wf s.
Proof.
  induction 1 as [|s f r Hs IH|s fr Hs IH Hfr].
  - apply reachable_new.
  - now apply reachable_setFFTInfo.
  - apply reachable_analyze; auto. apply Hfr.
Qed.

Lemma reachable_wf_reachable (s : AudioAnalyzer) : reachable_wf s -> reachable s.
Proof.
  induction 1; [apply reachable_new | now apply reachable_setFFTInfo |].
  now apply reachable_analyze.
Qed.

Lemma analyzer_ok_features (s : AudioAnalyzer) :
  analyzer_ok s ->
  Forall finite (feature_scalars s) /\ Forall (Forall finite) (feature_arrays s).
Proof.
  intros Ok.
  destruct (ok_beatInterval Ok) as (bi & Ebi & _).
  pose proof (nonneg_finite (ok_rms Ok)) as Hrms.
  destruct Ok. split; unfold feature_scalars, feature_arrays.
  - rewrite Ebi. repeat (constructor; [assumption || reflexivity|]). constructor.
  - repeat (constructor; [assumption|]). constructor.
Qed.

(** *** The coordinator keeps its numbers finite *)

Lemma getBPM_finite_of_bpmSmooth (s : AudioAnalyzer) :
  finite (bpmSmooth s) -> finite (getBPM s).
Proof.
  intros H. unfold getBPM. rewrite H. now apply finite_round.
Qed.

Lemma finite_or_else (a : num) (r : R) : finite a -> finite (or_else a (Fin r)).
Proof. intros H. unfold or_else. destruct (truthy a); auto. reflexivity. Qed.

Lemma update_finite (m : MotionCoordinator) (perf_now : num) (audio : AudioAnalyzer)
    (dt : num) (smoothness : option num) :
  Forall finite (motion_state m) -> analyzer_ok audio ->
  finite perf_now -> finite dt -> (forall x, smoothness = Some x -> finite x) ->
  Forall finite (motion_state (update m perf_now audio dt smoothness)).
Proof.
  intros Hm Ok Hnow Hdt Hsm.
  set (sm := match smoothness with Some x => x | None => Fin 0.7 end).
  assert (Hs : finite sm) by (unfold sm; destruct smoothness; auto; reflexivity).
  pose proof (getBPM_finite_of_bpmSmooth audio (ok_bpmSmooth Ok)) as Hbpm.
  pose proof (finite_or_else 120 Hbpm) as Hbpm'.
  pose proof (ok_onsetKick Ok). pose proof (ok_onsetSnare Ok).
  pose proof (ok_onsetHihat Ok). pose proof (ok_energy Ok).
  pose proof (ok_rmsSmooth Ok). pose proof (ok_smoothSubBass Ok).
  pose proof (ok_smoothBass Ok). pose proof (ok_smoothLowMid Ok).
  pose proof (ok_smoothMid Ok). pose proof (ok_smoothHighMid Ok).
  pose proof (ok_smoothHigh Ok).
  unfold motion_state, motion_fields in Hm. cbn [app] in Hm.
  repeat match goal with
    | H : Forall finite (_ :: _) |- _ => inversion H; subst; clear H
    end.
  assert (Hclamp : finite (clamp (onsetKick audio * 0.9) 0.5 1.0))
    by (apply finite_clamp, finite_not_NaN; auto with fin).
  unfold motion_state, motion_fields, update. fold sm.
  cbn [app pulse impact swell breathe lowMotion midMotion highMotion scaleSuggestion
       zoomSuggestion _pulseRaw _impactRaw _swellRaw _lowRaw _midRaw _highRaw
       _pulseSmooth1 _pulseSmooth2 _swellSmooth1 _swellSmooth2 _lastBeatTime
       _beatLockout _breathePhase].
  destruct (pulse_triggers m audio);
    repeat (constructor; [auto 20 with fin|]); constructor.
Qed.

Lemma motion_reachable_finite (m : MotionCoordinator) :
  motion_reachable m -> Forall finite (motion_state m).
Proof.
  induction 1.
  - unfold motion_state, motion_fields; cbn. repeat (constructor; [reflexivity|]). constructor.
  - apply update_finite; auto. now apply reachable_wf_ok.
Qed.

(* ====================================================================== *)
(** ** Finite snapshots *)
(* ====================================================================== *)


(* ====================================================================== *)
(** ** Band peaks *)
(* ====================================================================== *)

Lemma bandValues_analyze (s : AudioAnalyzer) (fr : frame) :
  bandValues (snd (analyze_frame s fr)) =
    analyze_bandValues s (freqData fr)
      (match smoothingAlpha fr with Some a => a | None => Fin 0.18 end).
Proof. reflexivity. Qed.

Lemma bandPeaks_analyze (s : AudioAnalyzer) (fr : frame) :
  bandPeaks (snd (analyze_frame s fr)) =
    analyze_bandPeaks s (bandValues (snd (analyze_frame s fr))).
Proof. reflexivity. Qed.

Lemma bandPeaks_step (s : AudioAnalyzer) (fr : frame) (b : nat) :
  analyzer_ok s -> wf_frame fr -> (b < 64)%nat ->
  exists old v : R,
    get (bandPeaks s) b = Fin old
    /\ get (bandValues (snd (analyze_frame s fr))) b = Fin v
    /\ get (bandPeaks (snd (analyze_frame s fr))) b = Fin (Rmax (old * 0.97) v).
Proof.
  intros Ok Hfr Hb.
  pose proof (analyze_ok Ok Hfr) as Ok'.
  assert (Hbands : bands s = 64%nat) by apply (ok_bands Ok).
  assert (Hold : finite (get (bandPeaks s) b)).
  { apply get_finite; [apply (ok_bandPeaks Ok)|]. rewrite (ok_bandPeaks_len Ok); lia. }
  assert (Hv : finite (get (bandValues (snd (analyze_frame s fr))) b)).
  { apply get_finite; [apply (ok_bandValues Ok')|].
    rewrite bandValues_analyze, analyze_bandValues_length. lia. }
  destruct (finite_inv Hold) as [old Eold]. destruct (finite_inv Hv) as [v Ev].
  exists old, v. repeat split; auto.
  rewrite bandPeaks_analyze.
  unfold analyze_bandPeaks. rewrite get_tabulate by lia.
  rewrite Eold, Ev. cbn [mul]. apply Math_max_Fin.
Qed.

(* ====================================================================== *)
(** ** Tempo *)
(* ====================================================================== *)

(** Whatever the frames, the beat interval stays a positive number and the
    smoothed BPM a finite one. *)
Lemma reachable_tempo (s : AudioAnalyzer) :
  reachable s ->
  (exists r : R, beatInterval s = Fin r /\ (0 < r)%R) /\ finite (bpmSmooth s).
Proof.
  induction 1 as [|s f r _ IH|s fr _ IH _].
  - split; [exists 500%R; split; [reflexivity | lra] | reflexivity].
  - exact IH.
  - destruct IH as [IH1 IH2].
    unfold analyze_frame, analyze. cbn [snd beatInterval bpmSmooth].
    destruct (beat_fires _ _ _); [|now split].
    now apply tempo_update_ok.
Qed.

(** C8 (as stated, refuted): an analyzer whose [bpmSmooth] and
    [beatInterval] are both [NaN] answers [getBPM()] with [NaN]:
    [clamp(NaN, 240, 2000)] is [NaN], and so are the quotient and its
    rounding. *)
Lemma getBPM_NaN_without_tempo :
  getBPM (with_tempo new_AudioAnalyzer NaN NaN) = NaN
  /\ isFinite (getBPM (with_tempo new_AudioAnalyzer NaN NaN)) = false.
Proof. split; reflexivity. Qed.

Lemma Math_round_nearest (x : R) :
  exists k : Z, Math_round (Fin x) = Fin (IZR k) /\ (x - / 2 < IZR k <= x + / 2)%R.
Proof.
  exists (Int_part (x + / 2)). split; [reflexivity|].
  destruct (base_Int_part (x + / 2)) as [A B]. lra.
Qed.

Lemma clamp_240_2000 (b : num) :
  isNaN b = false -> exists c : R, clamp b 240 2000 = Fin c /\ (240 <= c <= 2000)%R.
Proof.
  intros Hb. destruct b as [b| | |]; try discriminate.
  - rewrite clamp_Fin. eexists; split; [reflexivity|].
    unfold Rmin, Rmax.
    repeat match goal with |- context [Rle_dec ?a ?b] => destruct (Rle_dec a b) end; lra.
  - exists 2000%R. split; [|lra]. unfold clamp, Math_max, Math_min; cbn. rdec.
  - exists 240%R. split; [|lra]. unfold clamp, Math_max, Math_min; cbn. rdec.
Qed.


(* ====================================================================== *)
(** ** Bars *)
(* ====================================================================== *)

Lemma analyze_counts (s : AudioAnalyzer) (fr : frame) :
  let isBeat := fst (analyze_frame s fr) in
  let s' := snd (analyze_frame s fr) in
  beatCount s' = (if isBeat then beatCount s + 1 else beatCount s)%Z
  /\ barCount s' =
       (if isBeat && ((beatCount s + 1) mod 4 =? 0)%Z then barCount s + 1 else barCount s)%Z.
Proof.
  unfold analyze_frame, analyze. cbn [fst snd beatCount barCount].
  destruct (beat_fires _ _ _); cbn [andb]; auto.
Qed.

Lemma run_counts (frames : list frame) :
  forall s : AudioAnalyzer,
    (0 <= beatCount s)%Z -> barCount s = (beatCount s / 4)%Z ->
    beatCount (run s frames) = (beatCount s + Z.of_nat (beats_fired s frames))%Z
    /\ barCount (run s frames) = (beatCount (run s frames) / 4)%Z.
Proof.
  induction frames as [|fr rest IH]; intros s Hpos Hbar.
  - cbn. split; [lia | exact Hbar].
  - cbn [run fold_left beats_fired].
    change (fold_left _ rest ?a) with (run a rest).
    destruct (analyze_counts s fr) as [Hc Hb]. cbn zeta in Hc, Hb.
    destruct (fst (analyze_frame s fr)) eqn:E; cbn [andb] in Hb.
    + destruct (IH (snd (analyze_frame s fr))) as [H1 H2].
      * lia.
      * rewrite Hb, Hc, Hbar.
        destruct (Z.eqb_spec ((beatCount s + 1) mod 4) 0) as [Hm|Hm].
        -- pose proof (Z.div_mod (beatCount s + 1) 4). pose proof (Z.div_mod (beatCount s) 4).
           pose proof (Z.mod_pos_bound (beatCount s) 4). lia.
        -- pose proof (Z.div_mod (beatCount s + 1) 4). pose proof (Z.div_mod (beatCount s) 4).
           pose proof (Z.mod_pos_bound (beatCount s) 4).
           pose proof (Z.mod_pos_bound (beatCount s + 1) 4). lia.
      * split; [|exact H2]. rewrite H1, Hc. lia.
    + destruct (IH (snd (analyze_frame s fr))) as [H1 H2].
      * lia.
      * now rewrite Hb, Hc.
      * split; [|exact H2]. rewrite H1, Hc. lia.
Qed.


(* ====================================================================== *)
(** ** The pulse lockout *)
(* ====================================================================== *)

(** The lockout an [update] leaves (lines 59-65). *)
Lemma update_beatLockout (m : MotionCoordinator) (perf_now : num) (audio : AudioAnalyzer)
    (dt smoothness : num) :
  _beatLockout (update m perf_now audio dt (Some smoothness)) =
    Math_max 0 ((if pulse_triggers m audio then 150 + smoothness * 200 else _beatLockout m)
                - dt * 1000).
Proof. reflexivity. Qed.

Lemma lockout_step (m : MotionCoordinator) (perf_now : num) (audio : AudioAnalyzer) (k : nat) :
  lockout_left m k -> (k <= 8)%nat -> (onsetKick audio >? 0.4) = true ->
  pulse_triggers m audio = (match k with O => true | S _ => false end)
  /\ lockout_left (update m perf_now audio (Fin (1 / 60)) (Some (Fin 0)))
                  (match k with O => 8 | S k' => k' end).
Proof.
  intros (l & El & Hl) Hk Hkick. unfold lockout_left.
  rewrite update_beatLockout. unfold pulse_triggers. rewrite Hkick, El. cbn [andb leb].
  destruct k as [|k'].
  - assert (E : Rleb l 0 = true) by now apply Rleb_true.
    rewrite E. split; auto.
    unfold sub. cbn [mul add opp]. rewrite Math_max_Fin.
    eexists; split; [reflexivity|].
    rewrite Rmax_right; [|lra].
    replace (INR 8) with 8%R by (cbn; lra). lra.
  - assert (Hpos : (0 < INR (S k'))%R) by (apply lt_0_INR; lia).
    assert (E : Rleb l 0 = false) by (apply Rleb_false; subst l; nra).
    rewrite E. split; auto.
    unfold sub. cbn [mul add opp]. rewrite Math_max_Fin.
    eexists; split; [reflexivity|].
    rewrite S_INR in Hl. destruct k' as [|k''].
    + cbn in Hl. rewrite Rmax_left; lra.
    + pose proof (pos_INR (S k'')). rewrite Rmax_right; [lra|nra].
Qed.

Lemma trigger_trace_countdown (calls : list update_call) :
  forall (m : MotionCoordinator) (k : nat),
    lockout_left m k -> (k <= 8)%nat ->
    Forall (fun c => (onsetKick (snd c) >? 0.4) = true) calls ->
    trigger_trace m calls (Fin (1 / 60)) (Some (Fin 0)) =
      countdown_trace k (List.length calls).
Proof.
  induction calls as [|[perf_now audio] rest IH]; intros m k Hl Hk Hall; [reflexivity|].
  inversion Hall as [|c l Hc Hrest]; subst. cbn [snd] in Hc.
  destruct (@lockout_step m perf_now audio k Hl Hk Hc) as [Ht Hl'].
  cbn [trigger_trace List.length countdown_trace]. rewrite Ht.
  destruct k as [|k']; f_equal; apply IH; auto; lia.
Qed.

Lemma countdown_trace_60 :
  countdown_trace 0 60 =
    [true; false; false; false; false; false; false; false; false;
     true; false; false; false; false; false; false; false; false;
     true; false; false; false; false; false; false; false; false;
     true; false; false; false; false; false; false; false; false;
     true; false; false; false; false; false; false; false; false;
     true; false; false; false; false; false; false; false; false;
     true; false; false; false; false; false].
Proof. reflexivity. Qed.

(** C4 (as stated, refuted): from a fresh coordinator, 60 calls at
    [dt = 1/60] and [smoothness = 0] with [onsetKick = 1] in every call run
    the trigger branch 7 times, which is more than 6. *)
Lemma pulse_triggers_seven_times :
  trigger_count new_MotionCoordinator (repeat (Fin 0, kick_audio) 60) (Fin (1 / 60)) (Some (Fin 0))
    = 7%nat
  /\ ~ (trigger_count new_MotionCoordinator (repeat (Fin 0, kick_audio) 60)
          (Fin (1 / 60)) (Some (Fin 0)) <= 6)%nat.
Proof.
  assert (E : trigger_count new_MotionCoordinator (repeat (Fin 0, kick_audio) 60)
                (Fin (1 / 60)) (Some (Fin 0)) = 7%nat).
  { unfold trigger_count.
    rewrite (@trigger_trace_countdown _ new_MotionCoordinator 0%nat).
    - reflexivity.
    - exists 0%R. split; [reflexivity | lra].
    - lia.
    - apply Forall_forall. intros c Hc. apply repeat_spec in Hc. subst c.
      cbn. rdec. }
  split; [exact E | rewrite E; lia].
Qed.

Lemma count_countdown_mono (n : nat) :
  forall k : nat,
    (count_occ bool_dec (countdown_trace k n) true
     <= count_occ bool_dec (countdown_trace k (S n)) true)%nat.
Proof.
  induction n as [|n IH]; intros k.
  - destruct k; cbn; lia.
  - destruct k as [|k'].
    + specialize (IH 8%nat). cbn [countdown_trace] in *.
      rewrite !count_occ_cons_eq by reflexivity. lia.
    + specialize (IH k'). cbn [countdown_trace] in *.
      rewrite !count_occ_cons_neq by discriminate. exact IH.
Qed.

Lemma lockout_step_positive (m : MotionCoordinator) (perf_now : num) (audio : AudioAnalyzer)
    (l : R) :
  _beatLockout m = Fin l -> (0 < l)%R ->
  pulse_triggers m audio = false
  /\ exists l' : R,
       _beatLockout (update m perf_now audio (Fin (1 / 60)) (Some (Fin 0))) = Fin l'.
Proof.
  intros El Hl. rewrite update_beatLockout. unfold pulse_triggers. rewrite El.
  cbn [leb]. assert (E : Rleb l 0 = false) by (apply Rleb_false; lra).
  rewrite E, andb_false_r. split; auto.
  unfold sub. cbn [mul add opp]. rewrite Math_max_Fin. eauto.
Qed.

Lemma trigger_count_bound (calls : list update_call) :
  forall (m : MotionCoordinator) (l : R),
    _beatLockout m = Fin l ->
    Forall (fun c => (onsetKick (snd c) >? 0.4) = true) calls ->
    (trigger_count m calls (Fin (1 / 60)) (Some (Fin 0))
     <= count_occ bool_dec (countdown_trace 0 (List.length calls)) true)%nat.
Proof.
  induction calls as [|[perf_now audio] rest IH]; intros m l El Hall; [cbn; lia|].
  destruct (Rle_dec l 0) as [Hl|Hl].
  - unfold trigger_count.
    rewrite (@trigger_trace_countdown _ m 0%nat); auto; [|lia].
    exists l. split; auto.
  - inversion Hall as [|c r Hc Hrest]; subst.
    destruct (@lockout_step_positive m perf_now audio l El) as (Ht & l' & El'); [lra|].
    unfold trigger_count in *. cbn [trigger_trace List.length]. rewrite Ht.
    rewrite count_occ_cons_neq by discriminate.
    etransitivity; [apply (IH _ l' El' Hrest)|]. apply count_countdown_mono.
Qed.

(** C4 (amended): with [smoothness = 0] and [dt = 1/60], 60 calls whose
    [onsetKick] exceeds 0.4 every time run the pulse trigger branch at most
    7 times, and exactly 7 times when the lockout has expired at the first
    call (as in a fresh coordinator): on calls 1, 10, 19, 28, 37, 46 and 55.
    The 150 ms lockout set by a trigger reaches 0 after 9 calls of
    1000/60 ms, so every 9th call triggers again and the calls in between
    are ignored. *)
Theorem pulse_lockout_7_triggers_per_second :
  forall (m : MotionCoordinator) (calls : list update_call) (l : R),
    _beatLockout m = Fin l ->
    List.length calls = 60%nat ->
    Forall (fun c => (onsetKick (snd c) >? 0.4) = true) calls ->
    (trigger_count m calls (Fin (1 / 60)) (Some (Fin 0)) <= 7)%nat
    /\ ((l <= 0)%R ->
        trigger_count m calls (Fin (1 / 60)) (Some (Fin 0)) = 7%nat
        /\ trigger_trace m calls (Fin (1 / 60)) (Some (Fin 0)) =
             [true; false; false; false; false; false; false; false; false;
              true; false; false; false; false; false; false; false; false;
              true; false; false; false; false; false; false; false; false;
              true; false; false; false; false; false; false; false; false;
              true; false; false; false; false; false; false; false; false;
              true; false; false; false; false; false; false; false; false;
              true; false; false; false; false; false]).
Proof.
  intros m calls l El Hlen Hall. split.
  - pose proof (@trigger_count_bound calls m l El Hall) as H.
    rewrite Hlen in H. exact H.
  - intros Hl.
    assert (E : trigger_trace m calls (Fin (1 / 60)) (Some (Fin 0)) = countdown_trace 0 60).
    { rewrite <- Hlen. apply trigger_trace_countdown; auto; [|lia].
      exists l. split; auto. }
    split; [unfold trigger_count; rewrite E; reflexivity|].
    rewrite E. apply countdown_trace_60.
Qed.

Lemma pulse_lockout_7_triggers_per_second_witness :
  (trigger_count new_MotionCoordinator (repeat (Fin 0, kick_audio) 60)
     (Fin (1 / 60)) (Some (Fin 0)) <= 7)%nat.
Proof.
  apply (@pulse_lockout_7_triggers_per_second new_MotionCoordinator
           (repeat (Fin 0, kick_audio) 60) 0%R).
  - reflexivity.
  - reflexivity.
  - apply Forall_forall. intros c Hc. apply repeat_spec in Hc. subst c.
    cbn. rdec.
Defined.

(* ====================================================================== *)
(** ** The band edges *)
(* ====================================================================== *)

Lemma ln_10_pos : (0 < ln 10)%R.
Proof. rewrite <- ln_1. apply ln_increasing; lra. Qed.

Lemma Math_log10_pos (x : R) : (0 < x)%R -> Math_log10 (Fin x) = Fin (ln x / ln 10).
Proof. intros Hx. cbn. rdec. Qed.

Lemma Math_pow_10 (y : R) : Math_pow 10 (Fin y) = Fin (Rpower 10 y).
Proof.
  cbn. destruct (Reqb y 0) eqn:E.
  - apply Reqb_true in E. subst y. unfold Rpower. now rewrite Rmult_0_l, exp_0.
  - rdec.
Qed.

Lemma Rpower_10_log10 (x : R) : (0 < x)%R -> Rpower 10 (ln x / ln 10) = x.
Proof.
  intros Hx. unfold Rpower. pose proof ln_10_pos.
  replace (ln x / ln 10 * ln 10)%R with (ln x) by (field; lra).
  now apply exp_ln.
Qed.

(** The edge of index [i]: [10 ^ (logMin + (i / n) * (logMax - logMin))]. *)
Lemma logBandEdge (n : nat) (lo hi : R) (i : nat) :
  (1 <= n)%nat -> (0 < lo)%R -> (0 < hi)%R -> (i <= n)%nat ->
  get (_computeLogBandEdges n (Fin lo) (Fin hi)) i =
    Fin (Rpower 10 (ln lo / ln 10 + INR i / INR n * (ln hi / ln 10 - ln lo / ln 10))).
Proof.
  intros Hn Hlo Hhi Hi. unfold _computeLogBandEdges.
  rewrite get_tabulate by lia.
  rewrite !Math_log10_pos by assumption.
  assert (HN : INR n <> 0%R) by (apply not_0_INR; lia).
  unfold of_nat. rewrite div_Fin by exact HN.
  unfold sub. cbn [opp add mul]. rewrite Math_pow_10. do 2 f_equal; try lra.
Qed.

Lemma logBandEdge_first (n : nat) (lo hi : R) :
  (1 <= n)%nat -> (0 < lo)%R -> (0 < hi)%R ->
  get (_computeLogBandEdges n (Fin lo) (Fin hi)) 0 = Fin lo.
Proof.
  intros Hn Hlo Hhi. rewrite logBandEdge by (auto; lia).
  assert (HN : (0 < INR n)%R) by (apply lt_0_INR; lia).
  f_equal. cbn [INR]. replace (0 / INR n)%R with 0%R by (field; lra).
  rewrite Rmult_0_l, Rplus_0_r. now apply Rpower_10_log10.
Qed.

Lemma logBandEdge_last (n : nat) (lo hi : R) :
  (1 <= n)%nat -> (0 < lo)%R -> (0 < hi)%R ->
  get (_computeLogBandEdges n (Fin lo) (Fin hi)) n = Fin hi.
Proof.
  intros Hn Hlo Hhi. rewrite logBandEdge by (auto; lia).
  assert (HN : (0 < INR n)%R) by (apply lt_0_INR; lia).
  f_equal. replace (INR n / INR n)%R with 1%R by (field; lra).
  replace (ln lo / ln 10 + 1 * (ln hi / ln 10 - ln lo / ln 10))%R with (ln hi / ln 10)%R by lra.
  now apply Rpower_10_log10.
Qed.

Lemma logBandEdge_lt (n : nat) (lo hi : R) (i : nat) :
  (1 <= n)%nat -> (0 < lo)%R -> (lo < hi)%R -> (i < n)%nat ->
  exists x y : R,
    get (_computeLogBandEdges n (Fin lo) (Fin hi)) i = Fin x
    /\ get (_computeLogBandEdges n (Fin lo) (Fin hi)) (i + 1) = Fin y
    /\ (x < y)%R.
Proof.
  intros Hn Hlo Hlt Hi.
  assert (Hhi : (0 < hi)%R) by lra.
  assert (HN : (0 < INR n)%R) by (apply lt_0_INR; lia).
  pose proof ln_10_pos as H10.
  rewrite !logBandEdge by (auto; lia).
  do 2 eexists. split; [reflexivity|]. split; [reflexivity|].
  apply Rpower_lt; [lra|].
  assert (Hd : (0 < ln hi / ln 10 - ln lo / ln 10)%R).
  { assert (ln lo < ln hi)%R by now apply ln_increasing.
    unfold Rdiv. assert (0 < / ln 10)%R by now apply Rinv_0_lt_compat. nra. }
  rewrite plus_INR. cbn [INR].
  assert (Hq : (INR i / INR n < (INR i + 1) / INR n)%R).
  { unfold Rdiv. assert (0 < / INR n)%R by now apply Rinv_0_lt_compat. nra. }
  nra.
Qed.

(** *** Single-precision rounding *)

Lemma round_half_even_near (y : R) : (Rabs (IZR (round_half_even y) - y) <= / 2)%R.
Proof.
  unfold round_half_even. destruct (base_Int_part y) as [A B].
  set (k := Int_part y) in *. unfold Rltb.
  destruct (Rlt_dec (y - IZR k) (/ 2)) as [H1|H1].
  - rewrite Rabs_left1 by lra. lra.
  - destruct (Rlt_dec (/ 2) (y - IZR k)) as [H2|H2].
    + rewrite plus_IZR. rewrite Rabs_pos_eq by lra. lra.
    + destruct (Z.even k).
      * rewrite Rabs_left1 by lra. lra.
      * rewrite plus_IZR. rewrite Rabs_pos_eq by lra. lra.
Qed.

Lemma round_half_even_below (K : Z) (y : R) :
  (IZR K <= y < IZR K + / 2)%R -> round_half_even y = K.
Proof.
  intros Hy. unfold round_half_even.
  assert (E : Int_part y = K) by (symmetry; apply Int_part_spec; lra).
  rewrite E. unfold Rltb. destruct (Rlt_dec (y - IZR K) (/ 2)); [reflexivity | lra].
Qed.

Lemma Rabs_le_inv (a b : R) : (Rabs a <= b)%R -> (- b <= a <= b)%R.
Proof. unfold Rabs. destruct (Rcase_abs a); lra. Qed.

Lemma ln_2_pos : (0 < ln 2)%R.
Proof. rewrite <- ln_1. apply ln_increasing; lra. Qed.

Lemma pow2_exp (e : Z) : powerRZ 2 e = exp (IZR e * ln 2).
Proof. rewrite powerRZ_Rpower by lra. reflexivity. Qed.

Lemma pow2_pos (e : Z) : (0 < powerRZ 2 e)%R.
Proof. apply powerRZ_lt. lra. Qed.

Lemma pow2_le (a b : Z) : (a <= b)%Z -> (powerRZ 2 a <= powerRZ 2 b)%R.
Proof.
  intros H. rewrite !pow2_exp. apply IZR_le in H. pose proof ln_2_pos.
  destruct (Req_dec (IZR a) (IZR b)) as [->|Hne]; [lra|].
  left. apply exp_increasing. nra.
Qed.

Lemma pow2_lt (a b : Z) : (a < b)%Z -> (powerRZ 2 a < powerRZ 2 b)%R.
Proof.
  intros H. rewrite !pow2_exp. apply IZR_lt in H. pose proof ln_2_pos.
  apply exp_increasing. nra.
Qed.

Lemma pow2_succ (e : Z) : powerRZ 2 (e + 1) = (2 * powerRZ 2 e)%R.
Proof. rewrite powerRZ_add by lra. rewrite powerRZ_1. lra. Qed.

Lemma pow2_m24_le : (powerRZ 2 (-24) <= / 4)%R.
Proof.
  apply Rle_trans with (powerRZ 2 (-2)); [apply pow2_le; lia|].
  unfold powerRZ. replace (Pos.to_nat 2) with 2%nat by reflexivity.
  cbn [pow]. right. field.
Qed.

(** The binade of a positive number. *)
Lemma log2_floor (x : R) :
  (0 < x)%R ->
  (powerRZ 2 (Int_part (ln x / ln 2)) <= x < powerRZ 2 (Int_part (ln x / ln 2) + 1))%R.
Proof.
  intros Hx. pose proof ln_2_pos as H2.
  destruct (base_Int_part (ln x / ln 2)) as [A B].
  set (e := Int_part (ln x / ln 2)) in *.
  assert (Eq : (ln x / ln 2 * ln 2 = ln x)%R) by (field; lra).
  rewrite !pow2_exp, plus_IZR.
  split.
  - apply Rle_trans with (exp (ln x)); [|rewrite exp_ln by exact Hx; lra].
    destruct (Req_dec (IZR e * ln 2) (ln x)) as [->|Hne]; [lra|].
    left. apply exp_increasing. nra.
  - apply Rle_lt_trans with (exp (ln x)); [rewrite exp_ln by exact Hx; lra|].
    apply exp_increasing. nra.
Qed.

Lemma log2_floor_unique (x : R) (e : Z) :
  (powerRZ 2 e <= x < powerRZ 2 (e + 1))%R -> Int_part (ln x / ln 2) = e.
Proof.
  intros [Hlo Hhi].
  assert (Hx : (0 < x)%R) by (pose proof (pow2_pos e); lra).
  destruct (log2_floor Hx) as [A B].
  set (e' := Int_part (ln x / ln 2)) in *.
  destruct (Z_lt_le_dec e e') as [H|H].
  - assert (H' : (e + 1 <= e')%Z) by lia. apply pow2_le in H'. lra.
  - destruct (Z_lt_le_dec e' e) as [H1|H1]; [|lia].
    assert (H' : (e' + 1 <= e)%Z) by lia. apply pow2_le in H'. lra.
Qed.

(** A number of the normal range with [2^e <= x < 2^(e+1)] is rounded to
    the nearest multiple of [2^(e-23)]. *)
Lemma fround_binade (x : R) (e : Z) :
  (-126 <= e <= 127)%Z -> (powerRZ 2 e <= x < powerRZ 2 (e + 1))%R ->
  (Rabs (IZR (round_half_even (x / powerRZ 2 (e - 23))) * powerRZ 2 (e - 23)) < powerRZ 2 128)%R ->
  Math_fround (Fin x)
  = Fin (IZR (round_half_even (x / powerRZ 2 (e - 23))) * powerRZ 2 (e - 23)).
Proof.
  intros He Hx Hr.
  assert (Hpos : (0 < x)%R) by (pose proof (pow2_pos e); lra).
  unfold Math_fround.
  assert (E0 : Reqb x 0 = false) by (apply Reqb_false; lra).
  rewrite E0, (Rabs_pos_eq x) by lra.
  rewrite (@log2_floor_unique x e Hx).
  rewrite Z.max_l by lia.
  assert (E1 : Rleb (powerRZ 2 128)
                 (Rabs (IZR (round_half_even (x / powerRZ 2 (e - 23))) * powerRZ 2 (e - 23)))
               = false) by (apply Rleb_false; lra).
  now rewrite E1.
Qed.

Lemma fround_normal (x : R) :
  (powerRZ 2 (-126) <= x <= powerRZ 2 127)%R ->
  exists r : R,
    Math_fround (Fin x) = Fin r /\ (Rabs (r - x) <= x * powerRZ 2 (-24))%R.
Proof.
  intros [Hlo Hhi].
  assert (Hpos : (0 < x)%R) by (pose proof (pow2_pos (-126)); lra).
  destruct (log2_floor Hpos) as [A B].
  set (e := Int_part (ln x / ln 2)) in *.
  assert (He : (-126 <= e <= 127)%Z).
  { split.
    - destruct (Z_lt_le_dec e (-126)) as [H|H]; [|exact H].
      assert (H' : (e + 1 <= -126)%Z) by lia. apply pow2_le in H'. lra.
    - destruct (Z_lt_le_dec 127 e) as [H|H]; [|exact H].
      apply pow2_lt in H. lra. }
  set (u := powerRZ 2 (e - 23)).
  assert (Hu : (0 < u)%R) by apply pow2_pos.
  assert (Eu : (u = powerRZ 2 e * (2 * powerRZ 2 (-24)))%R).
  { unfold u. replace (e - 23)%Z with (e + (-24 + 1))%Z by lia.
    rewrite powerRZ_add by lra. now rewrite pow2_succ. }
  pose proof (pow2_pos (-24)) as Ht.
  pose proof pow2_m24_le as Ht'.
  pose proof (round_half_even_near (x / u)) as Hk.
  set (k := round_half_even (x / u)) in *.
  assert (Hd : (Rabs (IZR k * u - x) <= u / 2)%R).
  { replace (IZR k * u - x)%R with ((IZR k - x / u) * u)%R by (field; lra).
    rewrite Rabs_mult, (Rabs_pos_eq u) by lra. nra. }
  assert (Hd' : (- (u / 2) <= IZR k * u - x <= u / 2)%R).
  { apply Rabs_le_inv in Hd. exact Hd. }
  assert (H128 : (powerRZ 2 128 = 2 * powerRZ 2 127)%R).
  { replace 128%Z with (127 + 1)%Z by lia. apply pow2_succ. }
  assert (Hue : (u / 2 <= x * powerRZ 2 (-24))%R).
  { rewrite Eu. pose proof (pow2_pos e). nra. }
  exists (IZR k * u)%R. split.
  - apply fround_binade; auto. fold u. fold k.
    apply Rabs_def1; nra.
  - apply Rabs_le. lra.
Qed.

(** Two numbers of the normal range that are a factor [1 + 2^-22] apart
    are rounded to different single-precision numbers. *)
Lemma fround_lt (x y : R) :
  (powerRZ 2 (-126) <= x)%R -> (y <= powerRZ 2 127)%R ->
  (x * (1 + powerRZ 2 (-22)) <= y)%R ->
  exists a b : R,
    Math_fround (Fin x) = Fin a /\ Math_fround (Fin y) = Fin b /\ (a < b)%R.
Proof.
  intros Hx Hy Hxy.
  pose proof (pow2_pos (-126)) as H126. pose proof (pow2_pos (-24)) as Ht.
  pose proof pow2_m24_le as Ht'.
  assert (E22 : (powerRZ 2 (-22) = 4 * powerRZ 2 (-24))%R).
  { replace (-22)%Z with (-24 + 1 + 1)%Z by lia. rewrite !pow2_succ. lra. }
  rewrite E22 in Hxy.
  assert (Hle : (x <= y)%R) by nra.
  destruct (@fround_normal x) as (a & Ea & Ha); [lra|].
  destruct (@fround_normal y) as (b & Eb & Hb); [lra|].
  exists a, b. split; [exact Ea|]. split; [exact Eb|].
  apply Rabs_le_inv in Ha. apply Rabs_le_inv in Hb. nra.
Qed.

Lemma fround_below (x : R) (e K : Z) :
  (-126 <= e <= 127)%Z -> (powerRZ 2 e <= x < powerRZ 2 (e + 1))%R ->
  (IZR K * powerRZ 2 (e - 23) <= x < (IZR K + / 2) * powerRZ 2 (e - 23))%R ->
  Math_fround (Fin x) = Fin (IZR K * powerRZ 2 (e - 23)).
Proof.
  intros He Hx HK.
  set (u := powerRZ 2 (e - 23)) in *.
  assert (Hu : (0 < u)%R) by apply pow2_pos.
  assert (Hpos : (0 < x)%R) by (pose proof (pow2_pos e); lra).
  assert (Ek : round_half_even (x / u) = K).
  { apply round_half_even_below. split.
    - apply Rmult_le_reg_r with u; [lra|]. unfold Rdiv.
      rewrite Rmult_assoc, Rinv_l by lra. lra.
    - apply Rmult_lt_reg_r with u; [lra|]. unfold Rdiv.
      rewrite Rmult_assoc, Rinv_l by lra. lra. }
  assert (HK0 : (0 <= IZR K)%R).
  { assert (H : (IZR (-1) < IZR K)%R) by (cbn; nra). apply lt_IZR in H.
    apply IZR_le. lia. }
  rewrite (@fround_binade x e He Hx); fold u; rewrite Ek; [reflexivity|].
  rewrite Rabs_pos_eq by nra.
  assert (H : (powerRZ 2 (e + 1) <= powerRZ 2 128)%R) by (apply pow2_le; lia).
  lra.
Qed.

Lemma get_store (l : list num) (i : nat) :
  get (Float32Array_store l) i = Math_fround (get l i).
Proof.
  unfold get, Float32Array_store. change NaN with (Math_fround NaN) at 1. apply map_nth.
Qed.

Lemma exp_le (a b : R) : (a <= b)%R -> (exp a <= exp b)%R.
Proof.
  intros H. destruct (Req_dec a b) as [->|Hne]; [lra|].
  left. apply exp_increasing. lra.
Qed.

Lemma ln_le (x y : R) : (0 < x)%R -> (x <= y)%R -> (ln x <= ln y)%R.
Proof.
  intros Hx H. destruct (Req_dec x y) as [->|Hne]; [lra|].
  left. apply ln_increasing; lra.
Qed.

(** *** Band edges *)

(** The edges before the store: each is between [lo] and [hi], and the
    next one is the [n]-th root of [hi / lo] times larger. *)
Lemma logBandEdge_step (n : nat) (lo hi : R) (i : nat) :
  (1 <= n)%nat -> (0 < lo)%R -> (lo <= hi)%R -> (i < n)%nat ->
  exists x : R,
    get (_computeLogBandEdges n (Fin lo) (Fin hi)) i = Fin x
    /\ get (_computeLogBandEdges n (Fin lo) (Fin hi)) (i + 1)
       = Fin (x * exp ((ln hi - ln lo) / INR n))
    /\ (lo <= x)%R /\ (x * exp ((ln hi - ln lo) / INR n) <= hi)%R.
Proof.
  intros Hn Hlo Hle Hi.
  assert (Hhi : (0 < hi)%R) by lra.
  assert (HN : (0 < INR n)%R) by (apply lt_0_INR; lia).
  pose proof ln_10_pos as H10.
  pose proof (ln_le Hlo Hle) as HD.
  rewrite !logBandEdge by (auto; lia).
  eexists. split; [reflexivity|].
  assert (Hi0 : (0 <= INR i)%R) by apply pos_INR.
  assert (Hi1 : (INR i + 1 <= INR n)%R).
  { rewrite <- S_INR. apply le_INR. lia. }
  assert (Hq : (0 <= (ln hi - ln lo) / INR n)%R).
  { apply Rmult_le_pos; [lra|]. left. now apply Rinv_0_lt_compat. }
  repeat split.
  - f_equal. unfold Rpower. rewrite <- exp_plus. f_equal.
    rewrite Nat.add_1_r, S_INR. field. lra.
  - rewrite <- (exp_ln lo Hlo) at 1. unfold Rpower. apply exp_le.
    replace ((ln lo / ln 10 + INR i / INR n * (ln hi / ln 10 - ln lo / ln 10)) * ln 10)%R
      with (ln lo + INR i * ((ln hi - ln lo) / INR n))%R by (field; lra).
    nra.
  - rewrite <- (exp_ln hi Hhi) at 3. unfold Rpower. rewrite <- exp_plus. apply exp_le.
    replace ((ln lo / ln 10 + INR i / INR n * (ln hi / ln 10 - ln lo / ln 10)) * ln 10
             + (ln hi - ln lo) / INR n)%R
      with (ln lo + (INR i + 1) * ((ln hi - ln lo) / INR n))%R by (field; lra).
    replace (ln hi) with (ln lo + INR n * ((ln hi - ln lo) / INR n))%R at 2 by (field; lra).
    nra.
Qed.

(** C5 (as stated, refuted): with [lo = 1000] and [hi = 1000 + 2^-13], a
    quarter of the spacing of the single-precision numbers around 1000
    apart per band, the edge of index 1 is rounded to 1000 when it is
    stored, like the edge of index 0: the two are equal, not strictly
    increasing. *)
Lemma close_band_edges_collapse :
  let edges := stored_band_edges 8 (Fin 1000) (Fin (1000 + / 8192)) in
  (0 < 1000 < 1000 + / 8192)%R
  /\ get edges 0 = Fin 1000
  /\ get edges 1 = Fin 1000
  /\ (get edges 0 <? get edges 1) = false.
Proof.
  intros edges.
  assert (E9 : (powerRZ 2 9 = 512)%R) by (change (powerRZ 2 9) with (2 ^ 9)%R; lra).
  assert (E10 : (powerRZ 2 (9 + 1) = 1024)%R)
    by (change (powerRZ 2 (9 + 1)) with (2 ^ 10)%R; lra).
  assert (Eu : (powerRZ 2 (9 - 23) = / 16384)%R).
  { change (powerRZ 2 (9 - 23)) with (/ 2 ^ 14)%R. f_equal. lra. }
  assert (R1000 : forall x : R, (1000 <= x < 1000 + / 32768)%R ->
                                Math_fround (Fin x) = Fin 1000).
  { intros x Hx.
    rewrite (@fround_below x 9 16384000); [rewrite Eu; f_equal; lra | lia | lra |].
    rewrite Eu. lra. }
  assert (E0 : get edges 0 = Fin 1000).
  { unfold edges, stored_band_edges. rewrite get_store.
    rewrite logBandEdge_first by (lra || lia). apply R1000. lra. }
  assert (E1 : get edges 1 = Fin 1000).
  { unfold edges, stored_band_edges. rewrite get_store.
    destruct (@logBandEdge_step 8 1000 (1000 + / 8192) 0) as (x & Ex & Ey & _);
      try lra; try lia.
    rewrite logBandEdge_first in Ex by (lra || lia). injection Ex as <-.
    cbn [Nat.add] in Ey. rewrite Ey. apply R1000.
    set (z := (ln (1000 + / 8192) - ln 1000)%R).
    assert (Hz0 : (0 < z)%R).
    { unfold z. assert (H : (ln 1000 < ln (1000 + / 8192))%R)
        by (apply ln_increasing; lra). lra. }
    assert (Hz1 : (z < / 8192000)%R).
    { unfold z.
      replace (1000 + / 8192)%R with (1000 * (1 + / 8192000))%R by (field; lra).
      rewrite ln_mult by lra.
      assert (H : (ln (1 + / 8192000) < ln (exp (/ 8192000)))%R).
      { apply ln_increasing; [lra|]. apply exp_ineq1. lra. }
      rewrite ln_exp in H. lra. }
    assert (E8 : INR 8 = 8%R) by (rewrite INR_IZR_INZ; reflexivity).
    rewrite E8.
    assert (Hw0 : (1 < exp (z / 8))%R).
    { rewrite <- exp_0. apply exp_increasing. lra. }
    assert (Hw1 : (exp (z / 8) * (1 - / 65536000) < 1)%R).
    { assert (Hlt : (exp (z / 8) < exp (/ 65536000))%R) by (apply exp_increasing; lra).
      pose proof (exp_ineq1_le (- / 65536000)) as Hm.
      assert (Hprod : (exp (/ 65536000) * exp (- / 65536000) = 1)%R).
      { rewrite <- exp_plus. replace (/ 65536000 + - / 65536000)%R with 0%R by lra.
        apply exp_0. }
      pose proof (exp_pos (/ 65536000)) as Hp.
      nra. }
    lra. }
  split; [lra|]. split; [exact E0|]. split; [exact E1|].
  rewrite E0, E1. apply Rltb_false. lra.
Qed.

Lemma pow_le_exp (d : R) (n : nat) : (0 <= d)%R -> ((1 + d) ^ n <= exp (INR n * d))%R.
Proof.
  intros Hd. induction n as [|n IH].
  - cbn. rewrite Rmult_0_l, exp_0. lra.
  - rewrite S_INR. replace ((INR n + 1) * d)%R with (d + INR n * d)%R by lra.
    rewrite exp_plus. cbn [pow].
    pose proof (exp_ineq1_le d) as H1.
    assert (H0 : (0 <= (1 + d) ^ n)%R) by (apply pow_le; lra).
    pose proof (exp_pos (INR n * d)). nra.
Qed.

(** The [n]-th root of [hi / lo] is at least [1 + d] when [hi / lo] is at
    least [(1 + d) ^ n]. *)
Lemma root_ge (d lo hi : R) (n : nat) :
  (1 <= n)%nat -> (0 <= d)%R -> (0 < lo)%R -> ((1 + d) ^ n * lo <= hi)%R ->
  (lo <= hi)%R /\ (1 + d <= exp ((ln hi - ln lo) / INR n))%R.
Proof.
  intros Hn Hd Hlo H.
  assert (HN : (0 < INR n)%R) by (apply lt_0_INR; lia).
  assert (Hp : (1 <= (1 + d) ^ n)%R) by (apply pow_R1_Rle; lra).
  split; [nra|].
  assert (Hl : (ln ((1 + d) ^ n * lo) <= ln hi)%R) by (apply ln_le; nra).
  rewrite ln_mult, ln_pow in Hl by lra.
  rewrite <- (exp_ln (1 + d)) at 1 by lra. apply exp_le.
  apply Rmult_le_reg_r with (INR n); [exact HN|].
  unfold Rdiv. rewrite Rmult_assoc, Rinv_l by lra. lra.
Qed.



(* ====================================================================== *)
(** ** A second call with [dt = 0] *)
(* ====================================================================== *)

Lemma lerp_coeff_0 (a b : num) (z : R) :
  finite a -> finite b -> z = 0%R -> a + (b - a) * Fin z = a.
Proof.
  intros Ha Hb ->. fin_cases. unfold sub. cbn [opp add mul]. f_equal. lra.
Qed.

Lemma exp_coeff_0 (tau : R) :
  tau <> 0%R -> exists z : R, 1 - Math_exp (- Fin 0 / Fin tau) = Fin z /\ z = 0%R.
Proof.
  intros Ht. cbn [opp]. rewrite div_Fin by exact Ht. unfold sub. cbn [Math_exp opp add].
  eexists; split; [reflexivity|].
  replace (- 0 / tau)%R with 0%R by (field; exact Ht). rewrite exp_0. lra.
Qed.

Lemma pow_coeff_0 (k : R) : 1 - Math_pow 0.001 (Fin 0 * Fin k) = Fin (1 + - 1).
Proof.
  cbn [mul Math_pow]. assert (E : Reqb (0 * k) 0 = true) by (apply Reqb_true; lra).
  now rewrite E.
Qed.

Lemma updateEnv_dt_0 (current target : num) (ka kr : R) :
  finite current -> finite target ->
  updateEnv current target (1 - Math_pow 0.001 (Fin 0 * Fin ka))
            (1 - Math_pow 0.001 (Fin 0 * Fin kr)) = current.
Proof.
  intros Hc Ht. unfold updateEnv. rewrite !pow_coeff_0.
  destruct (_ >? _); apply lerp_coeff_0; auto; lra.
Qed.

(** Right after a channel fired, a call with [dt = 0] cannot fire it. *)
Lemma call_onset_cooldown (c : channel) (s : AudioAnalyzer) (fr : frame) :
  dt fr = Fin 0 -> finite (_tMs s) -> last_onset_of c s = _tMs s ->
  call_onset c s fr = Fin 0.
Proof.
  intros Hdt Ht Hlast. unfold call_onset. rewrite Hdt.
  destruct (finite_inv Ht) as [t Et].
  assert (Hnow : forall cd : R, (0 <= cd)%R ->
             ((_tMs s + Fin 0 * 1000 - _tMs s) >? Fin cd) = false).
  { intros cd Hcd. rewrite Et. unfold gtb, sub. cbn [mul add opp ltb].
    apply Rltb_false. lra. }
  destruct c; cbn [last_onset_of] in Hlast;
    unfold fired_kick, fired_snare, fired_hihat, fired_global, trigOnset;
    rewrite Hlast, Hnow by lra; now rewrite andb_false_r.
Qed.

Lemma tMs_analyze (s : AudioAnalyzer) (fr : frame) :
  _tMs (snd (analyze_frame s fr)) = _tMs s + dt fr * 1000.
Proof. reflexivity. Qed.

Lemma rmsSmooth_dt_0 (s : AudioAnalyzer) (fr : frame) :
  analyzer_ok s -> dt fr = Fin 0 ->
  rmsSmooth (snd (analyze_frame s fr)) = rmsSmooth s.
Proof.
  intros Ok Hdt. unfold analyze_frame, analyze. cbn [snd rmsSmooth]. rewrite Hdt.
  destruct (@analyze_rms_ok s (timeData fr) (ok_rms Ok) (ok_harmonicRatio Ok)) as [Hr _].
  apply nonneg_finite in Hr. pose proof (ok_rmsSmooth Ok) as Hs.
  destruct (@exp_coeff_0 0.005) as (z1 & -> & Hz1); [lra|].
  destruct (@exp_coeff_0 0.15) as (z2 & -> & Hz2); [lra|].
  destruct (_ >? _); now apply lerp_coeff_0.
Qed.

Lemma envelopes_dt_0 (s : AudioAnalyzer) (fr : frame) :
  analyzer_ok s -> wf_frame fr -> dt fr = Fin 0 ->
  let s' := snd (analyze_frame s fr) in
  smoothSubBass s' = smoothSubBass s
  /\ smoothBass s' = smoothBass s
  /\ smoothLowMid s' = smoothLowMid s
  /\ smoothMid s' = smoothMid s
  /\ smoothHighMid s' = smoothHighMid s
  /\ smoothHigh s' = smoothHigh s
  /\ smoothBrilliance s' = smoothBrilliance s.
Proof.
  intros Ok [_ Halpha] Hdt s'. subst s'.
  unfold analyze_frame, analyze.
  cbn [snd smoothSubBass smoothBass smoothLowMid smoothMid smoothHighMid smoothHigh
       smoothBrilliance].
  rewrite Hdt.
  set (alpha := match smoothingAlpha fr with Some a => a | None => Fin 0.18 end).
  assert (Ha : isNaN alpha = false).
  { unfold alpha. destruct (smoothingAlpha fr); auto. }
  pose proof (@analyze_bandValues_finite s (freqData fr) alpha (ok_fftSmooth Ok) Ha) as Hvals.
  pose proof (analyze_bandValues_length s (freqData fr) alpha) as Hvlen.
  assert (Hraw : forall a b, (a <= b)%nat ->
             finite (computeBandEnergy (bands s)
                       (analyze_bandValues s (freqData fr) alpha) a b)).
  { intros a b Hab. now apply computeBandEnergy_finite. }
  destruct Ok.
  repeat split; apply updateEnv_dt_0; auto; apply Hraw; lia.
Qed.

(** *** The full-scale frame, bin by bin *)

Lemma Rpower_1_l (y : R) : Rpower 1 y = 1%R.
Proof. unfold Rpower. now rewrite ln_1, Rmult_0_r, exp_0. Qed.

Lemma smooth_bin_loud (c : R) :
  (c < 1)%R ->
  smooth_bin (clamp 0.18 0.05 0.4) "255"%byte (Fin c) = Fin (c + (1 - c) * 0.45).
Proof.
  intros Hc. unfold smooth_bin.
  assert (El : Math_pow (byte_num "255"%byte / 255) 1.2 = Fin 1).
  { unfold byte_num, of_Z. cbn [Byte.to_N Z.of_N]. rewrite div_Fin by lra.
    replace (255 / 255)%R with 1%R by lra. cbn. rdec. now rewrite Rpower_1_l. }
  rewrite El. unfold gtb. cbn [ltb].
  assert (E : Rltb c 1 = true) by now apply Rltb_true.
  rewrite E, clamp_Fin. cbn [mul]. rewrite Math_min_Fin, lerp_Fin. f_equal.
  rewrite (Rmax_right 0.05 0.18) by lra. rewrite (Rmin_right 0.4 0.18) by lra.
  rewrite Rmin_left by lra. lra.
Qed.

Lemma combine_repeat (A B : Type) (a : A) (b : B) (n : nat) :
  combine (repeat a n) (repeat b n) = repeat (a, b) n.
Proof. induction n; cbn; congruence. Qed.

Lemma get_repeat (x : num) (n i : nat) : (i < n)%nat -> get (repeat x n) i = x.
Proof.
  intros Hi. unfold get. apply nth_repeat_lt; auto.
Qed.

(** The smoothed bins after a call with every bin at 255, when they were
    all [c] before (all 0 when the array is allocated by the call). *)
Lemma analyze_fft_loud (s : AudioAnalyzer) (N : nat) (c : R) :
  (c < 1)%R ->
  _fftSmooth s = Some (repeat (Fin c) N) \/ (_fftSmooth s = None /\ c = 0%R) ->
  analyze_fft s (repeat "255"%byte N) 0.18 = repeat (Fin (c + (1 - c) * 0.45)) N.
Proof.
  intros Hc Hs. unfold analyze_fft. rewrite repeat_length.
  assert (E : _ensureFftSmooth (_fftSmooth s) N = repeat (Fin c) N).
  { destruct Hs as [->|[-> ->]]; cbn [_ensureFftSmooth].
    - now rewrite repeat_length, Nat.eqb_refl.
    - reflexivity. }
  rewrite E, combine_repeat, map_repeat. cbn [fst snd].
  now rewrite smooth_bin_loud.
Qed.

(** A band with at least one bin, over bins that all hold [c], has value
    [c]. *)
Lemma band_value_const (N : nat) (c : R) (hzPerBin lowHz highHz : num) :
  for_range (Math_max 1 (Math_floor (lowHz / hzPerBin)))
            (Math_min (of_nat N - 1) (Math_ceil (highHz / hzPerBin))) <> [] ->
  band_value (repeat (Fin c) N) hzPerBin lowHz highHz = Fin c.
Proof.
  intros Hne. unfold band_value. rewrite repeat_length.
  set (startBin := Math_max 1 _) in *. set (endBin := Math_min (of_nat N - 1) _) in *.
  assert (Hin : forall i, In i (for_range startBin endBin) -> (i < N)%nat).
  { intros i Hi. destruct (for_range_bound _ _ _ Hi) as (x & y & Ex & Ey & Hb).
    apply Math_max_Fin_l in Ex.
    unfold endBin, of_nat, sub in Ey. cbn [opp add] in Ey.
    apply Math_min_Fin_l in Ey.
    assert (Hiy : (INR i <= y)%R) by (apply Hb; lra).
    apply INR_lt. lra. }
  assert (Hinv : forall l vw w,
             (forall i, In i l -> (i < N)%nat) ->
             vw = (Fin (c * w), Fin w) -> (0 <= w)%R ->
             exists w', fold_left (bin_step (repeat (Fin c) N) N) l vw = (Fin (c * w'), Fin w')
                        /\ (w + INR (List.length l) <= w')%R).
  { induction l as [|i l IH]; intros vw w Hl -> Hw; cbn [fold_left List.length].
    - exists w. split; auto. cbn; lra.
    - assert (Hi : (i < N)%nat) by (apply Hl; now left).
      assert (HN : INR N <> 0%R) by (apply not_0_INR; lia).
      assert (Hq : (0 <= INR i / INR N)%R).
      { apply Rmult_le_pos; [apply pos_INR|].
        left; apply Rinv_0_lt_compat. pose proof (pos_INR N); lra. }
      destruct (IH (bin_step (repeat (Fin c) N) N (Fin (c * w), Fin w) i)
                   (w + (1.0 + INR i / INR N * 0.5))%R) as (w' & E & Hw').
      + intros j Hj. apply Hl. now right.
      + unfold bin_step. cbn [fst snd]. rewrite get_repeat by exact Hi.
        unfold of_nat. rewrite div_Fin by exact HN. cbn [mul add].
        f_equal; f_equal; lra.
      + lra.
      + exists w'. split; auto.
        rewrite S_INR. lra. }
  destruct (Hinv (for_range startBin endBin) (Fin 0, Fin 0) 0%R) as (w & -> & Hw); auto.
  - f_equal. f_equal. lra.
  - lra.
  - cbn [fst snd]. assert (Hlen : (1 <= INR (List.length (for_range startBin endBin)))%R).
    { destruct (for_range startBin endBin) as [|i l]; [contradiction|].
      cbn [List.length]. rewrite S_INR. pose proof (pos_INR (List.length l)). lra. }
    unfold gtb. cbn [ltb].
    assert (E : Rltb 0 w = true) by (apply Rltb_true; lra).
    rewrite E, div_Fin by lra. f_equal. field. lra.
Qed.

Lemma for_range_nonempty (x y : R) :
  (0 <= x)%R -> (x <= y)%R -> for_range (Fin x) (Fin y) <> [].
Proof.
  intros Hx Hxy. unfold for_range.
  assert (E : Rleb x y = true) by now apply Rleb_true.
  rewrite E.
  assert (Hq : (0 <= Int_part (y - x))%Z) by (apply Int_part_nonneg; lra).
  replace (Z.to_nat (Int_part (y - x) + 1)) with (S (Z.to_nat (Int_part (y - x)))) by lia.
  cbn [seq]. discriminate.
Qed.

(** Band 0 of the analyzer as constructed (edges from 20 Hz, 48000 / 8192 Hz
    per bin) starts at bin 3 and holds at least one of the [N >= 5]
    bins. *)
Lemma band0_has_bins (N : nat) :
  (5 <= N)%nat ->
  let edges := _computeLogBandEdges 64 20 20000 in
  for_range (Math_max 1 (Math_floor (get edges 0 / (Fin 48000 / Fin 8192))))
            (Math_min (of_nat N - 1) (Math_ceil (get edges 1 / (Fin 48000 / Fin 8192))))
    <> [].
Proof.
  intros HN edges. unfold edges.
  destruct (@logBandEdge_lt 64 20 20000 0) as (x & y & Ex & Ey & Hxy); try lra; try lia.
  rewrite logBandEdge_first in Ex by (lra || lia). injection Ex as <-.
  rewrite logBandEdge_first by (lra || lia). cbn [Nat.add] in Ey. rewrite Ey.
  rewrite (@div_Fin 48000 8192) by lra.
  rewrite !div_Fin by lra.
  cbn [Math_floor Math_ceil].
  assert (E3 : Int_part (20 / (48000 / 8192)) = 3%Z).
  { symmetry. apply Int_part_spec. lra. }
  rewrite E3, Math_max_Fin.
  unfold of_nat, sub. cbn [opp add]. rewrite Math_min_Fin.
  rewrite Rmax_right by lra.
  apply for_range_nonempty; [lra|].
  apply Rmin_glb.
  - assert (H5 : (INR 5 <= INR N)%R) by now apply le_INR.
    cbn [INR] in H5. lra.
  - destruct (base_Int_part (- (y / (48000 / 8192)))) as [H1 H2].
    assert (Hq : (20 / (48000 / 8192) < y / (48000 / 8192))%R).
    { unfold Rdiv. apply Rmult_lt_compat_r; [|exact Hxy].
      apply Rinv_0_lt_compat. lra. }
    assert (Hz : (IZR 3 < IZR (- Int_part (- (y / (48000 / 8192)))))%R).
    { rewrite opp_IZR. lra. }
    apply lt_IZR in Hz. apply IZR_le. lia.
Qed.

Lemma loud_band0 (s : AudioAnalyzer) (c : R) :
  (c < 1)%R ->
  bands s = 64%nat ->
  bandEdges s = _computeLogBandEdges 64 20 20000 ->
  sampleRate s = Fin 48000 -> fftSize s = Fin 8192 ->
  _fftSmooth s = Some (repeat (Fin c) 4096) \/ (_fftSmooth s = None /\ c = 0%R) ->
  let s' := snd (analyze_frame s loud_frame) in
  _fftSmooth s' = Some (repeat (Fin (c + (1 - c) * 0.45)) 4096)
  /\ get (bandValues s') 0 = Fin (c + (1 - c) * 0.45)
  /\ get (bandPeaks s') 0 = Math_max (get (bandPeaks s) 0 * 0.97) (Fin (c + (1 - c) * 0.45)).
Proof.
  intros Hc Hb He Hsr Hfs Hfft s'.
  assert (Efft : analyze_fft s (repeat "255"%byte 4096) 0.18
                 = repeat (Fin (c + (1 - c) * 0.45)) 4096)
    by now apply analyze_fft_loud.
  assert (Ev : get (bandValues s') 0 = Fin (c + (1 - c) * 0.45)).
  { unfold s'. rewrite bandValues_analyze. cbn [loud_frame freqData smoothingAlpha].
    unfold analyze_bandValues. rewrite get_tabulate by lia.
    rewrite Efft, He, Hsr, Hfs. apply band_value_const.
    apply band0_has_bins. lia. }
  repeat split.
  - unfold s', analyze_frame, analyze. cbn [snd _fftSmooth loud_frame freqData smoothingAlpha].
    now rewrite Efft.
  - exact Ev.
  - unfold s'. rewrite bandPeaks_analyze. fold s'.
    unfold analyze_bandPeaks. rewrite get_tabulate by lia. now rewrite Ev.
Qed.




(* ====================================================================== *)
(** ** The lockout countdown in IEEE 754 doubles *)
(* ====================================================================== *)

(** With binary64 rounding the countdown is the same: from an expired
    lockout, 60 calls at [dt = 1/60] with [onsetKick = 1] and
    [smoothness = 0] trigger on calls 1, 10, 19, 28, 37, 46 and 55 (the
    ninth subtraction of [dt * 1000] leaves a negative number, which
    [Math.max] replaces by 0). *)
Lemma lockout_trace_in_doubles :
  Binary64.one_second_at_60 = countdown_trace 0 60
  /\ count_occ bool_dec Binary64.one_second_at_60 true = 7%nat.
Proof. split; vm_compute; reflexivity. Qed.

(* ====================================================================== *)
(** ** A run in which beats fire *)
(* ====================================================================== *)

(** *** Uniform spectra *)

Lemma smooth_bin_silent (c : R) :
  (0 <= c)%R ->
  smooth_bin (clamp 0.18 0.05 0.4) "000"%byte (Fin c) = Fin (c * 0.82).
Proof.
  intros Hc. unfold smooth_bin.
  assert (El : Math_pow (byte_num "000"%byte / 255) 1.2 = Fin 0).
  { unfold byte_num, of_Z. cbn [Byte.to_N Z.of_N]. rewrite div_Fin by lra.
    replace (0 / 255)%R with 0%R by lra. cbn. rdec. }
  rewrite El. unfold gtb. cbn [ltb].
  assert (E : Rltb c 0 = false) by now apply Rltb_false.
  rewrite E, clamp_Fin, lerp_Fin. f_equal.
  rewrite (Rmax_right 0.05 0.18) by lra. rewrite (Rmin_right 0.4 0.18) by lra. lra.
Qed.

Lemma analyze_fft_silent (s : AudioAnalyzer) (N : nat) (c : R) :
  (0 <= c)%R ->
  _fftSmooth s = Some (repeat (Fin c) N) \/ (_fftSmooth s = None /\ c = 0%R) ->
  analyze_fft s (repeat "000"%byte N) 0.18 = repeat (Fin (c * 0.82)) N.
Proof.
  intros Hc Hs. unfold analyze_fft. rewrite repeat_length.
  assert (E : _ensureFftSmooth (_fftSmooth s) N = repeat (Fin c) N).
  { destruct Hs as [->|[-> ->]]; cbn [_ensureFftSmooth].
    - now rewrite repeat_length, Nat.eqb_refl.
    - reflexivity. }
  rewrite E, combine_repeat, map_repeat. cbn [fst snd].
  now rewrite smooth_bin_silent.
Qed.

Lemma band_value_level (c : R) (b : nat) :
  band_value (repeat (Fin c) 4096) (Fin 48000 / Fin 8192)
             (get (_computeLogBandEdges 64 20 20000) b)
             (get (_computeLogBandEdges 64 20 20000) (b + 1))
  = Fin (band_level c b).
Proof.
  unfold band_level, band_bins.
  destruct (for_range _ _) as [|i l] eqn:E.
  - unfold band_value. rewrite repeat_length, E. cbn. rdec.
  - apply band_value_const. rewrite E. discriminate.
Qed.

(** The band values of a call on a uniform analyzer whose bins the call
    leaves at [c']. *)
Lemma uniform_bandValues (s : AudioAnalyzer) (c c' : R) (level : byte) (b : nat) :
  uniform s c ->
  analyze_fft s (repeat level 4096) 0.18 = repeat (Fin c') 4096 ->
  (b < 64)%nat ->
  get (analyze_bandValues s (repeat level 4096) 0.18) b = Fin (band_level c' b).
Proof.
  intros U Efft Hb. unfold analyze_bandValues.
  rewrite (u_bands U), get_tabulate by lia.
  rewrite Efft, (u_edges U), (u_rate U), (u_size U). apply band_value_level.
Qed.

Lemma band_level_0 (b : nat) : band_level 0 b = 0%R.
Proof. unfold band_level. now destruct (band_bins b). Qed.

Lemma band_level_le (c c' : R) (b : nat) :
  (c' <= c)%R -> (band_level c' b <= band_level c b)%R.
Proof. intros H. unfold band_level. destruct (band_bins b); lra. Qed.

Lemma band_level_band0 (c : R) : band_level c 0 = c.
Proof.
  unfold band_level, band_bins.
  pose proof (@band0_has_bins 4096) as H. cbn zeta in H.
  destruct (for_range _ _); [|reflexivity].
  exfalso. apply H; [lia | reflexivity].
Qed.

Lemma new_uniform : uniform new_AudioAnalyzer 0.
Proof.
  constructor; try reflexivity.
  - right; split; reflexivity.
  - intros b Hb. rewrite band_level_0. cbn [new_AudioAnalyzer prevBandValues].
    unfold Float32Array. now apply get_repeat.
Qed.

(** A call with a uniform frame keeps the analyzer uniform. *)
Lemma uniform_step (s : AudioAnalyzer) (c c' : R) (level : byte) (d : R) :
  uniform s c ->
  analyze_fft s (repeat level 4096) 0.18 = repeat (Fin c') 4096 ->
  uniform (snd (analyze_frame s (uniform_frame level d))) c'.
Proof.
  intros U Efft. pose proof U as [Ub Ue Ur Us Uf Up].
  constructor; try assumption.
  - unfold analyze_frame, analyze, uniform_frame.
    cbn [snd _fftSmooth freqData smoothingAlpha]. left. now rewrite Efft.
  - intros b Hb. unfold analyze_frame, analyze, uniform_frame.
    cbn [snd prevBandValues freqData smoothingAlpha].
    rewrite Ub, get_tabulate by lia. exact (@uniform_bandValues s c c' level b U Efft Hb).
Qed.

(** *** The kick flux of a uniform frame *)

Lemma ln_10_lt_9 : (ln 10 < 9)%R.
Proof.
  rewrite <- (ln_exp 9). apply ln_increasing; [lra|].
  pose proof (exp_ineq1 9). lra.
Qed.

(** The second edge of the constructor, [20 * 1000 ^ (1/64)], is below 60. *)
Lemma band0_upper_edge :
  exists e : R, get (_computeLogBandEdges 64 20 20000) 1 = Fin e /\ (20 < e < 60)%R.
Proof.
  rewrite logBandEdge by (lra || lia).
  eexists; split; [reflexivity|].
  pose proof ln_10_pos as H10. pose proof ln_10_lt_9 as H9.
  assert (E1000 : ln 20000 = (ln 20 + 3 * ln 10)%R).
  { replace 20000%R with (20 * (10 * (10 * 10)))%R by lra.
    rewrite !ln_mult by lra. lra. }
  assert (E1 : INR 1 = 1%R) by reflexivity.
  assert (E64 : INR 64 = 64%R) by (rewrite INR_IZR_INZ; reflexivity).
  rewrite E1, E64, E1000. unfold Rpower.
  replace ((ln 20 / ln 10 + 1 / 64 * ((ln 20 + 3 * ln 10) / ln 10 - ln 20 / ln 10)) * ln 10)%R
    with (ln 20 + 3 * ln 10 / 64)%R by (field; lra).
  rewrite exp_plus, exp_ln by lra.
  assert (Hz : (exp (3 * ln 10 / 64) < exp 1)%R) by (apply exp_increasing; lra).
  assert (Hz0 : (exp 0 < exp (3 * ln 10 / 64))%R) by (apply exp_increasing; lra).
  rewrite exp_0 in Hz0.
  pose proof exp_le_3. split; nra.
Qed.

Lemma band0_center :
  exists h : R, band_center (_computeLogBandEdges 64 20 20000) 0 = Fin h /\ (h < 150)%R.
Proof.
  destruct band0_upper_edge as (e & Ee & He).
  unfold band_center. cbn [Nat.add].
  rewrite logBandEdge_first by (lra || lia). rewrite Ee. cbn [add].
  rewrite div_Fin by lra. eexists; split; [reflexivity|]. lra.
Qed.

Lemma flux_add_fluxKick (hz rectified : num) (acc : flux_sums) (k r : R) :
  fluxKick acc = Fin k -> rectified = Fin r -> (0 <= r)%R ->
  exists k' : R,
    fluxKick (flux_add hz rectified acc) = Fin k'
    /\ (k <= k')%R /\ (r = 0%R -> k' = k).
Proof.
  intros Ek Er Hr. unfold flux_add. rewrite Ek, Er.
  repeat match goal with |- context [if ?c then _ else _] => destruct c end;
    cbn [fluxKick mul add]; eexists; (split; [reflexivity|]); split; try lra; intros; subst; lra.
Qed.

Lemma fluxKick_fold (edges vals prev : list num) (l : list nat) :
  forall (acc : flux_sums) (k : R),
    fluxKick acc = Fin k ->
    (forall b, In b l -> exists p : R, band_pos vals prev b = Fin p /\ (0 <= p)%R) ->
    exists k' : R,
      fluxKick (fold_left (flux_step edges vals prev) l acc) = Fin k'
      /\ (k <= k')%R
      /\ ((forall b, In b l -> band_pos vals prev b = Fin 0) -> k' = k).
Proof.
  induction l as [|b l IH]; intros acc k Ek Hp; cbn [fold_left].
  - exists k. repeat split; auto; lra.
  - destruct (Hp b) as (p & Epos & Hpos); [now left|].
    destruct (@flux_add_fluxKick (band_center edges b) (Fin p * Fin p) acc k (p * p)%R)
      as (k1 & E1 & H1 & Z1); auto; [nra|].
    destruct (IH (flux_step edges vals prev acc b) k1) as (k2 & E2 & H2 & Z2).
    + unfold flux_step. now rewrite Epos.
    + intros b' Hb'. apply Hp. now right.
    + exists k2. split; [exact E2|]. split; [lra|].
      intros Hz. rewrite Z2 by (intros b' Hb'; apply Hz; now right).
      apply Z1. assert (E0 : Fin p = Fin 0) by (rewrite <- Epos; apply Hz; now left).
      injection E0 as ->. lra.
Qed.

(** The rectified delta of a band between two uniform spectra. *)
Lemma uniform_band_pos (vals prev : list num) (c c' : R) (b : nat) :
  get vals b = Fin (band_level c' b) -> get prev b = Fin (band_level c b) ->
  band_pos vals prev b = Fin (Rmax 0 (band_level c' b - band_level c b)).
Proof.
  intros Ev Ep. unfold band_pos. rewrite Ev, Ep. unfold sub. cbn [opp add].
  now rewrite Math_max_Fin.
Qed.

(** The kick flux of a call on a uniform analyzer whose bins go from [c] to
    [c']: 0 when the bins fall, at least [sqrt 2 * (c' - c)] when they
    rise. *)
Lemma uniform_fluxKick (s : AudioAnalyzer) (c c' : R) (level : byte) :
  uniform s c ->
  analyze_fft s (repeat level 4096) 0.18 = repeat (Fin c') 4096 ->
  exists f : R,
    fluxKick (flux_sqrt (flux_loop s (analyze_bandValues s (repeat level 4096) 0.18))) = Fin f
    /\ (0 <= f)%R
    /\ ((c' <= c)%R -> f = 0%R)
    /\ ((c <= c')%R -> (2 * (c' - c) * (c' - c) <= f * f)%R).
Proof.
  intros U Efft.
  set (vals := analyze_bandValues s (repeat level 4096) 0.18).
  assert (Hpos : forall b, (b < 64)%nat ->
             band_pos vals (prevBandValues s) b
             = Fin (Rmax 0 (band_level c' b - band_level c b))).
  { intros b Hb. apply uniform_band_pos.
    - exact (@uniform_bandValues s c c' level b U Efft Hb).
    - now apply (u_prev U). }
  unfold flux_loop. rewrite (u_bands U), (u_edges U).
  change (seq 0 64) with (0%nat :: seq 1 63). cbn [fold_left].
  destruct band0_center as (h & Eh & Hh).
  set (p0 := Rmax 0 (band_level c' 0 - band_level c 0)).
  assert (Hp0 : (0 <= p0)%R) by apply Rmax_l.
  assert (E0 : fluxKick (flux_step (_computeLogBandEdges 64 20 20000) vals
                           (prevBandValues s) flux_zero 0) = Fin (0 + p0 * p0 * 2.0)).
  { unfold flux_step. rewrite Hpos by lia. fold p0. rewrite Eh. unfold flux_add.
    assert (E : (Fin h <? 150) = true) by now apply ltb_Fin.
    rewrite E. reflexivity. }
  destruct (@fluxKick_fold (_computeLogBandEdges 64 20 20000) vals (prevBandValues s)
              (seq 1 63) _ _ E0) as (K & EK & HK & ZK).
  { intros b Hb. apply in_seq in Hb. rewrite Hpos by lia.
    eexists; split; [reflexivity | apply Rmax_l]. }
  assert (HK0 : (0 <= K)%R) by nra.
  exists (sqrt K). unfold flux_sqrt. cbn [fluxKick]. rewrite EK. cbn [Math_sqrt].
  assert (E : Rltb K 0 = false) by now apply Rltb_false.
  rewrite E. split; [reflexivity|]. split; [apply sqrt_pos|]. split.
  - intros Hle.
    assert (Hz : forall b, (band_level c' b - band_level c b <= 0)%R).
    { intros b. pose proof (band_level_le b Hle). lra. }
    assert (Ep0 : p0 = 0%R) by (unfold p0; apply Rmax_left, Hz).
    rewrite ZK.
    + rewrite Ep0. replace (0 + 0 * 0 * 2.0)%R with 0%R by lra. apply sqrt_0.
    + intros b Hb. apply in_seq in Hb. rewrite Hpos by lia. f_equal.
      apply Rmax_left, Hz.
  - intros Hle. rewrite sqrt_sqrt by exact HK0.
    assert (Ep0 : p0 = (c' - c)%R).
    { unfold p0. rewrite !band_level_band0. apply Rmax_right. lra. }
    rewrite Ep0 in HK. lra.
Qed.

(** *** Histories whose entries are mostly 0 *)

Lemma eqb_Fin_0 (r : R) : (Fin r =? 0) = true <-> r = 0%R.
Proof. unfold eqb. apply Reqb_true. Qed.

Lemma zeros_app (l l' : list num) : zeros (l ++ l') = (zeros l + zeros l')%nat.
Proof. unfold zeros. now rewrite filter_app, length_app. Qed.

Lemma zeros_le_length (l : list num) : (zeros l <= List.length l)%nat.
Proof. unfold zeros. apply filter_length_le. Qed.

Lemma insert_sorted_zero (l : list num) :
  Forall nonneg l -> insert_sorted (Fin 0) l = Fin 0 :: l.
Proof.
  intros Hl. destruct l as [|y t]; [reflexivity|].
  apply Forall_inv in Hl. destruct Hl as (r & -> & Hr).
  cbn [insert_sorted].
  assert (E : (Fin 0 <=? Fin r) = true) by now apply leb_Fin.
  now rewrite E.
Qed.

Lemma insert_sorted_past_zeros (x : R) (z : nat) (rest : list num) :
  (0 < x)%R ->
  insert_sorted (Fin x) (repeat (Fin 0) z ++ rest)
  = repeat (Fin 0) z ++ insert_sorted (Fin x) rest.
Proof.
  intros Hx. induction z as [|z IH]; [reflexivity|].
  cbn [repeat app insert_sorted].
  assert (E : (Fin x <=? Fin 0) = false).
  { destruct (Fin x <=? Fin 0) eqn:E; auto. apply leb_Fin in E. lra. }
  now rewrite E, IH.
Qed.

(** Sorting a history of non-negative numbers puts its zeros in front. *)
Lemma sort_ascending_zeros (l : list num) :
  Forall nonneg l ->
  exists rest : list num,
    sort_ascending l = repeat (Fin 0) (zeros l) ++ rest /\ Forall nonneg rest.
Proof.
  induction 1 as [|x l Hx Hl (rest & E & Hrest)].
  - exists []. split; [reflexivity | constructor].
  - destruct Hx as (r & -> & Hr).
    unfold sort_ascending in *. cbn [fold_right]. rewrite E.
    unfold zeros. cbn [filter].
    destruct (Fin r =? 0) eqn:E0.
    + apply eqb_Fin_0 in E0. subst r. exists rest. split; auto.
      rewrite insert_sorted_zero; [reflexivity|].
      apply Forall_app. split; auto.
      apply Forall_forall. intros y Hy. apply repeat_spec in Hy. subst y.
      apply nonneg_Fin. lra.
    + assert (Hr0 : (0 < r)%R).
      { destruct (Req_dec r 0) as [H0|H0]; [|lra].
        apply eqb_Fin_0 in H0. congruence. }
      exists (insert_sorted (Fin r) rest). split.
      * now apply insert_sorted_past_zeros.
      * apply insert_sorted_Forall; auto. apply nonneg_Fin. lra.
Qed.

Lemma get_sorted_zero (l : list num) (i : nat) :
  Forall nonneg l -> (i < zeros l)%nat -> get (sort_ascending l) i = Fin 0.
Proof.
  intros Hl Hi. destruct (sort_ascending_zeros Hl) as (rest & -> & _).
  unfold get. rewrite app_nth1 by now rewrite repeat_length.
  now apply nth_repeat_lt.
Qed.

Lemma get_at_sorted_zero (l : list num) (z : Z) :
  Forall nonneg l -> (0 <= z < Z.of_nat (zeros l))%Z ->
  get_at (sort_ascending l) (Fin (IZR z)) = Fin 0.
Proof.
  intros Hl Hz. unfold get_at, to_index, is_integer.
  rewrite Int_part_IZR.
  assert (E1 : Reqb (IZR z) (IZR z) = true) by now apply Reqb_true.
  assert (E2 : Rleb 0 (IZR z) = true) by (apply Rleb_true, IZR_le; lia).
  rewrite E1, E2. cbn [andb]. apply get_sorted_zero; auto. lia.
Qed.

(** The median of a history of non-negative numbers more than half of which
    are 0 is 0. *)
Lemma median_zero (l : list num) :
  Forall nonneg l -> (List.length l < 2 * zeros l)%nat -> _median l = Fin 0.
Proof.
  intros Hl Hz. unfold _median.
  destruct (Nat.eqb_spec (List.length l) 0) as [|Hn]; [reflexivity|].
  rewrite sort_ascending_length.
  set (len := List.length l) in *.
  assert (Hlen : (1 <= INR len)%R).
  { change 1%R with (INR 1). apply le_INR. lia. }
  assert (Hzr : (INR len + 1 <= 2 * INR (zeros l))%R).
  { change 2%R with (INR 2). rewrite <- mult_INR.
    change 1%R with (INR 1). rewrite <- plus_INR. apply le_INR. lia. }
  unfold of_nat, sub. cbn [opp add mul Math_floor Math_ceil].
  set (mid := ((INR len + - (1)) * 0.5)%R).
  assert (Hmid : (0 <= mid)%R) by (unfold mid; lra).
  assert (Hmid' : (mid + 1 <= INR (zeros l))%R) by (unfold mid; lra).
  assert (Hlo : (0 <= Int_part mid < Z.of_nat (zeros l))%Z).
  { split; [now apply Int_part_nonneg|].
    pose proof (Int_part_le mid) as H.
    apply lt_IZR. rewrite <- INR_IZR_INZ. lra. }
  assert (Hhi : (0 <= - Int_part (- mid) < Z.of_nat (zeros l))%Z).
  { destruct (base_Int_part (- mid)) as [H1 H2]. split.
    - assert (H : (IZR (Int_part (- mid)) < IZR 1)%R) by (cbn; lra).
      apply lt_IZR in H. lia.
    - apply lt_IZR. rewrite opp_IZR, <- INR_IZR_INZ. lra. }
  rewrite !get_at_sorted_zero by assumption.
  rewrite lerp_Fin. f_equal. lra.
Qed.

Lemma abs_deviation_0 (l : list num) :
  Forall nonneg l -> map (fun v => Math_abs (v - Fin 0)) l = l.
Proof.
  induction 1 as [|x l (r & -> & Hr) Hl IH]; [reflexivity|].
  cbn [map]. rewrite IH. f_equal.
  unfold sub. cbn [opp add Math_abs]. f_equal. rewrite Rabs_right; lra.
Qed.

(** The adaptive threshold of such a history is [k] millionths. *)
Lemma adaptiveThreshold_quiet (l : list num) (k : R) :
  Forall nonneg l -> (List.length l < 2 * zeros l)%nat ->
  _adaptiveThreshold l (Fin k) = Fin (k * 0.000001).
Proof.
  intros Hl Hz. unfold _adaptiveThreshold, _mad.
  rewrite (median_zero Hl Hz), (abs_deviation_0 Hl), (median_zero Hl Hz).
  cbn [add mul]. f_equal. lra.
Qed.

Lemma pushHist_short (arr : list num) (v : num) (maxLen : nat) :
  (List.length arr < maxLen)%nat -> pushHist arr v maxLen = arr ++ [v].
Proof.
  intros H. unfold pushHist. rewrite length_app. cbn [List.length].
  destruct (Nat.ltb_spec maxLen (List.length arr + 1)); [lia | reflexivity].
Qed.

(** *** The kick detector and the beat test on a uniform frame *)

Lemma analyze_kick_fields (s : AudioAnalyzer) (level : byte) (d : R) :
  let now := _tMs s + Fin d * 1000 in
  let F := flux_sqrt (flux_loop s (analyze_bandValues s (repeat level 4096) 0.18)) in
  let kOn := fired_kick s F now in
  let isBeat := beat_fires s (fst kOn) now in
  let s' := snd (analyze_frame s (uniform_frame level d)) in
  fst (analyze_frame s (uniform_frame level d)) = isBeat
  /\ _tMs s' = now
  /\ _lastKickT s' = snd kOn
  /\ lastBeatTime s' = (if isBeat then now else lastBeatTime s)
  /\ beatGate s' = Math_max 0 ((if isBeat then Fin 100 else beatGate s) - Fin d * 1000)
  /\ _fluxKickHist s' = pushHist (_fluxKickHist s) (fluxKick F) 50
  /\ onsetKick s' = Math_max (fst kOn) (onsetKick s * 0.78).
Proof. repeat split. Qed.

(** With no kick flux the kick detector stays silent. *)
Lemma fired_kick_quiet (s : AudioAnalyzer) (F : flux_sums) (now : num) :
  fluxKick F = Fin 0 ->
  Forall nonneg (_fluxKickHist s) ->
  (List.length (_fluxKickHist s) < 50)%nat ->
  (List.length (_fluxKickHist s) + 1 < 2 * (zeros (_fluxKickHist s) + 1))%nat ->
  fired_kick s F now = (Fin 0, _lastKickT s).
Proof.
  intros EF Hh Hn Hz. unfold fired_kick. rewrite EF, pushHist_short by exact Hn.
  rewrite adaptiveThreshold_quiet.
  - unfold trigOnset.
    assert (E : (Fin 0 >? Fin (2.0 * 0.000001)) = false).
    { unfold gtb. destruct (_ <? _) eqn:E; auto. apply ltb_Fin in E. lra. }
    now rewrite E.
  - apply Forall_app. split; auto. repeat constructor. apply nonneg_Fin. lra.
  - rewrite length_app, zeros_app. cbn [List.length].
    assert (E : zeros [Fin 0] = 1%nat).
    { unfold zeros. cbn [filter].
      assert (E : (Fin 0 =? 0) = true) by now apply eqb_Fin_0.
      now rewrite E. }
    rewrite E. lia.
Qed.

(** A kick flux above a thousandth, on a mostly silent history and past
    the cooldown, fires the kick detector with a strength in [0.5, 1.5]. *)
Lemma fired_kick_fires (s : AudioAnalyzer) (F : flux_sums) (f t lk : R) :
  fluxKick F = Fin f -> (0.001 <= f)%R ->
  Forall nonneg (_fluxKickHist s) ->
  (List.length (_fluxKickHist s) < 50)%nat ->
  (List.length (_fluxKickHist s) + 1 < 2 * zeros (_fluxKickHist s))%nat ->
  _lastKickT s = Fin lk -> (150 < t - lk)%R ->
  exists r : R,
    fired_kick s F (Fin t) = (Fin r, Fin t) /\ (0.5 <= r <= 1.5)%R.
Proof.
  intros EF Hf Hh Hn Hz Elk Ht. unfold fired_kick.
  rewrite EF, pushHist_short by exact Hn.
  rewrite adaptiveThreshold_quiet.
  - unfold trigOnset. rewrite Elk.
    assert (E1 : (Fin f >? Fin (2.0 * 0.000001)) = true).
    { unfold gtb. apply ltb_Fin. lra. }
    assert (E2 : (Fin t - Fin lk >? 150) = true).
    { unfold sub, gtb. cbn [opp add]. apply ltb_Fin. lra. }
    rewrite E1, E2. cbn [andb].
    rewrite div_Fin by lra. unfold sub. cbn [opp add mul]. rewrite clamp_Fin.
    eexists; split; [reflexivity|].
    unfold Rmin, Rmax.
    repeat match goal with |- context [Rle_dec ?a ?b] => destruct (Rle_dec a b) end; lra.
  - apply Forall_app. split; auto. repeat constructor. apply nonneg_Fin. lra.
  - rewrite length_app, zeros_app. cbn [List.length]. lia.
Qed.

(** *** One call of the beat cycle *)

Lemma tMs_tick (t : R) : Fin t + Fin 0.1 * 1000 = Fin (t + 100).
Proof. cbn [add mul]. f_equal. lra. Qed.

(** A silent frame fires no beat; the bins decay, the clock advances by
    100 ms and the kick history gains a 0. *)
Lemma silent_step (s : AudioAnalyzer) (c t lk lb : R) (n z : nat) :
  beat_state s c t lk lb n z -> (0 <= c)%R ->
  (n < 50)%nat -> (n + 1 < 2 * (z + 1))%nat ->
  fst (analyze_frame s silence) = false
  /\ beat_state (snd (analyze_frame s silence)) (c * 0.82) (t + 100) lk lb (n + 1) (z + 1)
  /\ call_onset Kick s silence = Fin 0
  /\ onsetKick (snd (analyze_frame s silence)) = Math_max 0 (onsetKick s * 0.78).
Proof.
  intros B Hc Hn Hz. pose proof B as [U Et Elk Elb Eg Hh El Ezs].
  pose proof (@analyze_fft_silent s 4096 c Hc (u_fft U)) as Efft.
  destruct (@uniform_fluxKick s c (c * 0.82) "000"%byte U Efft) as (f & EF & _ & Hfall & _).
  assert (Ef : f = 0%R) by (apply Hfall; lra). subst f.
  destruct (@analyze_kick_fields s "000"%byte 0.1) as (Eb & E1 & E2 & E3 & E4 & E5 & E6).
  cbn zeta in Eb, E1, E2, E3, E4, E5, E6. fold silence in Eb, E1, E2, E3, E4, E5, E6.
  assert (Eq : fired_kick s
                 (flux_sqrt (flux_loop s (analyze_bandValues s (repeat "000"%byte 4096) 0.18)))
                 (_tMs s + Fin 0.1 * 1000) = (Fin 0, _lastKickT s)).
  { apply fired_kick_quiet; auto; rewrite ?El, ?Ezs; lia. }
  rewrite Eq in Eb, E2, E3, E4, E6.
  cbn [fst snd] in Eb, E2, E3, E4, E6.
  assert (Enb : beat_fires s 0 (_tMs s + Fin 0.1 * 1000) = false).
  { unfold beat_fires.
    assert (E : (Fin 0 >? 0.3) = false).
    { unfold gtb. destruct (_ <? _) eqn:E; auto. apply ltb_Fin in E. lra. }
    now rewrite E. }
  rewrite Enb in Eb, E3, E4. split; [exact Eb|].
  split; [|split; [|exact E6]].
  2:{ unfold call_onset, call_flux, silence, uniform_frame.
      cbn [dt freqData smoothingAlpha]. now rewrite Eq. }
  constructor.
  - exact (@uniform_step s c (c * 0.82) "000"%byte 0.1 U Efft).
  - now rewrite E1, Et, tMs_tick.
  - now rewrite E2.
  - now rewrite E3.
  - rewrite E4, Eg. unfold sub. cbn [opp add mul]. rewrite Math_max_Fin.
    f_equal. apply Rmax_left. lra.
  - rewrite E5, EF, pushHist_short by lia. apply Forall_app. split; auto.
    repeat constructor. apply nonneg_Fin. lra.
  - rewrite E5, EF, pushHist_short by lia. rewrite length_app. cbn [List.length]. lia.
  - rewrite E5, EF, pushHist_short by lia. rewrite zeros_app, Ezs. f_equal.
    unfold zeros. cbn [filter].
    assert (E : (Fin 0 =? 0) = true) by now apply eqb_Fin_0.
    now rewrite E.
Qed.

(** A full-scale frame on bins at most half open, on a mostly silent kick
    history and past the cooldowns, fires a beat. *)
Lemma loud_step (s : AudioAnalyzer) (c t lk lb : R) (n z : nat) :
  beat_state s c t lk lb n z -> (0 <= c <= 0.5)%R ->
  (n < 50)%nat -> (n + 1 < 2 * z)%nat ->
  (50 < t - lk)%R -> (80 < t - lb)%R ->
  fst (analyze_frame s full_scale) = true
  /\ beat_state (snd (analyze_frame s full_scale))
       (c + (1 - c) * 0.45) (t + 100) (t + 100) (t + 100) (n + 1) z
  /\ exists r : R,
       (0.5 <= r <= 1.5)%R
       /\ call_onset Kick s full_scale = Fin r
       /\ onsetKick (snd (analyze_frame s full_scale)) = Math_max (Fin r) (onsetKick s * 0.78).
Proof.
  intros B Hc Hn Hz Hlk Hlb. pose proof B as [U Et Elk Elb Eg Hh El Ezs].
  assert (Hc1 : (c < 1)%R) by lra.
  pose proof (@analyze_fft_loud s 4096 c Hc1 (u_fft U)) as Efft.
  destruct (@uniform_fluxKick s c (c + (1 - c) * 0.45) "255"%byte U Efft)
    as (f & EF & Hf0 & _ & Hrise).
  assert (Hf : (0.001 <= f)%R).
  { assert (H2 : (2 * (c + (1 - c) * 0.45 - c) * (c + (1 - c) * 0.45 - c) <= f * f)%R)
      by (apply Hrise; lra).
    destruct (Rle_dec 0.001 f) as [H|H]; [exact H|]. nra. }
  destruct (@analyze_kick_fields s "255"%byte 0.1) as (Eb & E1 & E2 & E3 & E4 & E5 & E6).
  cbn zeta in Eb, E1, E2, E3, E4, E5, E6. fold full_scale in Eb, E1, E2, E3, E4, E5, E6.
  rewrite Et, tMs_tick in Eb, E1, E2, E3, E4, E6.
  destruct (@fired_kick_fires s _ f (t + 100) lk EF Hf Hh) as (r & Ek & Hr);
    try (rewrite ?El, ?Ezs; lia); auto; try lra.
  rewrite Ek in Eb, E2, E3, E4, E6. cbn [fst snd] in Eb, E2, E3, E4, E6.
  assert (Eyes : beat_fires s (Fin r) (Fin (t + 100)) = true).
  { unfold beat_fires. rewrite Elb, Eg. unfold sub, gtb. cbn [opp add].
    assert (A1 : (Fin 0.3 <? Fin r) = true) by (apply ltb_Fin; lra).
    assert (A2 : (Fin 180 <? Fin (t + 100 + - lb)) = true) by (apply ltb_Fin; lra).
    assert (A3 : (Fin 0 <=? Fin 0) = true) by (apply leb_Fin; lra).
    now rewrite A1, A2, A3. }
  rewrite Eyes in Eb, E3, E4. split; [exact Eb|].
  split.
  2:{ exists r. split; [exact Hr|]. split; [|exact E6].
      unfold call_onset, call_flux, full_scale, uniform_frame.
      cbn [dt freqData smoothingAlpha]. now rewrite Et, tMs_tick, Ek. }
  constructor.
  - exact (@uniform_step s c (c + (1 - c) * 0.45) "255"%byte 0.1 U Efft).
  - exact E1.
  - exact E2.
  - exact E3.
  - rewrite E4. unfold sub. cbn [opp add mul]. rewrite Math_max_Fin.
    f_equal. apply Rmax_left. lra.
  - rewrite E5, EF, pushHist_short by lia. apply Forall_app. split; auto.
    repeat constructor. apply nonneg_Fin. lra.
  - rewrite E5, EF, pushHist_short by lia. rewrite length_app. cbn [List.length]. lia.
  - rewrite E5, EF, pushHist_short by lia. rewrite zeros_app, Ezs.
    unfold zeros at 1. cbn [filter].
    assert (E : (Fin f =? 0) = false).
    { destruct (Fin f =? 0) eqn:E; auto. apply eqb_Fin_0 in E. lra. }
    rewrite E. cbn [List.length]. lia.
Qed.

(** *** Beat cycles *)

Lemma run_app (s : AudioAnalyzer) (l l' : list frame) :
  run s (l ++ l') = run (run s l) l'.
Proof. unfold run. apply fold_left_app. Qed.

Lemma beats_fired_app (l l' : list frame) :
  forall s : AudioAnalyzer,
    beats_fired s (l ++ l') = (beats_fired s l + beats_fired (run s l) l')%nat.
Proof.
  induction l as [|fr l IH]; intros s; [reflexivity|].
  cbn [app beats_fired]. rewrite IH. cbn [run fold_left]. unfold run. lia.
Qed.

(** A beat cycle that starts with bins at most 0.72, at least 300 ms after
    the last kick and beat, fires exactly one beat, in its last call. *)
Lemma beat_cycle_fires (s : AudioAnalyzer) (c t : R) (n z : nat) :
  beat_state s c t t t n z -> (0 <= c <= 0.72)%R ->
  (n + 3 <= 50)%nat -> (n + 1 < 2 * (z + 1))%nat ->
  beats_fired s beat_cycle = 1%nat
  /\ exists c' : R,
       (0 <= c' <= 0.72)%R
       /\ beat_state (run s beat_cycle) c' (t + 300) (t + 300) (t + 300) (n + 3) (z + 2).
Proof.
  intros B Hc Hn Hz.
  destruct (@silent_step s c t t t n z B) as (F1 & B1 & _); try lia; try lra.
  set (s1 := snd (analyze_frame s silence)) in *.
  destruct (@silent_step s1 _ _ _ _ _ _ B1) as (F2 & B2 & _); try lia; try nra.
  set (s2 := snd (analyze_frame s1 silence)) in *.
  destruct (@loud_step s2 _ _ _ _ _ _ B2) as (F3 & B3 & _); try lia; try nra.
  set (s3 := snd (analyze_frame s2 full_scale)) in *.
  unfold beat_cycle. cbn [beats_fired run fold_left].
  fold s1. rewrite F1. fold s2. rewrite F2. fold s3. rewrite F3.
  split; [reflexivity|].
  eexists. split; [|].
  2:{ replace (t + 300)%R with (t + 100 + 100 + 100)%R by lra.
      replace (n + 3)%nat with (n + 1 + 1 + 1)%nat by lia.
      replace (z + 2)%nat with (z + 1 + 1)%nat by lia.
      exact B3. }
  nra.
Qed.

Lemma cycles_S (k : nat) : cycles (S k) = beat_cycle ++ cycles k.
Proof. reflexivity. Qed.

(** [k] beat cycles in a row fire [k] beats, as long as the kick history
    has room for their 3 [k] entries. *)
Lemma cycles_fire (k : nat) :
  forall (s : AudioAnalyzer) (c t : R) (n z : nat),
    beat_state s c t t t n z -> (0 <= c <= 0.72)%R ->
    (n + 3 * k <= 50)%nat -> (n + 1 < 2 * (z + 1))%nat ->
    beats_fired s (cycles k) = k
    /\ exists c' : R,
         (0 <= c' <= 0.72)%R
         /\ beat_state (run s (cycles k)) c' (t + 300 * INR k) (t + 300 * INR k)
              (t + 300 * INR k) (n + 3 * k) (z + 2 * k).
Proof.
  induction k as [|k IH]; intros s c t n z B Hc Hn Hz.
  - split; [reflexivity|]. exists c. split; [exact Hc|].
    cbn [cycles repeat List.concat run fold_left INR].
    replace (t + 300 * 0)%R with t by lra.
    replace (n + 3 * 0)%nat with n by lia. replace (z + 2 * 0)%nat with z by lia.
    exact B.
  - rewrite cycles_S, beats_fired_app, run_app.
    destruct (@beat_cycle_fires s c t n z B Hc) as (F1 & c1 & Hc1 & B1); try lia.
    destruct (IH _ _ _ _ _ B1 Hc1) as (F2 & c2 & Hc2 & B2); try lia.
    rewrite F1, F2. split; [reflexivity|].
    exists c2. split; [exact Hc2|].
    rewrite S_INR.
    replace (t + 300 * (INR k + 1))%R with (t + 300 + 300 * INR k)%R by lra.
    replace (n + 3 * S k)%nat with (n + 3 + 3 * k)%nat by lia.
    replace (z + 2 * S k)%nat with (z + 2 + 2 * k)%nat by lia.
    exact B2.
Qed.

Lemma new_beat_state : beat_state new_AudioAnalyzer 0 0 0 0 0 0.
Proof.
  constructor; try reflexivity.
  - exact new_uniform.
  - constructor.
Qed.

(** From a fresh analyzer, three beat cycles fire 3 beats and leave
    [barCount] at 0; the fourth cycle fires the 4th beat and takes it
    to 1. *)
Lemma beats_of_three_and_four_cycles :
  beats_fired new_AudioAnalyzer (cycles 3) = 3%nat
  /\ beatCount (run new_AudioAnalyzer (cycles 3)) = 3%Z
  /\ barCount (run new_AudioAnalyzer (cycles 3)) = 0%Z
  /\ beats_fired new_AudioAnalyzer (cycles 4) = 4%nat
  /\ beatCount (run new_AudioAnalyzer (cycles 4)) = 4%Z
  /\ barCount (run new_AudioAnalyzer (cycles 4)) = 1%Z.
Proof.
  assert (H : forall k, (k <= 16)%nat ->
            beats_fired new_AudioAnalyzer (cycles k) = k
            /\ beatCount (run new_AudioAnalyzer (cycles k)) = Z.of_nat k
            /\ barCount (run new_AudioAnalyzer (cycles k)) = (Z.of_nat k / 4)%Z).
  { intros k Hk.
    destruct (@cycles_fire k new_AudioAnalyzer 0 0 0 0 new_beat_state) as (F & _);
      try lia; try lra.
    destruct (@run_counts (cycles k) new_AudioAnalyzer) as [H1 H2];
      [cbn; lia | reflexivity |].
    rewrite F in H1. cbn [beatCount new_AudioAnalyzer] in H1.
    rewrite H2, H1. repeat split; auto. }
  destruct (H 3%nat) as (A1 & A2 & A3); [lia|].
  destruct (H 4%nat) as (A4 & A5 & A6); [lia|].
  repeat split; assumption.
Qed.

(** C6: starting from a fresh analyzer, after a run in which [k] beats
    fired [beatCount] is [k] and [barCount] is [k / 4] (rounded down): it
    is 0 after exactly 3 fired beats and 1 after exactly 4, and a call
    increments it exactly when a beat fires and that beat is a 4th one.
    Such runs exist: three beat cycles fire exactly 3 beats and four fire
    exactly 4. *)
Theorem barCount_every_4th_beat :
  (forall frames : list frame,
     let s' := run new_AudioAnalyzer frames in
     let k := beats_fired new_AudioAnalyzer frames in
     beatCount s' = Z.of_nat k
     /\ barCount s' = Z.of_nat (k / 4)
     /\ (k = 3%nat -> barCount s' = 0%Z)
     /\ (k = 4%nat -> barCount s' = 1%Z)
     /\ (forall fr,
           barCount (snd (analyze_frame s' fr)) =
             (if fst (analyze_frame s' fr) && ((k + 1) mod 4 =? 0)%nat
              then barCount s' + 1 else barCount s')%Z))
  /\ beats_fired new_AudioAnalyzer (cycles 3) = 3%nat
  /\ beats_fired new_AudioAnalyzer (cycles 4) = 4%nat.
Proof.
  split.
  2:{ destruct beats_of_three_and_four_cycles as (A3 & _ & _ & A4 & _). now split. }
  intros frames s' k.
  destruct (@run_counts frames new_AudioAnalyzer) as [H1 H2]; [cbn; lia | reflexivity |].
  fold s' in H1, H2. fold k in H1. cbn [beatCount new_AudioAnalyzer] in H1.
  assert (Hk : beatCount s' = Z.of_nat k) by lia.
  assert (Hb : barCount s' = Z.of_nat (k / 4)).
  { rewrite H2, Hk. change 4%Z with (Z.of_nat 4). now rewrite <- Nat2Z.inj_div. }
  repeat split; auto.
  - intros ->. now rewrite Hb.
  - intros ->. now rewrite Hb.
  - intros fr. destruct (analyze_counts s' fr) as [_ Hbar]. cbn zeta in Hbar.
    rewrite Hbar, Hk.
    replace ((Z.of_nat k + 1) mod 4 =? 0)%Z with ((k + 1) mod 4 =? 0)%nat; auto.
    replace (Z.of_nat k + 1)%Z with (Z.of_nat (k + 1)) by lia.
    change 4%Z with (Z.of_nat 4). rewrite <- Nat2Z.inj_mod.
    destruct (Nat.eqb_spec ((k + 1) mod 4) 0) as [E|E].
    + rewrite E. reflexivity.
    + symmetry. apply Z.eqb_neq. lia.
Qed.

(** After one beat cycle from a fresh analyzer the kick onset is the
    strength of the kick that fired, between 0.5 and 1.5, and the kick
    channel fires in neither of two silent frames that follow. *)
Lemma kick_after_beat_cycle :
  exists x : R,
    onset_of Kick (run new_AudioAnalyzer beat_cycle) = Fin x
    /\ (0.5 <= x <= 1.5)%R
    /\ quiet Kick (run new_AudioAnalyzer beat_cycle) [silence; silence].
Proof.
  destruct (@silent_step new_AudioAnalyzer 0 0 0 0 0 0 new_beat_state)
    as (_ & B1 & _ & O1); try lia; try lra.
  set (s1 := snd (analyze_frame new_AudioAnalyzer silence)) in *.
  destruct (@silent_step s1 _ _ _ _ _ _ B1) as (_ & B2 & _ & O2); try lia; try nra.
  set (s2 := snd (analyze_frame s1 silence)) in *.
  destruct (@loud_step s2 _ _ _ _ _ _ B2) as (_ & B3 & r & Hr & _ & O3);
    try lia; try nra.
  set (s3 := snd (analyze_frame s2 full_scale)) in *.
  destruct (@silent_step s3 _ _ _ _ _ _ B3) as (_ & B4 & Q4 & _); try lia; try nra.
  set (s4 := snd (analyze_frame s3 silence)) in *.
  destruct (@silent_step s4 _ _ _ _ _ _ B4) as (_ & _ & Q5 & _); try lia; try nra.
  change (run new_AudioAnalyzer beat_cycle) with s3.
  cbn [new_AudioAnalyzer onsetKick mul] in O1. rewrite Math_max_Fin in O1.
  rewrite O1 in O2. cbn [mul] in O2. rewrite Math_max_Fin in O2.
  rewrite O2 in O3. cbn [mul] in O3. rewrite Math_max_Fin in O3.
  eexists. split; [exact O3|]. split.
  - rewrite (Rmax_left 0 (0 * 0.78)) by lra.
    rewrite (Rmax_left 0 (0 * 0.78)) by lra.
    rewrite Rmax_left by lra. exact Hr.
  - cbn [quiet]. fold s4. auto.
Qed.


(* ====================================================================== *)
(** ** js/utils.js *)
(* ====================================================================== *)

Lemma between_Fin (lo hi r : R) : (lo <= r <= hi)%R -> between lo hi (Fin r).
Proof. intros H. exists r. auto. Qed.

Lemma between_weaken (lo hi lo' hi' : R) (x : num) :
  between lo hi x -> (lo' <= lo)%R -> (hi <= hi')%R -> between lo' hi' x.
Proof. intros (r & -> & H) H1 H2. exists r. split; auto. lra. Qed.

Lemma between_finite (lo hi : R) (x : num) : between lo hi x -> finite x.
Proof. intros (r & -> & _). reflexivity. Qed.

Lemma clamp_between (v : num) (a b : R) :
  isNaN v = false -> (a <= b)%R -> between a b (clamp v (Fin a) (Fin b)).
Proof.
  intros Hv Hab. destruct v; try discriminate; unfold clamp, Math_max, Math_min; cbn.
  - rdec; cbn; rdec; apply between_Fin; lra.
  - rdec; apply between_Fin; lra.
  - rdec; apply between_Fin; lra.
Qed.

(** X1: [clamp(v, a, b)] propagates [NaN]; for any other [v], infinite or
    not, it is a number between [a] and [b] when [a <= b], namely [v]
    itself when [v] lies between the bounds; when the bounds are inverted
    ([b < a]) it is [b] whatever [v] is. *)
Theorem clamp_within_bounds :
  forall (v : num) (a b : R),
    (isNaN v = true -> clamp v (Fin a) (Fin b) = NaN)
    /\ (isNaN v = false -> (a <= b)%R -> between a b (clamp v (Fin a) (Fin b)))
    /\ (forall x : R, v = Fin x -> (a <= x <= b)%R -> clamp v (Fin a) (Fin b) = v)
    /\ (isNaN v = false -> (b < a)%R -> clamp v (Fin a) (Fin b) = Fin b).
Proof.
  intros v a b. split; [|split; [|split]].
  - destruct v; try discriminate. reflexivity.
  - apply clamp_between.
  - intros x -> Hx. rewrite clamp_Fin. f_equal.
    rewrite Rmax_right by lra. apply Rmin_right. lra.
  - intros Hv Hab. destruct v; try discriminate; unfold clamp, Math_max, Math_min; cbn.
    + rdec; cbn; rdec.
    + rdec.
    + rdec.
Qed.

Lemma lerp_between (a b t lo hi : R) :
  (lo <= a <= hi)%R -> (lo <= b <= hi)%R -> (0 <= t <= 1)%R ->
  between lo hi (lerp (Fin a) (Fin b) (Fin t)).
Proof.
  intros Ha Hb Ht. rewrite lerp_Fin. apply between_Fin. split; nra.
Qed.

Lemma fract_Fin (x : R) : fract (Fin x) = Fin (x - IZR (Int_part x)).
Proof. reflexivity. Qed.

Lemma fract_range (x : R) : (0 <= x - IZR (Int_part x) < 1)%R.
Proof. destruct (base_Int_part x). lra. Qed.

Lemma Rpower_cube (x : R) : (0 < x)%R -> Rpower x 3 = (x * x * x)%R.
Proof.
  intros Hx. replace 3%R with (INR 3) by (cbn; lra).
  rewrite Rpower_pow by exact Hx. ring.
Qed.

Lemma easeOutCubic_Fin (t : R) :
  (t <= 1)%R -> easeOutCubic (Fin t) = Fin (1 - (1 - t) * (1 - t) * (1 - t)).
Proof.
  intros Ht. unfold easeOutCubic, sub. cbn [opp add Math_pow].
  assert (E3 : Reqb 3 0 = false) by (apply Reqb_false; lra).
  rewrite E3.
  destruct (Rltb 0 (1 + - t)) eqn:E.
  - apply Rltb_true in E. rewrite Rpower_cube by exact E. cbn. first [reflexivity | f_equal; ring].
  - apply Rltb_false in E.
    assert (E0 : Reqb (1 + - t) 0 = true) by (apply Reqb_true; lra).
    assert (E1 : Rltb 0 3 = true) by (apply Rltb_true; lra).
    rewrite E0, E1. cbn. f_equal.
    replace t with 1%R by lra. lra.
Qed.

Lemma Rpower_2_nonpos (y : R) : (y <= 0)%R -> (0 < Rpower 2 y <= 1)%R.
Proof.
  intros Hy. unfold Rpower. split; [apply exp_pos|].
  rewrite <- exp_0. destruct (Req_dec (y * ln 2) 0) as [E|E].
  - rewrite E. lra.
  - apply Rlt_le, exp_increasing.
    assert (0 < ln 2)%R by (rewrite <- ln_1; apply ln_increasing; lra). nra.
Qed.

(** X6: each easing function sends 0 to 0 and 1 to 1 and maps [0, 1] into
    [0, 1]. *)
Theorem easing_unit_interval :
  forall t : R, (0 <= t <= 1)%R ->
    (between 0 1 (easeOutQuad (Fin t))
     /\ between 0 1 (easeOutCubic (Fin t))
     /\ between 0 1 (easeOutExpo (Fin t))
     /\ between 0 1 (easeInOutSine (Fin t)))
    /\ (easeOutQuad 0 = Fin 0 /\ easeOutCubic 0 = Fin 0
        /\ easeOutExpo 0 = Fin 0 /\ easeInOutSine 0 = Fin 0)
    /\ (easeOutQuad 1 = Fin 1 /\ easeOutCubic 1 = Fin 1
        /\ easeOutExpo 1 = Fin 1 /\ easeInOutSine 1 = Fin 1).
Proof.
  intros t Ht. split; [|split].
  - split; [|split; [|split]].
    + unfold easeOutQuad, sub. cbn [opp add mul]. apply between_Fin. nra.
    + rewrite easeOutCubic_Fin by lra. apply between_Fin.
      assert (0 <= (1 - t) * (1 - t) * (1 - t))%R by (apply Rmult_le_pos; nra).
      assert ((1 - t) * (1 - t) * (1 - t) <= 1)%R by nra. lra.
    + unfold easeOutExpo, eqb. destruct (Reqb t 1) eqn:E1; [apply between_Fin; lra|].
      cbn [mul Math_pow].
      destruct (Reqb (-10 * t) 0) eqn:E0.
      * unfold sub. cbn. apply between_Fin. lra.
      * assert (E2 : Rltb 0 2 = true) by (apply Rltb_true; lra).
        rewrite E2. unfold sub. cbn [opp add].
        pose proof (@Rpower_2_nonpos (-10 * t)) as H. apply between_Fin. lra.
    + unfold easeInOutSine, Math_PI, sub. cbn [mul Math_cos opp add].
      rewrite div_Fin by lra. apply between_Fin.
      pose proof (COS_bound (PI * t)). lra.
  - repeat split.
    + unfold easeOutQuad, sub. cbn. f_equal. lra.
    + rewrite easeOutCubic_Fin by lra. f_equal. lra.
    + unfold easeOutExpo, eqb.
      assert (E1 : Reqb 0 1 = false) by (apply Reqb_false; lra).
      rewrite E1. cbn [mul Math_pow].
      assert (E0 : Reqb (-10 * 0) 0 = true) by (apply Reqb_true; lra).
      rewrite E0. unfold sub. cbn. f_equal. lra.
    + unfold easeInOutSine, Math_PI, sub. cbn [mul Math_cos opp add].
      rewrite div_Fin by lra. f_equal. rewrite Rmult_0_r, cos_0. lra.
  - repeat split.
    + unfold easeOutQuad, sub. cbn. f_equal. lra.
    + rewrite easeOutCubic_Fin by lra. f_equal. lra.
    + unfold easeOutExpo, eqb.
      assert (E1 : Reqb 1 1 = true) by now apply Reqb_true.
      now rewrite E1.
    + unfold easeInOutSine, Math_PI, sub. cbn [mul Math_cos opp add].
      rewrite div_Fin by lra. f_equal. rewrite Rmult_1_r, cos_PI. lra.
Qed.

Lemma easing_unit_interval_witness :
  between 0 1 (easeOutQuad (Fin (1 / 2)))
  /\ between 0 1 (easeOutCubic (Fin (1 / 2)))
  /\ between 0 1 (easeOutExpo (Fin (1 / 2)))
  /\ between 0 1 (easeInOutSine (Fin (1 / 2))).
Proof.
  assert (H : (0 <= 1 / 2 <= 1)%R) by lra.
  exact (proj1 (@easing_unit_interval (1 / 2) H)).
Defined.

(** *** [fract] and [lerp] on ranges *)

Lemma fract_unit (x : num) :
  finite x -> exists r : R, fract x = Fin r /\ (0 <= r < 1)%R.
Proof.
  intros H. fin_cases. rewrite fract_Fin. eexists. split; [reflexivity|].
  apply fract_range.
Qed.

Lemma lerp_between' (a b t : num) (lo hi : R) :
  between lo hi a -> between lo hi b -> between 0 1 t -> between lo hi (lerp a b t).
Proof.
  intros (x & -> & Hx) (y & -> & Hy) (u & -> & Hu). now apply lerp_between.
Qed.

(** *** [foldTheta] *)

Lemma rem_range (x y : R) :
  (0 < y)%R ->
  exists r : R, rem (Fin x) (Fin y) = Fin r /\ (- y < r < y)%R
                /\ ((0 <= x)%R -> (0 <= r)%R) /\ ((x <= 0)%R -> (r <= 0)%R).
Proof.
  intros Hy. unfold rem.
  assert (E0 : Reqb y 0 = false) by (apply Reqb_false; lra).
  rewrite E0.
  assert (Hscale : forall d : R, (0 <= d < 1)%R -> (0 <= y * d < y)%R).
  { intros d Hd. split; [nra|].
    assert (y * d < y * 1)%R by (apply Rmult_lt_compat_l; lra). lra. }
  destruct (Rltb (x / y) 0) eqn:E.
  - apply Rltb_true in E. eexists. split; [reflexivity|].
    destruct (base_Int_part (- (x / y))) as [H1 H2]. rewrite opp_IZR.
    set (k := IZR (Int_part (- (x / y)))) in *.
    assert (Er : (x - y * - k = - (y * (- (x / y) - k)))%R) by (field; lra).
    rewrite Er.
    destruct (Hscale (- (x / y) - k)%R) as [A B]; [lra|].
    assert (Hx : (x < 0)%R).
    { assert (Hq : (x = x / y * y)%R) by (field; lra). nra. }
    repeat split; try lra.
  - apply Rltb_false in E. eexists. split; [reflexivity|].
    destruct (base_Int_part (x / y)) as [H1 H2].
    set (k := IZR (Int_part (x / y))) in *.
    assert (Er : (x - y * k = y * (x / y - k))%R) by (field; lra).
    rewrite Er.
    destruct (Hscale (x / y - k)%R) as [A B]; [lra|].
    repeat split; try lra.
    intros Hx.
    assert (Hx0 : (x / y <= 0)%R).
    { unfold Rdiv. assert (0 < / y)%R by now apply Rinv_0_lt_compat. nra. }
    assert (Eq0 : (x / y = 0)%R) by lra.
    assert (Ek : k = 0%R).
    { unfold k. rewrite Eq0. change 0%R with (IZR 0). now rewrite Int_part_IZR. }
    rewrite Eq0, Ek. lra.
Qed.



(* ====================================================================== *)
(** ** More of js/audioAnalyzer.js *)
(* ====================================================================== *)

(** *** The median *)

Lemma get_Forall (P : num -> Prop) (l : list num) (i : nat) :
  Forall P l -> (i < List.length l)%nat -> P (get l i).
Proof.
  intros Hl Hi. unfold get. rewrite Forall_forall in Hl. apply Hl, nth_In, Hi.
Qed.

Lemma get_at_Forall (P : num -> Prop) (a : list num) (z : Z) :
  Forall P a -> (0 <= z < Z.of_nat (List.length a))%Z ->
  P (get_at a (Fin (IZR z))).
Proof.
  intros Ha Hz. unfold get_at, to_index, is_integer.
  rewrite Int_part_IZR.
  assert (E1 : Reqb (IZR z) (IZR z) = true) by now apply Reqb_true.
  assert (E2 : Rleb 0 (IZR z) = true) by (apply Rleb_true, IZR_le; lia).
  rewrite E1, E2. cbn [andb]. apply get_Forall; auto. lia.
Qed.

(** The median of a non-empty array interpolates two of its elements with
    a weight in [0, 1). *)
Lemma median_Forall (lo hi : R) (arr : list num) :
  arr <> [] -> Forall (between lo hi) arr -> between lo hi (_median arr).
Proof.
  intros Hne Ha. unfold _median.
  destruct (Nat.eqb_spec (List.length arr) 0) as [E|Hn].
  { destruct arr; [congruence | discriminate]. }
  set (a := sort_ascending arr).
  assert (Hfa : Forall (between lo hi) a) by now apply sort_ascending_Forall.
  assert (Hla : List.length a = List.length arr) by apply sort_ascending_length.
  rewrite Hla.
  set (len := List.length arr) in *.
  assert (Hlen : (1 <= INR len)%R).
  { change 1%R with (INR 1). apply le_INR. lia. }
  unfold of_nat, sub. cbn [opp add mul Math_floor Math_ceil].
  set (mid := ((INR len + - (1)) * 0.5)%R).
  assert (Hmid : (0 <= mid)%R) by (unfold mid; lra).
  assert (Hmid' : (mid <= INR len - 1)%R) by (unfold mid; lra).
  assert (Hlo : (0 <= Int_part mid < Z.of_nat len)%Z).
  { split; [now apply Int_part_nonneg|].
    pose proof (Int_part_le mid) as H.
    apply lt_IZR. rewrite <- INR_IZR_INZ. lra. }
  assert (Hhi : (0 <= - Int_part (- mid) < Z.of_nat len)%Z).
  { destruct (base_Int_part (- mid)) as [H1 H2]. split.
    - assert (H : (IZR (Int_part (- mid)) < IZR 1)%R) by (cbn; lra).
      apply lt_IZR in H. lia.
    - apply lt_IZR. rewrite opp_IZR, <- INR_IZR_INZ. lra. }
  rewrite <- Hla in Hlo, Hhi.
  apply lerp_between'.
  - now apply get_at_Forall.
  - now apply get_at_Forall.
  - apply between_Fin. pose proof (fract_range mid). lra.
Qed.

(** X9: [_median] of an empty array is 0, of a single number that number,
    of two numbers their mean, and of any non-empty array of numbers
    between [lo] and [hi] a number between [lo] and [hi]. *)
Theorem median_within_range :
  forall (arr : list num) (lo hi : R),
    _median [] = Fin 0
    /\ (forall x : R, _median [Fin x] = Fin x)
    /\ (forall x y : R, exists m : R,
          _median [Fin x; Fin y] = Fin m /\ (2 * m = x + y)%R)
    /\ (arr <> [] -> Forall (between lo hi) arr -> between lo hi (_median arr)).
Proof.
  intros arr lo hi. split; [reflexivity|]. split; [|split].
  - intros x. unfold _median. cbn [List.length Nat.eqb sort_ascending fold_right insert_sorted].
    unfold of_nat, sub. cbn [INR opp add mul Math_floor Math_ceil].
    replace ((1 + - (1)) * 0.5)%R with (IZR 0) by (cbn; lra).
    replace (- IZR 0)%R with (IZR 0) by (cbn; lra).
    rewrite Int_part_IZR. change (- 0)%Z with 0%Z.
    unfold get_at, to_index, is_integer. rewrite Int_part_IZR.
    assert (E1 : Reqb (IZR 0) (IZR 0) = true) by now apply Reqb_true.
    assert (E2 : Rleb 0 (IZR 0) = true) by (apply Rleb_true; cbn; lra).
    rewrite E1, E2. cbn [andb Z.to_nat get nth]. rewrite lerp_Fin. f_equal. ring.
  - intros x y.
    assert (Hs : exists p q : R,
               sort_ascending [Fin x; Fin y] = [Fin p; Fin q] /\ (p + q = x + y)%R).
    { unfold sort_ascending. cbn [fold_right insert_sorted].
      destruct (Fin x <=? Fin y); [exists x, y | exists y, x]; split; auto; lra. }
    destruct Hs as (p & q & Es & Hpq).
    unfold _median. cbn [List.length Nat.eqb]. rewrite Es. cbn [List.length].
    unfold of_nat, sub. cbn [INR opp add mul Math_floor Math_ceil].
    replace ((1 + 1 + - (1)) * 0.5)%R with (/ 2)%R by lra.
    assert (F : Int_part (/ 2) = 0%Z).
    { symmetry. apply Int_part_spec. cbn. lra. }
    assert (C : Int_part (- / 2) = (-1)%Z).
    { symmetry. apply Int_part_spec. cbn. lra. }
    rewrite F, C. change (- -1)%Z with 1%Z.
    unfold get_at, to_index, is_integer. rewrite !Int_part_IZR.
    assert (E1 : Reqb (IZR 0) (IZR 0) = true) by now apply Reqb_true.
    assert (E2 : Rleb 0 (IZR 0) = true) by (apply Rleb_true; cbn; lra).
    assert (E3 : Reqb (IZR 1) (IZR 1) = true) by now apply Reqb_true.
    assert (E4 : Rleb 0 (IZR 1) = true) by (apply Rleb_true; cbn; lra).
    rewrite E1, E2, E3, E4. cbn [andb Z.to_nat].
    change (Pos.to_nat 1) with 1%nat. cbn [get nth].
    rewrite lerp_Fin. eexists. split; [reflexivity|]. cbn. lra.
  - apply median_Forall.
Qed.

Lemma median_within_range_witness :
  between 1 3 (_median [Fin 3; Fin 1; Fin 2]).
Proof.
  destruct (@median_within_range [Fin 3; Fin 1; Fin 2] 1 3) as (_ & _ & _ & H).
  apply H; [discriminate|].
  repeat constructor; apply between_Fin; lra.
Defined.

(** *** The histories stay short *)

Lemma pushHist_length (arr : list num) (v : num) (maxLen : nat) :
  (List.length arr <= maxLen)%nat -> (List.length (pushHist arr v maxLen) <= maxLen)%nat.
Proof.
  intros H. unfold pushHist.
  destruct (Nat.ltb_spec maxLen (List.length (arr ++ [v]))) as [Hlt|Hle]; [|exact Hle].
  rewrite length_app in Hlt. cbn [List.length] in Hlt.
  destruct arr as [|x t]; cbn [app tl List.length] in *; [lia|].
  rewrite length_app. cbn [List.length]. lia.
Qed.

(** X10: the four flux histories never grow past their caps: 60 entries
    for the global flux, 50 for kick and snare, 40 for hihat, whatever the
    calls made. *)
Theorem flux_histories_bounded :
  forall s : AudioAnalyzer, reachable s ->
    (List.length (_fluxHist s) <= 60)%nat
    /\ (List.length (_fluxKickHist s) <= 50)%nat
    /\ (List.length (_fluxSnareHist s) <= 50)%nat
    /\ (List.length (_fluxHihatHist s) <= 40)%nat.
Proof.
  induction 1 as [|s f r _ IH|s fr _ IH _].
  - cbn. lia.
  - exact IH.
  - destruct IH as (H1 & H2 & H3 & H4).
    unfold analyze_frame, analyze.
    cbn [snd _fluxHist _fluxKickHist _fluxSnareHist _fluxHihatHist].
    repeat split; now apply pushHist_length.
Qed.

Lemma flux_histories_bounded_witness :
  (List.length (_fluxHist (run new_AudioAnalyzer (cycles 4))) <= 60)%nat.
Proof.
  assert (R : reachable (run new_AudioAnalyzer (cycles 4))).
  { unfold run, cycles, beat_cycle. cbn [repeat List.concat app fold_left].
    repeat (apply reachable_analyze; [|exact I]). apply reachable_new. }
  exact (proj1 (@flux_histories_bounded _ R)).
Defined.

(** *** The root note and its name *)

Lemma dominant_index (chroma : list num) :
  exists i : nat, (i < 12)%nat /\ snd (dominant chroma) = of_nat i.
Proof.
  unfold dominant.
  assert (Hinv : forall l acc,
             (forall i, In i l -> (i < 12)%nat) ->
             (exists i, (i < 12)%nat /\ snd acc = of_nat i) ->
             exists i, (i < 12)%nat
                       /\ snd (fold_left (dominant_step chroma) l acc) = of_nat i).
  { induction l as [|i l IH]; intros acc Hl Hacc; [exact Hacc|].
    cbn [fold_left]. apply IH.
    - intros j Hj. apply Hl. now right.
    - unfold dominant_step. destruct (_ >? _); [|exact Hacc].
      exists i. split; [apply Hl; now left | reflexivity]. }
  apply Hinv.
  - intros i Hi. apply in_seq in Hi. lia.
  - exists 0%nat. split; [lia | reflexivity].
Qed.

Lemma noteName_pitch_class (i : nat) :
  (i < 12)%nat -> _noteName (of_nat i) = nth_error note_names i.
Proof.
  intros Hi. unfold _noteName, to_int32, of_nat.
  rewrite INR_IZR_INZ, Int_part_IZR.
  assert (E : Rltb (IZR (Z.of_nat i)) 0 = false).
  { apply Rltb_false, IZR_le. lia. }
  rewrite E.
  do 12 (destruct i as [|i]; [reflexivity|]). lia.
Qed.



(** *** The tempo estimate *)

Lemma tempo_update_range (s : AudioAnalyzer) (now : num) :
  (exists r : R, beatInterval s = Fin r /\ (180 < r < 2500)%R) ->
  (exists r : R, bpmSmooth s = Fin r /\ (24 < r < 1000 / 3)%R) ->
  (exists r : R, fst (tempo_update s now) = Fin r /\ (180 < r < 2500)%R)
  /\ (exists r : R, snd (tempo_update s now) = Fin r /\ (24 < r < 1000 / 3)%R).
Proof.
  intros (bi & Ebi & Hbi) (bpm & Ebpm & Hbpm). unfold tempo_update.
  destruct (_ && _) eqn:E; cbn [fst snd];
    [|split; [exists bi | exists bpm]; split; assumption].
  apply andb_prop in E. destruct E as [E E2]. apply andb_prop in E. destruct E as [_ E1].
  unfold gtb in E1.
  destruct (now - lastBeatTime s) as [i| | |]; cbn in E1, E2; try discriminate.
  apply Rltb_true in E1, E2.
  rewrite Ebi, Ebpm, lerp_Fin.
  set (bi' := (bi + (i - bi) * 0.25)%R).
  assert (Hbi' : (180 < bi' < 2500)%R) by (unfold bi'; lra).
  split; [eexists; split; [reflexivity | exact Hbi']|].
  rewrite div_Fin by lra. rewrite lerp_Fin.
  eexists; split; [reflexivity|].
  assert (Hq : (24 < 60000 / bi' < 1000 / 3)%R).
  { assert (Hinv : (0 < / bi')%R) by (apply Rinv_0_lt_compat; lra).
    assert (E : (bi' * / bi' = 1)%R) by (field; lra).
    unfold Rdiv. split; nra. }
  lra.
Qed.

Lemma reachable_tempo_range (s : AudioAnalyzer) :
  reachable s ->
  (exists r : R, beatInterval s = Fin r /\ (180 < r < 2500)%R)
  /\ (exists r : R, bpmSmooth s = Fin r /\ (24 < r < 1000 / 3)%R).
Proof.
  induction 1 as [|s f r _ IH|s fr _ IH _].
  - split; [exists 500%R | exists 120%R]; split; try reflexivity; lra.
  - exact IH.
  - destruct IH as [IH1 IH2].
    unfold analyze_frame, analyze. cbn [snd beatInterval bpmSmooth].
    destruct (beat_fires _ _ _); [|now split].
    now apply tempo_update_range.
Qed.

(** X12: whatever the calls made, [beatInterval] stays strictly between
    180 and 2500 ms and [bpmSmooth] strictly between 24 and 1000/3, so
    [getBPM()] is an integer from 24 to 333; it is never 0, so the
    [|| 120] fallback of its callers is never taken. *)
Theorem getBPM_between_24_and_333 :
  forall s : AudioAnalyzer, reachable s ->
    (exists r : R, beatInterval s = Fin r /\ (180 < r < 2500)%R)
    /\ (exists r : R, bpmSmooth s = Fin r /\ (24 < r < 1000 / 3)%R)
    /\ (exists k : Z, getBPM s = Fin (IZR k) /\ (24 <= k <= 333)%Z)
    /\ or_else (getBPM s) 120 = getBPM s.
Proof.
  intros s Hs. destruct (reachable_tempo_range Hs) as [H1 H2].
  split; [exact H1|]. split; [exact H2|].
  destruct H2 as (bpm & Ebpm & Hbpm).
  assert (Hk : exists k : Z, getBPM s = Fin (IZR k) /\ (24 <= k <= 333)%Z).
  { unfold getBPM. rewrite Ebpm. cbn [isFinite Math_round].
    exists (Int_part (bpm + / 2)). split; [reflexivity|].
    destruct (base_Int_part (bpm + / 2)) as [A B].
    split.
    - assert (H : (IZR 23 < IZR (Int_part (bpm + / 2)))%R) by (cbn; lra).
      apply lt_IZR in H. lia.
    - assert (H : (IZR (Int_part (bpm + / 2)) < IZR 334)%R) by (cbn; lra).
      apply lt_IZR in H. lia. }
  split; [exact Hk|].
  destruct Hk as (k & -> & Hk). unfold or_else, truthy.
  assert (E : Reqb (IZR k) 0 = false).
  { apply Reqb_false. intros E0. apply eq_IZR in E0. lia. }
  now rewrite E.
Qed.

(** *** Ranges of the spectrum *)

Lemma Rpower_unit (x y : R) : (0 < x <= 1)%R -> (0 < y)%R -> (0 < Rpower x y <= 1)%R.
Proof.
  intros Hx Hy. unfold Rpower. split; [apply exp_pos|].
  rewrite <- exp_0.
  assert (Hln : (ln x <= 0)%R).
  { destruct (Req_dec x 1) as [->|Hne]; [rewrite ln_1; lra|].
    rewrite <- ln_1. left. apply ln_increasing; lra. }
  destruct (Req_dec (y * ln x) 0) as [E|E]; [rewrite E; lra|].
  left. apply exp_increasing. nra.
Qed.

Lemma linear_amplitude_unit (f : byte) :
  between 0 1 (Math_pow (byte_num f / 255) 1.2).
Proof.
  destruct (byte_num_range f) as (r & -> & Hr).
  rewrite div_Fin by lra. cbn [Math_pow].
  assert (E0 : Reqb 1.2 0 = false) by (apply Reqb_false; lra).
  rewrite E0.
  destruct (Rltb 0 (r / 255)) eqn:E.
  - apply Rltb_true in E. apply between_Fin.
    destruct (@Rpower_unit (r / 255) 1.2); lra.
  - apply Rltb_false in E.
    assert (E1 : Reqb (r / 255) 0 = true) by (apply Reqb_true; lra).
    assert (E2 : Rltb 0 1.2 = true) by (apply Rltb_true; lra).
    rewrite E1, E2. apply between_Fin. lra.
Qed.

Lemma smooth_bin_unit (alpha : num) (f : byte) (old : num) :
  isNaN alpha = false -> between 0 1 old ->
  between 0 1 (smooth_bin (clamp alpha 0.05 0.4) f old).
Proof.
  intros Ha Ho. unfold smooth_bin.
  pose proof (linear_amplitude_unit f) as Hl.
  destruct (@clamp_between alpha 0.05 0.4 Ha) as (a & Ea & Hab); [lra|].
  rewrite Ea.
  apply lerp_between'; auto.
  destruct (_ >? _).
  - cbn [mul]. rewrite Math_min_Fin. apply between_Fin.
    unfold Rmin. destruct (Rle_dec (a * 2.5) 0.7); lra.
  - apply between_Fin. lra.
Qed.

Lemma ensureFftSmooth_unit (fs : option (list num)) (n : nat) :
  (forall l, fs = Some l -> Forall (between 0 1) l) ->
  Forall (between 0 1) (_ensureFftSmooth fs n).
Proof.
  intros H.
  assert (Hz : Forall (between 0 1) (Float32Array n)).
  { apply Forall_forall. intros x Hx. apply repeat_spec in Hx. subst x.
    apply between_Fin. lra. }
  unfold _ensureFftSmooth. destruct fs as [l|]; auto.
  destruct (Nat.eqb (List.length l) n); auto.
Qed.

Lemma analyze_fft_unit (s : AudioAnalyzer) (freqData : list byte) (alpha : num) :
  (forall l, _fftSmooth s = Some l -> Forall (between 0 1) l) ->
  isNaN alpha = false ->
  Forall (between 0 1) (analyze_fft s freqData alpha).
Proof.
  intros Hf Ha. unfold analyze_fft.
  apply Forall_forall. intros x Hx. apply in_map_iff in Hx.
  destruct Hx as ([f old] & <- & Hin). cbn [fst snd].
  apply smooth_bin_unit; auto.
  apply in_combine_r in Hin.
  pose proof (ensureFftSmooth_unit (List.length freqData) Hf) as HF.
  rewrite Forall_forall in HF. now apply HF.
Qed.

(** The weighted sums of a band: [v] stays between 0 and [w]. *)
Lemma bin_step_unit (fft : list num) (N : nat) (vw : num * num) (i : nat) :
  Forall (between 0 1) fft -> List.length fft = N -> (i < N)%nat ->
  (exists v w : R, vw = (Fin v, Fin w) /\ (0 <= v <= w)%R) ->
  exists v w : R, bin_step fft N vw i = (Fin v, Fin w) /\ (0 <= v <= w)%R.
Proof.
  intros Hf Hlen Hi (v & w & -> & Hvw). unfold bin_step; cbn [fst snd].
  assert (HN : INR N <> 0%R) by (apply not_0_INR; lia).
  unfold of_nat. rewrite div_Fin by exact HN.
  assert (Hq : (0 <= INR i / INR N)%R).
  { apply Rmult_le_pos; [apply pos_INR|].
    left; apply Rinv_0_lt_compat. pose proof (pos_INR N); lra. }
  destruct (@get_Forall (between 0 1) fft i Hf) as (x & -> & Hx); [lia|].
  cbn [mul add]. do 2 eexists. split; [reflexivity|]. nra.
Qed.

Lemma band_value_unit (fft : list num) (hzPerBin lowHz highHz : num) :
  Forall (between 0 1) fft -> between 0 1 (band_value fft hzPerBin lowHz highHz).
Proof.
  intros Hf. unfold band_value.
  set (N := List.length fft).
  set (startBin := Math_max 1 _). set (endBin := Math_min (of_nat N - 1) _).
  assert (Hinv : forall l vw,
             (forall i, In i l -> (i < N)%nat) ->
             (exists v w : R, vw = (Fin v, Fin w) /\ (0 <= v <= w)%R) ->
             exists v w : R,
               fold_left (bin_step fft N) l vw = (Fin v, Fin w) /\ (0 <= v <= w)%R).
  { induction l as [|i l IH]; intros vw Hl Hvw; cbn [fold_left]; auto.
    apply IH; [intros j Hj; apply Hl; now right|].
    apply bin_step_unit; auto. apply Hl; now left. }
  destruct (Hinv (for_range startBin endBin) (Fin 0, Fin 0)) as (v & w & E & Hvw).
  - intros i Hi. destruct (for_range_bound _ _ _ Hi) as (x & y & Ex & Ey & Hb).
    apply Math_max_Fin_l in Ex.
    unfold endBin, of_nat, sub in Ey. cbn [opp add] in Ey.
    apply Math_min_Fin_l in Ey.
    assert (Hiy : (INR i <= y)%R) by (apply Hb; lra).
    apply INR_lt. lra.
  - exists 0%R, 0%R. split; [reflexivity | lra].
  - rewrite E. cbn [fst snd]. unfold gtb. cbn [ltb].
    destruct (Rltb 0 w) eqn:Ew; [|apply between_Fin; lra].
    apply Rltb_true in Ew. rewrite div_Fin by lra. apply between_Fin.
    assert (Hinv' : (0 < / w)%R) by now apply Rinv_0_lt_compat.
    assert (E1 : (w * / w = 1)%R) by (field; lra).
    unfold Rdiv. split; nra.
Qed.

Lemma analyze_bandValues_unit (s : AudioAnalyzer) (freqData : list byte) (alpha : num) :
  (forall l, _fftSmooth s = Some l -> Forall (between 0 1) l) ->
  isNaN alpha = false ->
  Forall (between 0 1) (analyze_bandValues s freqData alpha).
Proof.
  intros Hf Ha. apply tabulate_Forall. intros b _.
  apply band_value_unit. now apply analyze_fft_unit.
Qed.

Lemma max_between (lo hi : R) (a b : num) :
  between lo hi a -> between lo hi b -> between lo hi (Math_max a b).
Proof.
  intros (x & -> & Hx) (y & -> & Hy). rewrite Math_max_Fin. apply between_Fin.
  unfold Rmax. destruct (Rle_dec x y); lra.
Qed.

Lemma decay_between (hi k : R) (a : num) :
  between 0 hi a -> (0 <= k <= 1)%R -> between 0 hi (a * Fin k).
Proof.
  intros (x & -> & Hx) Hk. cbn [mul]. apply between_Fin. nra.
Qed.

Lemma analyze_bandPeaks_unit (s : AudioAnalyzer) (vals : list num) :
  Forall (between 0 1) (bandPeaks s) -> List.length (bandPeaks s) = bands s ->
  Forall (between 0 1) vals -> List.length vals = bands s ->
  Forall (between 0 1) (analyze_bandPeaks s vals).
Proof.
  intros Hp Hpl Hv Hvl. apply tabulate_Forall. intros b Hb.
  apply max_between.
  - apply decay_between; [|lra]. apply get_Forall; auto. lia.
  - apply get_Forall; auto. lia.
Qed.

Lemma analyze_onsetDecay_unit (s : AudioAnalyzer) (vals : list num) :
  Forall finite vals -> List.length vals = bands s ->
  Forall finite (prevBandValues s) -> List.length (prevBandValues s) = bands s ->
  Forall (between 0 1) (onsetDecay s) -> List.length (onsetDecay s) = bands s ->
  Forall (between 0 1) (analyze_onsetDecay s vals).
Proof.
  intros Hv Hvl Hp Hpl Ho Hol. apply tabulate_Forall. intros b Hb.
  assert (Hn : nonneg (band_pos vals (prevBandValues s) b))
    by (apply band_pos_nonneg; apply get_finite; auto; lia).
  apply max_between.
  - apply decay_between; [|lra]. apply get_Forall; auto. lia.
  - apply clamp_between; [|lra]. apply finite_not_NaN. auto with fin.
Qed.

Lemma Forall_between_finite (lo hi : R) (l : list num) :
  Forall (between lo hi) l -> Forall finite l.
Proof. apply Forall_impl. intros x. apply between_finite. Qed.

Lemma finite_clamp_between (v : num) (a b : R) :
  finite (clamp v (Fin a) (Fin b)) -> (a <= b)%R -> between a b (clamp v (Fin a) (Fin b)).
Proof.
  intros Hf Hab. destruct (isNaN v) eqn:E.
  - destruct v; discriminate.
  - now apply clamp_between.
Qed.

Lemma pushHist_Forall (P : num -> Prop) (arr : list num) (v : num) (maxLen : nat) :
  Forall P arr -> P v -> Forall P (pushHist arr v maxLen).
Proof.
  intros Ha Hv. unfold pushHist.
  assert (H : Forall P (arr ++ [v])) by (apply Forall_app; auto).
  destruct (Nat.ltb _ _); auto.
  destruct (arr ++ [v]); cbn; auto. now inversion H.
Qed.

(** *** The RMS of the time-domain samples *)

Lemma time_sample_square (b : byte) :
  exists q : R, time_sample b * time_sample b = Fin q /\ (0 <= q <= 1)%R.
Proof.
  unfold time_sample. destruct (byte_num_range b) as (r & -> & Hr).
  unfold sub. cbn [opp add]. rewrite div_Fin by lra. cbn [mul].
  eexists. split; [reflexivity|].
  set (q := ((r + - (128)) / 128)%R).
  assert (Hq : (-1 <= q <= 1)%R) by (unfold q; lra). nra.
Qed.

Lemma time_loop_sum (l : list byte) :
  forall (prev : option byte) (acc : num * num) (a : R),
    fst acc = Fin a -> (0 <= a)%R ->
    exists a' : R,
      fst (time_loop prev l acc) = Fin a' /\ (a <= a' <= a + INR (List.length l))%R.
Proof.
  induction l as [|x l IH]; intros prev acc a Ea Ha.
  - exists a. cbn [time_loop List.length INR]. split; [exact Ea | lra].
  - cbn [time_loop].
    destruct (time_sample_square x) as (q & Eq & Hq).
    destruct (IH (Some x)
                 (fst acc + time_sample x * time_sample x,
                  match prev with
                  | Some p => if crosses_zero (time_sample x) (time_sample p)
                              then snd acc + 1 else snd acc
                  | None => snd acc
                  end) (a + q)%R) as (a' & E' & Ha').
    + cbn [fst]. now rewrite Ea, Eq.
    + lra.
    + exists a'. split; [exact E'|].
      change (List.length (x :: l)) with (S (List.length l)). rewrite S_INR. lra.
Qed.

Lemma analyze_rms_unit (s : AudioAnalyzer) (timeData : option (list byte)) :
  between 0 1 (rms s) -> between 0 1 (fst (analyze_rms s timeData)).
Proof.
  intros Hr. unfold analyze_rms.
  destruct timeData as [[|x t]|]; cbn [fst]; auto.
  destruct (@time_loop_sum (x :: t) None (Fin 0, Fin 0) 0) as (a & -> & Ha);
    [reflexivity | lra |].
  set (n := List.length (x :: t)) in *.
  assert (Hn : (1 <= INR n)%R).
  { change 1%R with (INR 1). apply le_INR. unfold n. cbn. lia. }
  unfold of_nat. rewrite div_Fin by lra.
  assert (Hq : (0 <= a / INR n <= 1)%R).
  { assert (Hinv : (0 < / INR n)%R) by (apply Rinv_0_lt_compat; lra).
    assert (E1 : (INR n * / INR n = 1)%R) by (field; lra).
    unfold Rdiv. split; nra. }
  cbn [Math_sqrt].
  assert (E : Rltb (a / INR n) 0 = false) by (apply Rltb_false; lra).
  rewrite E. apply between_Fin. split; [apply sqrt_pos|].
  rewrite <- sqrt_1. apply sqrt_le_1_alt. lra.
Qed.

(** *** The spectral centroid *)

Lemma band_sums_centroid (nbands : nat) (vals : list num) (l : list nat) :
  Forall (between 0 1) vals -> List.length vals = nbands ->
  (forall b, In b l -> (b < nbands)%nat) ->
  forall acc : band_sums,
    (exists c w : R, sumCentroid acc = Fin c /\ sumCentroidWeight acc = Fin w
                     /\ (0 <= c <= w)%R) ->
    exists c w : R,
      sumCentroid (fold_left (band_sums_step nbands vals) l acc) = Fin c
      /\ sumCentroidWeight (fold_left (band_sums_step nbands vals) l acc) = Fin w
      /\ (0 <= c <= w)%R.
Proof.
  intros Hv Hl. induction l as [|b l IH]; intros Hb acc Hacc; cbn [fold_left]; auto.
  apply IH; [intros; apply Hb; now right|].
  destruct Hacc as (c & w & Ec & Ew & Hcw).
  assert (Hbn : (b < nbands)%nat) by (apply Hb; now left).
  destruct (@get_Forall (between 0 1) vals b Hv) as (v & Ev & Hv01); [lia|].
  unfold band_sums_step. cbn [sumCentroid sumCentroidWeight]. rewrite Ec, Ew, Ev.
  assert (HN : (0 < INR nbands)%R) by (apply lt_0_INR; lia).
  unfold of_nat. rewrite div_Fin by lra. cbn [mul add].
  do 2 eexists. split; [reflexivity|]. split; [reflexivity|].
  assert (Hq : (0 <= INR b / INR nbands <= 1)%R).
  { assert (Hinv : (0 < / INR nbands)%R) by now apply Rinv_0_lt_compat.
    assert (E1 : (INR nbands * / INR nbands = 1)%R) by (field; lra).
    assert (Hle : (INR b <= INR nbands)%R) by (apply le_INR; lia).
    pose proof (pos_INR b). unfold Rdiv. split; nra. }
  nra.
Qed.

Lemma spectralCentroid_unit (nbands : nat) (vals : list num) :
  Forall (between 0 1) vals -> List.length vals = nbands ->
  let sums := analyze_band_sums nbands vals in
  between 0 1 (if sumCentroidWeight sums >? 0.000001
               then sumCentroid sums / sumCentroidWeight sums else Fin 0.5).
Proof.
  intros Hv Hl sums.
  destruct (@band_sums_centroid nbands vals (seq 0 nbands) Hv Hl) with
    (acc := {| sumEnergy := Fin 0; sumCentroid := Fin 0; sumCentroidWeight := Fin 0;
               geoMean := Fin 0; arithmeticMean := Fin 0 |})
    as (c & w & Ec & Ew & Hcw).
  - intros b Hb. apply in_seq in Hb. lia.
  - exists 0%R, 0%R. cbn. repeat split; lra.
  - unfold sums, analyze_band_sums. rewrite Ec, Ew. unfold gtb. cbn [ltb].
    destruct (Rltb 0.000001 w) eqn:E; [|apply between_Fin; lra].
    apply Rltb_true in E. rewrite div_Fin by lra. apply between_Fin.
    assert (Hinv : (0 < / w)%R) by (apply Rinv_0_lt_compat; lra).
    assert (E1 : (w * / w = 1)%R) by (field; lra).
    unfold Rdiv. split; nra.
Qed.

(** *** The onset envelopes *)

Lemma trigOnset_between (hist : list num) (v now last : num)
    (k cooldown sensitivity : R) (maxLen : nat) :
  Forall finite hist -> nonneg v -> (0 < sensitivity)%R ->
  between 0 1.5
    (fst (trigOnset now v (_adaptiveThreshold (pushHist hist v maxLen) (Fin k)) last
                    (Fin cooldown) (Fin sensitivity))).
Proof.
  intros Hh Hv Hs.
  destruct (@trigOnset_strength now v
              (_adaptiveThreshold (pushHist hist v maxLen) (Fin k)) last
              cooldown sensitivity) as (r & -> & Hr); auto with fin.
  - apply adaptiveThreshold_finite, pushHist_finite; auto with fin.
  - apply between_Fin. lra.
Qed.

Lemma fired_between (s : AudioAnalyzer) (f : flux_sums) (now : num) :
  analyzer_ok s -> nonneg_flux f ->
  between 0 1.5 (fst (fired_global s f now))
  /\ between 0 1.5 (fst (fired_kick s f now))
  /\ between 0 1.5 (fst (fired_snare s f now))
  /\ between 0 1.5 (fst (fired_hihat s f now)).
Proof.
  intros Ok [F1 F2 F3 F4]. destruct Ok.
  unfold fired_global, fired_kick, fired_snare, fired_hihat.
  repeat apply conj; apply trigOnset_between; auto; lra.
Qed.

(** *** The analyzer keeps its features in range *)

Lemma new_AudioAnalyzer_ranges : analyzer_ranges new_AudioAnalyzer.
Proof.
  assert (Hz : forall n, Forall (between 0 1) (Float32Array n)).
  { intros n. apply Forall_forall. intros x Hx. apply repeat_spec in Hx. subst x.
    apply between_Fin. lra. }
  constructor;
    cbn [new_AudioAnalyzer _fftSmooth bandValues bandPeaks prevBandValues onsetDecay
         onsetKick onsetSnare onsetHihat onsetGlobal spectralFlux transientSharpness
         energy harmonicRatio spectralCentroid rms
         _fluxHist _fluxKickHist _fluxSnareHist _fluxHihatHist];
    try apply Hz; try (apply between_Fin; lra); try constructor.
  intros l [=].
Qed.

Lemma setFFTInfo_ranges (s : AudioAnalyzer) (fftSize' sampleRate' : num) :
  analyzer_ranges s -> analyzer_ranges (setFFTInfo s fftSize' sampleRate').
Proof. intros []. constructor; assumption. Qed.

Lemma analyze_ranges (s : AudioAnalyzer) (fr : frame) :
  analyzer_ok s -> analyzer_ranges s -> wf_frame fr ->
  analyzer_ranges (snd (analyze_frame s fr)).
Proof.
  intros Ok Rg Hwf.
  pose proof (analyze_ok Ok Hwf) as Ok'.
  destruct Hwf as [Hdt Halpha].
  destruct fr as [freq time dt0 alpha0]. cbn [dt smoothingAlpha] in Hdt, Halpha.
  unfold analyze_frame in *. cbn [freqData timeData dt smoothingAlpha] in *.
  set (alpha := match alpha0 with Some a => a | None => Fin 0.18 end) in *.
  assert (Ha : isNaN alpha = false).
  { unfold alpha. destruct alpha0; auto. }
  pose proof (@analyze_fft_unit s freq alpha (rg_fftSmooth Rg) Ha) as Hfft.
  pose proof (@analyze_bandValues_unit s freq alpha (rg_fftSmooth Rg) Ha) as Hvals.
  pose proof (@analyze_bandValues_finite s freq alpha (ok_fftSmooth Ok) Ha) as Hvfin.
  pose proof (analyze_bandValues_length s freq alpha) as Hvlen.
  pose proof (@flux_sqrt_nonneg _
                (@flux_loop_nonneg s (analyze_bandValues s freq alpha) Hvfin Hvlen
                   (ok_prevBandValues Ok) (ok_prevBandValues_len Ok))) as Hf.
  destruct (@fired_between s _ (_tMs s + dt0 * 1000) Ok Hf) as (G & K & N & H).
  pose proof (ok_spectralFlux Ok') as Fflux.
  pose proof (ok_transientSharpness Ok') as Fsharp.
  pose proof (ok_energy Ok') as Fenergy.
  pose proof (ok_harmonicRatio Ok') as Fharm.
  destruct Hf as [F1 F2 F3 F4].
  constructor; unfold analyze in *; fold alpha;
    cbn [snd bands bandValues bandPeaks bandEdges prevBandValues onsetDecay _fftSmooth
         spectralCentroid spectralFlux energy onsetKick onsetSnare onsetHihat onsetGlobal
         _fluxHist _fluxKickHist _fluxSnareHist _fluxHihatHist rms
         transientSharpness harmonicRatio] in *.
  - intros l [= <-]. exact Hfft.
  - exact Hvals.
  - apply analyze_bandPeaks_unit; auto.
    + exact (rg_bandPeaks Rg).
    + exact (ok_bandPeaks_len Ok).
  - apply tabulate_Forall. intros b Hb. apply get_Forall; auto. lia.
  - apply analyze_onsetDecay_unit; auto.
    + exact (ok_prevBandValues Ok).
    + exact (ok_prevBandValues_len Ok).
    + exact (rg_onsetDecay Rg).
    + exact (ok_onsetDecay_len Ok).
  - apply max_between; [exact K|]. apply decay_between; [exact (rg_onsetKick Rg) | lra].
  - apply max_between; [exact N|]. apply decay_between; [exact (rg_onsetSnare Rg) | lra].
  - apply max_between; [exact H|]. apply decay_between; [exact (rg_onsetHihat Rg) | lra].
  - apply max_between; [exact G|]. apply decay_between; [exact (rg_onsetGlobal Rg) | lra].
  - apply finite_clamp_between; [exact Fflux | lra].
  - apply (@between_weaken 0 2.0); [|lra|lra].
    apply finite_clamp_between; [exact Fsharp | lra].
  - apply finite_clamp_between; [exact Fenergy | lra].
  - pose proof (rg_harmonicRatio Rg) as Hold.
    unfold analyze_rms in *. destruct time as [[|x t]|]; cbn [snd] in *;
      try exact Hold.
    apply finite_clamp_between; [exact Fharm | lra].
  - now apply spectralCentroid_unit.
  - apply analyze_rms_unit. exact (rg_rms Rg).
  - apply pushHist_Forall; [exact (rg_fluxHist Rg) | exact F1].
  - apply pushHist_Forall; [exact (rg_fluxKickHist Rg) | exact F2].
  - apply pushHist_Forall; [exact (rg_fluxSnareHist Rg) | exact F3].
  - apply pushHist_Forall; [exact (rg_fluxHihatHist Rg) | exact F4].
Qed.

Lemma reachable_wf_ranges (s : AudioAnalyzer) : reachable_wf s -> analyzer_ranges s.
Proof.
  induction 1 as [|s f r Hs IH|s fr Hs IH Hfr].
  - apply new_AudioAnalyzer_ranges.
  - now apply setFFTInfo_ranges.
  - apply analyze_ranges; auto. now apply reachable_wf_ok.
Qed.

Lemma reachable_bandValues_length (s : AudioAnalyzer) :
  reachable_wf s -> List.length (bandValues s) = 64%nat /\ bands s = 64%nat.
Proof.
  induction 1 as [|s f r Hs IH|s fr Hs IH Hfr].
  - split; reflexivity.
  - exact IH.
  - destruct IH as [_ Hb]. unfold analyze_frame, analyze. cbn [snd bandValues bands].
    now rewrite analyze_bandValues_length.
Qed.

(** *** Band peaks *)

Lemma new_spectrum_ok : spectrum_ok new_AudioAnalyzer.
Proof.
  constructor; try reflexivity.
  - intros l [=].
  - cbn [new_AudioAnalyzer bandPeaks]. apply Forall_forall. intros x Hx.
    apply repeat_spec in Hx. subst x. apply between_Fin. lra.
Qed.

Lemma analyze_spectrum_ok (s : AudioAnalyzer) (fr : frame) :
  spectrum_ok s -> alpha_frame fr -> spectrum_ok (snd (analyze_frame s fr)).
Proof.
  intros [Hb Hf Hp Hl] Ha.
  set (alpha := match smoothingAlpha fr with Some a => a | None => Fin 0.18 end).
  assert (Hn : isNaN alpha = false).
  { unfold alpha. destruct (smoothingAlpha fr) as [a|] eqn:E; [now apply Ha | reflexivity]. }
  constructor.
  - exact Hb.
  - intros l. unfold analyze_frame, analyze. cbn [snd _fftSmooth]. intros [= <-].
    now apply analyze_fft_unit.
  - rewrite bandPeaks_analyze, bandValues_analyze. fold alpha.
    apply analyze_bandPeaks_unit; auto; try congruence.
    + now apply analyze_bandValues_unit.
    + apply analyze_bandValues_length.
  - rewrite bandPeaks_analyze. unfold analyze_bandPeaks.
    now rewrite tabulate_length.
Qed.

Lemma reachable_alpha_spectrum (s : AudioAnalyzer) : reachable_alpha s -> spectrum_ok s.
Proof.
  induction 1 as [|s f r Hs IH|s fr Hs IH Hfr].
  - apply new_spectrum_ok.
  - destruct IH. constructor; assumption.
  - now apply analyze_spectrum_ok.
Qed.

Lemma smooth_bin_NaN_alpha (old : R) :
  (old < 1)%R -> smooth_bin (clamp NaN 0.05 0.4) "255"%byte (Fin old) = NaN.
Proof.
  intros Ho. unfold smooth_bin.
  assert (El : Math_pow (byte_num "255"%byte / 255) 1.2 = Fin 1).
  { unfold byte_num, of_Z. cbn [Byte.to_N Z.of_N]. rewrite div_Fin by lra.
    replace (255 / 255)%R with 1%R by lra. cbn. rdec. now rewrite Rpower_1_l. }
  rewrite El. unfold gtb. cbn [ltb].
  assert (E : Rltb old 1 = true) by now apply Rltb_true.
  rewrite E. reflexivity.
Qed.

(** A band with at least one bin, over bins that are all [NaN], is [NaN]. *)
Lemma band_value_NaN (N : nat) (hzPerBin lowHz highHz : num) :
  for_range (Math_max 1 (Math_floor (lowHz / hzPerBin)))
            (Math_min (of_nat N - 1) (Math_ceil (highHz / hzPerBin))) <> [] ->
  band_value (repeat NaN N) hzPerBin lowHz highHz = NaN.
Proof.
  intros Hne. unfold band_value. rewrite repeat_length.
  set (startBin := Math_max 1 _) in *. set (endBin := Math_min (of_nat N - 1) _) in *.
  assert (Hin : forall i, In i (for_range startBin endBin) -> (i < N)%nat).
  { intros i Hi. destruct (for_range_bound _ _ _ Hi) as (x & y & Ex & Ey & Hb).
    apply Math_max_Fin_l in Ex.
    unfold endBin, of_nat, sub in Ey. cbn [opp add] in Ey.
    apply Math_min_Fin_l in Ey.
    assert (Hiy : (INR i <= y)%R) by (apply Hb; lra).
    apply INR_lt. lra. }
  assert (Hstep : forall (i : nat) (a : num) (w : R),
             (i < N)%nat -> (0 <= w)%R ->
             exists w' : R,
               bin_step (repeat NaN N) N (a, Fin w) i = (NaN, Fin w') /\ (1 <= w')%R).
  { intros i a w Hi Hw. unfold bin_step. cbn [fst snd]. rewrite get_repeat by exact Hi.
    assert (HN : INR N <> 0%R) by (apply not_0_INR; lia).
    assert (Hq : (0 <= INR i / INR N)%R).
    { apply Rmult_le_pos; [apply pos_INR|].
      left; apply Rinv_0_lt_compat. pose proof (pos_INR N); lra. }
    unfold of_nat. rewrite div_Fin by exact HN. cbn [mul add].
    exists (w + (1.0 + INR i / INR N * 0.5))%R. split; [|lra].
    destruct a; reflexivity. }
  assert (Hinv : forall l (w : R),
             (forall i, In i l -> (i < N)%nat) -> (1 <= w)%R ->
             exists w' : R,
               fold_left (bin_step (repeat NaN N) N) l (NaN, Fin w) = (NaN, Fin w')
               /\ (1 <= w')%R).
  { induction l as [|i l IH]; intros w Hl Hw; cbn [fold_left].
    - exists w. auto.
    - destruct (Hstep i NaN w) as (w1 & -> & Hw1); [apply Hl; now left | lra |].
      apply IH; [intros j Hj; apply Hl; now right | exact Hw1]. }
  destruct (for_range startBin endBin) as [|i l]; [contradiction|].
  cbn [fold_left].
  destruct (Hstep i (Fin 0) 0%R) as (w1 & -> & Hw1); [apply Hin; now left | lra |].
  destruct (Hinv l w1) as (w' & -> & Hw'); [intros j Hj; apply Hin; now right | exact Hw1 |].
  cbn [fst snd]. unfold gtb. cbn [ltb].
  assert (E : Rltb 0 w' = true) by (apply Rltb_true; lra).
  now rewrite E.
Qed.

(** C9 (as stated, refuted): a fresh analyzer is given a full-scale frame
    with [smoothingAlpha = NaN].  Every smoothed bin becomes [NaN], and with
    them the value and the peak of band 0, so [bandPeaks[0] >= bandValues[0]]
    is false after the call. *)
Lemma bandPeaks_NaN_after_NaN_alpha :
  let s' := snd (analyze_frame new_AudioAnalyzer NaN_alpha_frame) in
  get (bandValues s') 0 = NaN
  /\ get (bandPeaks s') 0 = NaN
  /\ (get (bandPeaks s') 0 >=? get (bandValues s') 0) = false.
Proof.
  intros s'.
  assert (Efft : analyze_fft new_AudioAnalyzer (repeat "255"%byte 4096) NaN
                 = repeat NaN 4096).
  { unfold analyze_fft. rewrite repeat_length.
    cbn [new_AudioAnalyzer _fftSmooth _ensureFftSmooth]. unfold Float32Array.
    rewrite combine_repeat, map_repeat. cbn [fst snd].
    rewrite smooth_bin_NaN_alpha by lra. reflexivity. }
  assert (Ev : get (bandValues s') 0 = NaN).
  { unfold s'. rewrite bandValues_analyze. cbn [NaN_alpha_frame freqData smoothingAlpha].
    unfold analyze_bandValues. rewrite get_tabulate by (cbn; lia).
    rewrite Efft. cbn [new_AudioAnalyzer bandEdges sampleRate fftSize].
    apply band_value_NaN. apply band0_has_bins. lia. }
  assert (Ep : get (bandPeaks s') 0 = NaN).
  { unfold s'. rewrite bandPeaks_analyze. fold s'.
    unfold analyze_bandPeaks. rewrite get_tabulate by (cbn; lia). rewrite Ev.
    unfold Math_max. cbn [isNaN]. now rewrite orb_true_r. }
  split; [exact Ev|]. split; [exact Ep|]. now rewrite Ep, Ev.
Qed.



(** X13: after the constructor and after every call with a finite [dt] and
    a [smoothingAlpha] that is not [NaN], the smoothed bins, the band
    values, the band peaks and the per-band onsets all lie in [0, 1]; so do
    [getBand(i)] and [getOnset(i)] for every index [i >= 0], which read band
    63 for every [i >= 63]. *)
Theorem spectrum_in_unit_interval :
  forall s : AudioAnalyzer, reachable_wf s ->
    (forall l, _fftSmooth s = Some l -> Forall (between 0 1) l)
    /\ Forall (between 0 1) (bandValues s)
    /\ Forall (between 0 1) (bandPeaks s)
    /\ Forall (between 0 1) (onsetDecay s)
    /\ (forall i : nat, between 0 1 (getBand s i) /\ between 0 1 (getOnset s i))
    /\ (forall i : nat, (63 <= i)%nat ->
          getBand s i = getBand s 63 /\ getOnset s i = getOnset s 63).
Proof.
  intros s Hs.
  pose proof (reachable_wf_ranges Hs) as Rg.
  pose proof (reachable_wf_ok Hs) as Ok.
  destruct (reachable_bandValues_length Hs) as [Hlen Hb].
  split; [exact (rg_fftSmooth Rg)|].
  split; [exact (rg_bandValues Rg)|].
  split; [exact (rg_bandPeaks Rg)|].
  split; [exact (rg_onsetDecay Rg)|].
  split.
  - intros i. unfold getBand, getOnset. rewrite Hb. split.
    + apply get_Forall; [exact (rg_bandValues Rg) | lia].
    + apply get_Forall; [exact (rg_onsetDecay Rg)|].
      rewrite (ok_onsetDecay_len Ok), Hb. lia.
  - intros i Hi. unfold getBand, getOnset. rewrite Hb.
    replace (Nat.min i (64 - 1)) with (Nat.min 63 (64 - 1)) by lia. auto.
Qed.

Lemma wf_uniform_frame (level : byte) (d : R) : wf_frame (uniform_frame level d).
Proof. split; [reflexivity | intros a [=]]. Qed.

Lemma reachable_wf_cycles (k : nat) : reachable_wf (run new_AudioAnalyzer (cycles k)).
Proof.
  assert (H : forall l s, Forall wf_frame l -> reachable_wf s -> reachable_wf (run s l)).
  { induction l as [|fr l IH]; intros s Hl Hs; [exact Hs|].
    cbn [run fold_left]. inversion Hl; subst. apply IH; auto.
    now apply reachable_analyze. }
  apply H; [|apply reachable_new].
  induction k as [|k IH]; [constructor|].
  unfold cycles in *. cbn [repeat List.concat]. apply Forall_app. split; [|exact IH].
  repeat constructor; apply wf_uniform_frame.
Qed.

Lemma spectrum_in_unit_interval_witness :
  between 0 1 (getBand (run new_AudioAnalyzer (cycles 4)) 0)
  /\ between 0 1 (getOnset (run new_AudioAnalyzer (cycles 4)) 0).
Proof.
  destruct (@spectrum_in_unit_interval _ (reachable_wf_cycles 4)) as (_ & _ & _ & _ & H & _).
  exact (H 0%nat).
Defined.


(** *** A spectrum that does not rise fires nothing *)

Lemma nonneg_lerp (a b t : num) :
  nonneg a -> nonneg b -> between 0 1 t -> nonneg (lerp a b t).
Proof.
  intros (x & -> & Hx) (y & -> & Hy) (u & -> & Hu). rewrite lerp_Fin.
  apply nonneg_Fin. nra.
Qed.

Lemma median_nonneg (arr : list num) : Forall nonneg arr -> nonneg (_median arr).
Proof.
  intros Ha. unfold _median.
  destruct (Nat.eqb_spec (List.length arr) 0) as [E|Hn]; [apply nonneg_Fin; lra|].
  set (a := sort_ascending arr).
  assert (Hfa : Forall nonneg a) by now apply sort_ascending_Forall.
  assert (Hla : List.length a = List.length arr) by apply sort_ascending_length.
  rewrite Hla.
  set (len := List.length arr) in *.
  assert (Hlen : (1 <= INR len)%R).
  { change 1%R with (INR 1). apply le_INR. lia. }
  unfold of_nat, sub. cbn [opp add mul Math_floor Math_ceil].
  set (mid := ((INR len + - (1)) * 0.5)%R).
  assert (Hmid : (0 <= mid)%R) by (unfold mid; lra).
  assert (Hmid' : (mid <= INR len - 1)%R) by (unfold mid; lra).
  assert (Hlo : (0 <= Int_part mid < Z.of_nat len)%Z).
  { split; [now apply Int_part_nonneg|].
    pose proof (Int_part_le mid) as H.
    apply lt_IZR. rewrite <- INR_IZR_INZ. lra. }
  assert (Hhi : (0 <= - Int_part (- mid) < Z.of_nat len)%Z).
  { destruct (base_Int_part (- mid)) as [H1 H2]. split.
    - assert (H : (IZR (Int_part (- mid)) < IZR 1)%R) by (cbn; lra).
      apply lt_IZR in H. lia.
    - apply lt_IZR. rewrite opp_IZR, <- INR_IZR_INZ. lra. }
  rewrite <- Hla in Hlo, Hhi.
  apply nonneg_lerp.
  - now apply get_at_Forall.
  - now apply get_at_Forall.
  - apply between_Fin. pose proof (fract_range mid). lra.
Qed.

(** The adaptive threshold of a history of non-negative numbers is
    positive: at least [k] millionths. *)
Lemma adaptiveThreshold_pos (history : list num) (k : R) :
  Forall nonneg history -> (0 < k)%R ->
  exists t : R, _adaptiveThreshold history (Fin k) = Fin t /\ (0 < t)%R.
Proof.
  intros Hh Hk. unfold _adaptiveThreshold, _mad.
  destruct (median_nonneg Hh) as (m & Em & Hm). rewrite Em.
  assert (Hdev : Forall nonneg (map (fun v => Math_abs (v - Fin m)) history)).
  { apply Forall_forall. intros x Hx. apply in_map_iff in Hx.
    destruct Hx as (v & <- & Hv). rewrite Forall_forall in Hh.
    destruct (Hh v Hv) as (r & -> & _). unfold sub. cbn [opp add Math_abs].
    apply nonneg_Fin, Rabs_pos. }
  destruct (median_nonneg Hdev) as (d & -> & Hd).
  cbn [add mul]. eexists. split; [reflexivity|]. nra.
Qed.

Lemma trigOnset_zero (hist : list num) (now last : num) (k cooldown sensitivity : R)
    (maxLen : nat) :
  Forall nonneg hist -> (0 < k)%R ->
  trigOnset now (Fin 0) (_adaptiveThreshold (pushHist hist (Fin 0) maxLen) (Fin k)) last
            (Fin cooldown) (Fin sensitivity) = (Fin 0, last).
Proof.
  intros Hh Hk.
  destruct (@adaptiveThreshold_pos (pushHist hist (Fin 0) maxLen) k) as (t & -> & Ht); auto.
  { apply pushHist_Forall; auto. apply nonneg_Fin. lra. }
  unfold trigOnset.
  assert (E : (Fin 0 >? Fin t) = false).
  { unfold gtb. destruct (_ <? _) eqn:E; auto. apply ltb_Fin in E. lra. }
  now rewrite E.
Qed.

Lemma flux_add_zero (hz : num) : flux_add hz (Fin 0 * Fin 0) flux_zero = flux_zero.
Proof.
  unfold flux_add, flux_zero. cbn [flux fluxKick fluxSnare fluxHihat mul add].
  replace (0 + 0 * 0)%R with 0%R by lra.
  replace (0 + 0 * 0 * 2.0)%R with 0%R by lra.
  replace (0 + 0 * 0 * 0.5)%R with 0%R by lra.
  replace (0 + 0 * 0 * 1.5)%R with 0%R by lra.
  repeat match goal with |- context [if ?c then _ else _] => destruct c end; reflexivity.
Qed.

Lemma flux_loop_zero (s : AudioAnalyzer) (vals : list num) :
  (forall b, (b < bands s)%nat -> band_pos vals (prevBandValues s) b = Fin 0) ->
  flux_sqrt (flux_loop s vals) = flux_zero.
Proof.
  intros H. unfold flux_loop.
  assert (Hinv : forall l, (forall b, In b l -> (b < bands s)%nat) ->
             fold_left (flux_step (bandEdges s) vals (prevBandValues s)) l flux_zero
             = flux_zero).
  { induction l as [|b l IH]; intros Hl; [reflexivity|].
    cbn [fold_left]. unfold flux_step at 2. rewrite H by (apply Hl; now left).
    rewrite flux_add_zero. apply IH. intros; apply Hl; now right. }
  rewrite Hinv by (intros b Hb; apply in_seq in Hb; lia).
  unfold flux_sqrt, flux_zero. cbn [flux fluxKick fluxSnare fluxHihat Math_sqrt].
  assert (E : Rltb 0 0 = false) by (apply Rltb_false; lra).
  rewrite E, sqrt_0. reflexivity.
Qed.

(** X15: a call in which no band value is above its value in the previous
    call (a steady or falling spectrum, silence included) has no spectral
    flux, so none of the four onset detectors fires, [analyze] returns
    [false], and [spectralFlux] is 0 and the beat counters are unchanged
    after it. *)
Theorem steady_spectrum_fires_nothing :
  forall (s : AudioAnalyzer) (fr : frame),
    reachable_wf s -> wf_frame fr -> no_band_rises s fr ->
    (forall c : channel, call_onset c s fr = Fin 0)
    /\ fst (analyze_frame s fr) = false
    /\ spectralFlux (snd (analyze_frame s fr)) = Fin 0
    /\ beatCount (snd (analyze_frame s fr)) = beatCount s
    /\ barCount (snd (analyze_frame s fr)) = barCount s.
Proof.
  intros s fr Hs Hwf Hno.
  pose proof (reachable_wf_ranges Hs) as Rg.
  assert (Hz : call_flux s fr = flux_zero).
  { unfold call_flux. apply flux_loop_zero. intros b Hb.
    destruct (Hno b Hb) as (v & p & Ev & Ep & Hvp).
    unfold call_bandValues in Ev. unfold band_pos. rewrite Ev, Ep.
    unfold sub. cbn [opp add]. rewrite Math_max_Fin. f_equal. apply Rmax_left. lra. }
  assert (Hquiet : forall c : channel, call_onset c s fr = Fin 0).
  { intros c. unfold call_onset. rewrite Hz.
    destruct c; unfold fired_kick, fired_snare, fired_hihat, fired_global;
      cbn [flux fluxKick fluxSnare fluxHihat flux_zero];
      rewrite trigOnset_zero; try reflexivity; try lra; apply Rg. }
  assert (Hbeat : fst (analyze_frame s fr) = false).
  { pose proof (Hquiet Kick) as Hk. unfold call_onset, call_flux in Hk.
    unfold analyze_frame, analyze. cbn [fst]. unfold beat_fires.
    rewrite Hk.
    assert (E : (Fin 0 >? 0.3) = false).
    { unfold gtb. destruct (_ <? _) eqn:E; auto. apply ltb_Fin in E. lra. }
    now rewrite E. }
  split; [exact Hquiet|]. split; [exact Hbeat|]. split.
  - unfold call_flux in Hz. unfold analyze_frame, analyze. cbn [snd spectralFlux].
    rewrite Hz. cbn [flux flux_zero mul]. rewrite clamp_Fin. f_equal.
    rewrite Rmax_left by lra. apply Rmin_right. lra.
  - destruct (analyze_counts s fr) as [Hc Hb]. cbn zeta in Hc, Hb.
    rewrite Hbeat in Hc, Hb. cbn [andb] in Hb. split; assumption.
Qed.

Lemma silence_no_band_rises : no_band_rises new_AudioAnalyzer silence.
Proof.
  intros b Hb. cbn [new_AudioAnalyzer bands] in Hb.
  pose proof new_uniform as U.
  assert (Efft : analyze_fft new_AudioAnalyzer (repeat "000"%byte 4096) 0.18
                 = repeat (Fin (0 * 0.82)) 4096).
  { apply analyze_fft_silent; [lra | exact (u_fft U)]. }
  exists (band_level (0 * 0.82) b), (band_level 0 b). split; [|split].
  - exact (@uniform_bandValues new_AudioAnalyzer 0 (0 * 0.82) "000"%byte b U Efft Hb).
  - exact (u_prev U Hb).
  - apply band_level_le. lra.
Qed.

Lemma steady_spectrum_fires_nothing_witness :
  (forall c : channel, call_onset c new_AudioAnalyzer silence = Fin 0)
  /\ fst (analyze_frame new_AudioAnalyzer silence) = false.
Proof.
  destruct (@steady_spectrum_fires_nothing new_AudioAnalyzer silence) as (H1 & H2 & _).
  - apply reachable_new.
  - apply wf_uniform_frame.
  - exact silence_no_band_rises.
  - split; assumption.
Defined.

(** *** [setFFTInfo] *)

Lemma exp_upper (y : R) : (0 <= y < 1)%R -> (exp y * (1 - y) <= 1)%R.
Proof.
  intros Hy. pose proof (exp_ineq1_le (- y)) as Hm.
  assert (Hprod : (exp y * exp (- y) = 1)%R).
  { rewrite <- exp_plus. replace (y + - y)%R with 0%R by lra. apply exp_0. }
  pose proof (exp_pos y) as Hp. nra.
Qed.

Lemma fround_20 : Math_fround (Fin 20) = Fin 20.
Proof.
  rewrite (@fround_below 20 4 10485760).
  - f_equal. change (powerRZ 2 (4 - 23)) with (/ 2 ^ 19)%R. field.
  - lia.
  - change (powerRZ 2 4) with (2 ^ 4)%R. change (powerRZ 2 (4 + 1)) with (2 ^ 5)%R. lra.
  - change (powerRZ 2 (4 - 23)) with (/ 2 ^ 19)%R.
    assert (E : (/ 2 ^ 19 = / 524288)%R) by (f_equal; lra).
    rewrite E. lra.
Qed.



(** *** The envelope followers *)

Lemma band_energy_sum (vals : list num) (l : list nat) :
  Forall (between 0 1) vals -> (forall i, In i l -> (i < List.length vals)%nat) ->
  forall a : R, (0 <= a)%R ->
    exists a' : R,
      fold_left (fun sum i => sum + get vals i) l (Fin a) = Fin a'
      /\ (a <= a' <= a + INR (List.length l))%R.
Proof.
  intros Hv. induction l as [|i l IH]; intros Hl a Ha.
  - exists a. cbn [fold_left List.length INR]. split; [reflexivity | lra].
  - cbn [fold_left].
    destruct (@get_Forall (between 0 1) vals i Hv) as (x & -> & Hx); [apply Hl; now left|].
    cbn [add].
    destruct (IH (fun j Hj => Hl j (or_intror Hj)) (a + x)%R) as (a' & E & Ha'); [lra|].
    exists a'. split; [exact E|].
    change (List.length (i :: l)) with (S (List.length l)). rewrite S_INR. lra.
Qed.

Lemma computeBandEnergy_unit (nbands : nat) (vals : list num) (startBand endBand : nat) :
  Forall (between 0 1) vals -> List.length vals = nbands -> (startBand <= endBand)%nat ->
  between 0 1 (computeBandEnergy nbands vals startBand endBand).
Proof.
  intros Hv Hl Hse. unfold computeBandEnergy.
  set (l := seq startBand (Nat.min (endBand + 1) nbands - startBand)).
  destruct (@band_energy_sum vals l Hv) with (a := 0%R) as (a & -> & Ha).
  - intros i Hi. apply in_seq in Hi. lia.
  - lra.
  - assert (Hlen : (INR (List.length l) <= INR endBand - INR startBand + 1)%R).
    { unfold l. rewrite length_seq.
      replace (INR endBand - INR startBand + 1)%R with (INR (endBand + 1 - startBand)).
      - apply le_INR. lia.
      - rewrite minus_INR by lia. rewrite plus_INR. change (INR 1) with 1%R. lra. }
    unfold of_nat, sub. cbn [opp add].
    assert (Hpos : (1 <= INR endBand + - INR startBand + 1)%R).
    { apply le_INR in Hse. lra. }
    rewrite div_Fin by lra. apply between_Fin.
    set (n := (INR endBand + - INR startBand + 1)%R) in *.
    assert (Hinv : (0 < / n)%R) by (apply Rinv_0_lt_compat; lra).
    assert (E1 : (n * / n = 1)%R) by (field; lra).
    assert (Han : (a <= n)%R) by (unfold n; lra).
    assert (H1 : (0 <= a * / n)%R) by (apply Rmult_le_pos; lra).
    assert (H2 : (0 <= (n - a) * / n)%R) by (apply Rmult_le_pos; lra).
    unfold Rdiv. split; [exact H1 | nra].
Qed.

(** The attack and release coefficients [1 - 0.001 ^ (dt * k)] lie in
    [0, 1] when [dt] is not negative. *)
Lemma pow_coeff_unit (d k : R) :
  (0 <= d)%R -> (0 < k)%R -> between 0 1 (1 - Math_pow 0.001 (Fin d * Fin k)).
Proof.
  intros Hd Hk. cbn [mul Math_pow].
  destruct (Reqb (d * k) 0) eqn:E0.
  - unfold sub. cbn. apply between_Fin. lra.
  - apply Reqb_false in E0.
    assert (E1 : Rltb 0 0.001 = true) by (apply Rltb_true; lra).
    rewrite E1. unfold sub. cbn [opp add]. apply between_Fin.
    destruct (@Rpower_unit 0.001 (d * k)); [lra | nra | lra].
Qed.

Lemma exp_coeff_unit (d tau : R) :
  (0 <= d)%R -> (0 < tau)%R -> between 0 1 (1 - Math_exp (- Fin d / Fin tau)).
Proof.
  intros Hd Ht. cbn [opp]. rewrite div_Fin by lra. cbn [Math_exp].
  unfold sub. cbn [opp add]. apply between_Fin.
  assert (Hq : (- d / tau <= 0)%R).
  { unfold Rdiv. assert (0 < / tau)%R by now apply Rinv_0_lt_compat. nra. }
  pose proof (exp_pos (- d / tau)).
  assert (exp (- d / tau) <= 1)%R.
  { rewrite <- exp_0. destruct (Req_dec (- d / tau) 0) as [->|Hne]; [lra|].
    left. apply exp_increasing. lra. }
  lra.
Qed.

Lemma updateEnv_unit (current target attack release : num) :
  between 0 1 current -> between 0 1 target ->
  between 0 1 attack -> between 0 1 release ->
  between 0 1 (updateEnv current target attack release).
Proof.
  intros Hc Ht Ha Hr. unfold updateEnv.
  change (between 0 1 (lerp current target (if target >? current then attack else release))).
  apply lerp_between'; auto. now destruct (_ >? _).
Qed.

Lemma new_AudioAnalyzer_envelopes : analyzer_envelopes new_AudioAnalyzer.
Proof. constructor; cbn; apply between_Fin; lra. Qed.

Lemma analyze_envelopes (s : AudioAnalyzer) (fr : frame) :
  analyzer_ok s -> analyzer_ranges s -> analyzer_envelopes s -> forward_frame fr ->
  analyzer_envelopes (snd (analyze_frame s fr)).
Proof.
  intros Ok Rg Ev [Hwf (d & Ed & Hd)].
  pose proof (analyze_ranges Ok Rg Hwf) as Rg'.
  pose proof (rg_rms Rg') as Hrms.
  destruct Hwf as [_ Halpha].
  destruct fr as [freq time dt0 alpha0]. cbn [dt smoothingAlpha] in Ed, Halpha.
  subst dt0.
  unfold analyze_frame in *. cbn [freqData timeData dt smoothingAlpha] in *.
  set (alpha := match alpha0 with Some a => a | None => Fin 0.18 end) in *.
  assert (Ha : isNaN alpha = false).
  { unfold alpha. destruct alpha0; auto. }
  pose proof (@analyze_bandValues_unit s freq alpha (rg_fftSmooth Rg) Ha) as Hvals.
  pose proof (analyze_bandValues_length s freq alpha) as Hvlen.
  assert (Hraw : forall a b, (a <= b)%nat ->
             between 0 1 (computeBandEnergy (bands s) (analyze_bandValues s freq alpha) a b)).
  { intros a b Hab. now apply computeBandEnergy_unit. }
  assert (Hcoef : forall k : R, (0 < k)%R -> between 0 1 (1 - Math_pow 0.001 (Fin d * Fin k))).
  { intros k Hk. now apply pow_coeff_unit. }
  assert (Henv : forall cur a b ka kr, between 0 1 cur -> (a <= b)%nat ->
             (0 < ka)%R -> (0 < kr)%R ->
             between 0 1 (updateEnv cur
                            (computeBandEnergy (bands s) (analyze_bandValues s freq alpha) a b)
                            (1 - Math_pow 0.001 (Fin d * Fin ka))
                            (1 - Math_pow 0.001 (Fin d * Fin kr)))).
  { intros. apply updateEnv_unit; auto. }
  unfold analyze in *; fold alpha in Hrms |- *.
  cbn [snd rms] in Hrms.
  assert (Hrs : between 0 1
            (rmsSmooth s + (fst (analyze_rms s time) - rmsSmooth s)
               * (if fst (analyze_rms s time) >? rmsSmooth s
                  then 1 - Math_exp (- Fin d / 0.005) else 1 - Math_exp (- Fin d / 0.15)))).
  { change (between 0 1 (lerp (rmsSmooth s) (fst (analyze_rms s time))
              (if fst (analyze_rms s time) >? rmsSmooth s
               then 1 - Math_exp (- Fin d / 0.005) else 1 - Math_exp (- Fin d / 0.15)))).
    apply lerp_between'; [exact (ev_rmsSmooth Ev) | exact Hrms |].
    destruct (fst (analyze_rms s time) >? rmsSmooth s); apply exp_coeff_unit; lra. }
  constructor;
    cbn [snd rmsSmooth rmsPeak smoothSubBass smoothBass smoothLowMid smoothMid
         smoothHighMid smoothHigh smoothBrilliance energy].
  - exact Hrs.
  - apply max_between; [|exact Hrs]. apply decay_between; [exact (ev_rmsPeak Ev) | lra].
  - apply Henv; try lia; try lra. exact (ev_smoothSubBass Ev).
  - apply Henv; try lia; try lra. exact (ev_smoothBass Ev).
  - apply Henv; try lia; try lra. exact (ev_smoothLowMid Ev).
  - apply Henv; try lia; try lra. exact (ev_smoothMid Ev).
  - apply Henv; try lia; try lra. exact (ev_smoothHighMid Ev).
  - apply Henv; try lia; try lra. exact (ev_smoothHigh Ev).
  - apply Henv; try lia; try lra. exact (ev_smoothBrilliance Ev).
  - destruct (@Henv (smoothSubBass s) 0%nat 3%nat 12.0 1.5) as (e1 & -> & H1);
      try lia; try lra; [exact (ev_smoothSubBass Ev)|].
    destruct (@Henv (smoothBass s) 4%nat 8%nat 12.0 1.5) as (e2 & -> & H2);
      try lia; try lra; [exact (ev_smoothBass Ev)|].
    destruct (@Henv (smoothLowMid s) 9%nat 16%nat 6.0 2.5) as (e3 & -> & H3);
      try lia; try lra; [exact (ev_smoothLowMid Ev)|].
    destruct (@Henv (smoothMid s) 17%nat 28%nat 6.0 2.5) as (e4 & -> & H4);
      try lia; try lra; [exact (ev_smoothMid Ev)|].
    destruct (@Henv (smoothHighMid s) 29%nat 40%nat 6.0 2.5) as (e5 & -> & H5);
      try lia; try lra; [exact (ev_smoothHighMid Ev)|].
    destruct (@Henv (smoothHigh s) 41%nat 52%nat 12.0 2.5) as (e6 & -> & H6);
      try lia; try lra; [exact (ev_smoothHigh Ev)|].
    cbn [mul add]. rewrite clamp_Fin. apply between_Fin.
    rewrite Rmax_right by lra. unfold Rmin.
    destruct (Rle_dec 1.5 _); lra.
Qed.

Lemma reachable_forward_envelopes (s : AudioAnalyzer) :
  reachable_forward s -> analyzer_envelopes s.
Proof.
  induction 1 as [|s f r Hs IH|s fr Hs IH Hfr].
  - apply new_AudioAnalyzer_envelopes.
  - destruct IH. constructor; assumption.
  - pose proof (reachable_forward_wf Hs) as Hwf.
    apply analyze_envelopes; auto.
    + now apply reachable_wf_ok.
    + now apply reachable_wf_ranges.
Qed.

(** X17: when every call is made with a [dt] that is not negative, the
    envelope followers never leave [0, 1]: [rmsSmooth], [rmsPeak] and the
    seven smoothed band energies, and with them [energy], whose clamp at
    1.5 is then never reached. *)
Theorem envelopes_in_unit_interval :
  forall s : AudioAnalyzer, reachable_forward s ->
    between 0 1 (rmsSmooth s) /\ between 0 1 (rmsPeak s)
    /\ between 0 1 (smoothSubBass s) /\ between 0 1 (smoothBass s)
    /\ between 0 1 (smoothLowMid s) /\ between 0 1 (smoothMid s)
    /\ between 0 1 (smoothHighMid s) /\ between 0 1 (smoothHigh s)
    /\ between 0 1 (smoothBrilliance s)
    /\ between 0 1 (energy s).
Proof.
  intros s Hs. destruct (reachable_forward_envelopes Hs). repeat split; assumption.
Qed.

Lemma forward_uniform_frame (level : byte) (d : R) :
  (0 <= d)%R -> forward_frame (uniform_frame level d).
Proof.
  intros Hd. split; [apply wf_uniform_frame|]. exists d. split; [reflexivity | exact Hd].
Qed.

Lemma reachable_forward_cycles (k : nat) :
  reachable_forward (run new_AudioAnalyzer (cycles k)).
Proof.
  assert (H : forall l s, Forall forward_frame l -> reachable_forward s ->
                          reachable_forward (run s l)).
  { induction l as [|fr l IH]; intros s Hl Hs; [exact Hs|].
    cbn [run fold_left]. inversion Hl; subst. apply IH; auto.
    now apply reachable_analyze. }
  apply H; [|apply reachable_new].
  induction k as [|k IH]; [constructor|].
  unfold cycles in *. cbn [repeat List.concat]. apply Forall_app. split; [|exact IH].
  repeat constructor; apply forward_uniform_frame; lra.
Qed.


(** *** The tempo after two beats *)

Lemma tempo_on_beat (s : AudioAnalyzer) (fr : frame) :
  fst (analyze_frame s fr) = true ->
  (beatInterval (snd (analyze_frame s fr)), bpmSmooth (snd (analyze_frame s fr)))
  = tempo_update s (_tMs s + dt fr * 1000).
Proof.
  unfold analyze_frame, analyze. cbn [fst snd beatInterval bpmSmooth].
  intros ->. now destruct (tempo_update _ _).
Qed.

Lemma tempo_without_beat (s : AudioAnalyzer) (fr : frame) :
  fst (analyze_frame s fr) = false ->
  beatInterval (snd (analyze_frame s fr)) = beatInterval s
  /\ bpmSmooth (snd (analyze_frame s fr)) = bpmSmooth s.
Proof.
  unfold analyze_frame, analyze. cbn [fst snd beatInterval bpmSmooth].
  intros ->. split; reflexivity.
Qed.

(** The first beat of a run has no beat before it and leaves the tempo
    alone; the second one, 300 ms later, moves [beatInterval] from 500 to
    450 ms and [bpmSmooth] from 120 to 122. *)
Lemma tempo_after_two_cycles :
  beatInterval (run new_AudioAnalyzer (cycles 2)) = Fin 450
  /\ bpmSmooth (run new_AudioAnalyzer (cycles 2)) = Fin 122
  /\ getBPM (run new_AudioAnalyzer (cycles 2)) = Fin 122.
Proof.
  destruct (@silent_step new_AudioAnalyzer 0 0 0 0 0 0 new_beat_state)
    as (F1 & B1 & _); try lia; try lra.
  set (s1 := snd (analyze_frame new_AudioAnalyzer silence)) in *.
  destruct (@silent_step s1 _ _ _ _ _ _ B1) as (F2 & B2 & _); try lia; try nra.
  set (s2 := snd (analyze_frame s1 silence)) in *.
  destruct (@loud_step s2 _ _ _ _ _ _ B2) as (F3 & B3 & _); try lia; try nra.
  set (s3 := snd (analyze_frame s2 full_scale)) in *.
  destruct (@silent_step s3 _ _ _ _ _ _ B3) as (F4 & B4 & _); try lia; try nra.
  set (s4 := snd (analyze_frame s3 silence)) in *.
  destruct (@silent_step s4 _ _ _ _ _ _ B4) as (F5 & B5 & _); try lia; try nra.
  set (s5 := snd (analyze_frame s4 silence)) in *.
  destruct (@loud_step s5 _ _ _ _ _ _ B5) as (F6 & B6 & _); try lia; try nra.
  set (s6 := snd (analyze_frame s5 full_scale)) in *.
  change (run new_AudioAnalyzer (cycles 2)) with s6.
  destruct (tempo_without_beat _ _ F1) as [I1 Q1]. fold s1 in I1, Q1.
  destruct (tempo_without_beat _ _ F2) as [I2 Q2]. fold s2 in I2, Q2.
  pose proof (tempo_on_beat _ _ F3) as T3. fold s3 in T3.
  destruct (tempo_without_beat _ _ F4) as [I4 Q4]. fold s4 in I4, Q4.
  destruct (tempo_without_beat _ _ F5) as [I5 Q5]. fold s5 in I5, Q5.
  pose proof (tempo_on_beat _ _ F6) as T6. fold s6 in T6.
  assert (E3 : beatInterval s3 = Fin 500 /\ bpmSmooth s3 = Fin 120).
  { unfold tempo_update in T3. rewrite (bs_lastBeat B2) in T3.
    assert (E : (Fin 0 >? 0) = false) by (apply Rltb_false; lra).
    rewrite E in T3. cbn [andb] in T3.
    pose proof (f_equal fst T3) as T3a. pose proof (f_equal snd T3) as T3b.
    cbn [fst snd] in T3a, T3b.
    rewrite T3a, T3b, I2, I1, Q2, Q1. split; reflexivity. }
  destruct E3 as [I3 Q3].
  assert (E6 : beatInterval s6 = Fin 450 /\ bpmSmooth s6 = Fin 122).
  { unfold tempo_update in T6.
    rewrite (bs_lastBeat B5), (bs_tMs B5) in T6.
    cbn [full_scale uniform_frame dt] in T6. unfold sub in T6. cbn [mul opp add] in T6.
    assert (A1 : (Fin (0 + 100 + 100 + 100) >? 0) = true) by (apply Rltb_true; lra).
    assert (A2 : (Fin (0 + 100 + 100 + 100 + 100 + 100 + 0.1 * 1000
                       + - (0 + 100 + 100 + 100)) >? 180) = true)
      by (apply Rltb_true; lra).
    assert (A3 : (Fin (0 + 100 + 100 + 100 + 100 + 100 + 0.1 * 1000
                       + - (0 + 100 + 100 + 100)) <? 2500) = true)
      by (apply Rltb_true; lra).
    rewrite A1, A2, A3 in T6. cbn [andb] in T6.
    rewrite I5, I4, I3, Q5, Q4, Q3 in T6.
    rewrite !lerp_Fin in T6. rewrite div_Fin in T6 by lra. rewrite lerp_Fin in T6.
    pose proof (f_equal fst T6) as T6a. pose proof (f_equal snd T6) as T6b.
    cbn [fst snd] in T6a, T6b.
    rewrite T6a, T6b. split; f_equal.
    - lra.
    - replace (500 + (0 + 100 + 100 + 100 + 100 + 100 + 0.1 * 1000
                      + - (0 + 100 + 100 + 100) - 500) * 0.25)%R
        with 450%R by lra.
      lra. }
  destruct E6 as [I6 Q6]. split; [exact I6|]. split; [exact Q6|].
  unfold getBPM. rewrite Q6. cbn [isFinite Math_round]. f_equal.
  change 122%R with (IZR 122). f_equal. symmetry. apply Int_part_spec.
  cbn. lra.
Qed.

(** After two beat cycles the tempo has been updated once:
    [beatInterval] is 450 ms and [getBPM()] is 122. *)
Lemma getBPM_between_24_and_333_witness :
  let s := run new_AudioAnalyzer (cycles 2) in
  beatInterval s = Fin 450 /\ getBPM s = Fin 122
  /\ (exists r : R, beatInterval s = Fin r /\ (180 < r < 2500)%R)
  /\ (exists r : R, bpmSmooth s = Fin r /\ (24 < r < 1000 / 3)%R)
  /\ (exists k : Z, getBPM s = Fin (IZR k) /\ (24 <= k <= 333)%Z)
  /\ or_else (getBPM s) 120 = getBPM s.
Proof.
  intros s. destruct tempo_after_two_cycles as (I & _ & G).
  split; [exact I|]. split; [exact G|].
  apply (@getBPM_between_24_and_333 s).
  apply reachable_wf_reachable, reachable_wf_cycles.
Defined.


Lemma envelopes_in_unit_interval_witness :
  between 0 1 (rmsSmooth (run new_AudioAnalyzer (cycles 4)))
  /\ between 0 1 (energy (run new_AudioAnalyzer (cycles 4))).
Proof.
  destruct (@envelopes_in_unit_interval _ (reachable_forward_cycles 4))
    as (H1 & _ & _ & _ & _ & _ & _ & _ & _ & H2).
  split; assumption.
Defined.

(** *** The clock and the beat gate *)

Lemma analyze_timing (s : AudioAnalyzer) (fr : frame) :
  analyzer_timing s -> forward_frame fr -> analyzer_timing (snd (analyze_frame s fr)).
Proof.
  intros [(t & lb & g & Et & Elb & Eg & Hlb & Hg)] [_ (d & Ed & Hd)].
  constructor. unfold analyze_frame, analyze. cbn [snd _tMs lastBeatTime beatGate].
  rewrite Et, Ed, Elb, Eg. cbn [mul add].
  destruct (beat_fires _ _ _).
  - exists (t + d * 1000)%R, (t + d * 1000)%R, (Rmax 0 (100 + - (d * 1000))).
    unfold sub. cbn [opp add]. rewrite Math_max_Fin.
    repeat split; try lra; try apply Rmax_l.
    apply Rle_max_compat_l. lra.
  - exists (t + d * 1000)%R, lb, (Rmax 0 (g + - (d * 1000))).
    unfold sub. cbn [opp add]. rewrite Math_max_Fin.
    repeat split; try lra; try apply Rmax_l.
    destruct Hg as [Hg0 Hg1].
    unfold Rmax in *.
    repeat match goal with
           | |- context [Rle_dec ?a ?b] => destruct (Rle_dec a b)
           | H : context [Rle_dec ?a ?b] |- _ => destruct (Rle_dec a b)
           end; lra.
Qed.

Lemma reachable_forward_timing (s : AudioAnalyzer) :
  reachable_forward s -> analyzer_timing s.
Proof.
  induction 1 as [|s f r Hs IH|s fr Hs IH Hfr].
  - constructor. exists 0%R, 0%R, 0%R. cbn. repeat split; try lra. apply Rmax_l.
  - destruct IH as [H]. constructor. exact H.
  - now apply analyze_timing.
Qed.

(** X18: when every call is made with a [dt] from 0 to 0.05 s (the cap the
    animation loop puts on it), the beat gate never holds a beat back: the
    gate opened by a beat has closed again after 100 ms, before the 180 ms
    since the last beat that the beat test also asks for.  So [analyze]
    returns [true] exactly when the kick onset of the call is above 0.3 and
    more than 180 ms have passed since the last beat. *)
Theorem beat_gate_never_blocks :
  forall (s : AudioAnalyzer) (fr : frame) (d : R),
    reachable_forward s -> wf_frame fr -> dt fr = Fin d -> (0 <= d <= 0.05)%R ->
    fst (analyze_frame s fr)
    = (call_onset Kick s fr >? 0.3)
      && ((_tMs s + dt fr * 1000 - lastBeatTime s) >? 180).
Proof.
  intros s fr d Hs Hwf Ed Hd.
  destruct (reachable_forward_timing Hs) as [(t & lb & g & Et & Elb & Eg & Hlb & Hg)].
  change (fst (analyze_frame s fr))
    with (beat_fires s (call_onset Kick s fr) (_tMs s + dt fr * 1000)).
  unfold beat_fires.
  destruct ((call_onset Kick s fr >? 0.3)
            && ((_tMs s + dt fr * 1000 - lastBeatTime s) >? 180)) eqn:E;
    [|reflexivity].
  apply andb_prop in E. destruct E as [_ E].
  rewrite Et, Ed, Elb in E. unfold sub, gtb in E. cbn [mul opp add] in E.
  apply ltb_Fin in E. rewrite Eg. cbn [andb].
  apply leb_Fin.
  destruct Hg as [_ Hg]. rewrite Rmax_left in Hg by lra. exact Hg.
Qed.

Lemma beat_gate_never_blocks_witness :
  fst (analyze_frame (run new_AudioAnalyzer (cycles 1)) (uniform_frame "000"%byte 0.05))
  = (call_onset Kick (run new_AudioAnalyzer (cycles 1)) (uniform_frame "000"%byte 0.05)
       >? 0.3)
    && ((_tMs (run new_AudioAnalyzer (cycles 1))
         + dt (uniform_frame "000"%byte 0.05) * 1000
         - lastBeatTime (run new_AudioAnalyzer (cycles 1))) >? 180).
Proof.
  apply (@beat_gate_never_blocks _ (uniform_frame "000"%byte 0.05) 0.05).
  - apply reachable_forward_cycles.
  - apply wf_uniform_frame.
  - reflexivity.
  - lra.
Defined.

(* ====================================================================== *)
(** ** More of js/motionCoordinator.js *)
(* ====================================================================== *)

Lemma mul_between (a b : R) (x y : num) :
  between 0 a x -> between 0 b y -> between 0 (a * b) (x * y).
Proof.
  intros (u & -> & Hu) (v & -> & Hv). cbn [mul]. apply between_Fin. split; nra.
Qed.

Lemma add_between (a b c d : R) (x y : num) :
  between a b x -> between c d y -> between (a + c) (b + d) (x + y).
Proof.
  intros (u & -> & Hu) (v & -> & Hv). cbn [add]. apply between_Fin. lra.
Qed.

Lemma new_MotionCoordinator_ranges : motion_ranges new_MotionCoordinator.
Proof.
  constructor; cbn; try (apply between_Fin; lra). apply nonneg_Fin. lra.
Qed.

Lemma update_ranges (m : MotionCoordinator) (perf_now : num) (audio : AudioAnalyzer)
    (d : R) (smoothness : option num) :
  motion_ranges m -> reachable_forward audio -> (0 <= d <= 0.05)%R ->
  between 0 1 (match smoothness with Some x => x | None => Fin 0.7 end) ->
  motion_ranges (update m perf_now audio (Fin d) smoothness).
Proof.
  intros Mr Ha Hd Hsm.
  pose proof (reachable_forward_envelopes Ha) as Ev.
  pose proof (reachable_wf_ranges (reachable_forward_wf Ha)) as Rg.
  assert (Hr : reachable audio).
  { clear - Ha. induction Ha; [apply reachable_new | now apply reachable_setFFTInfo |].
    apply reachable_analyze; auto. }
  destruct (reachable_tempo_range Hr) as [_ (bpm & Ebpm & Hbpm)].
  set (sm := match smoothness with Some x => x | None => Fin 0.7 end) in *.
  destruct Hsm as (r & Esm & Hsm).
  (* the lerp rates *)
  assert (Hslow : between 0 1 (Fin d * (1.5 - (0.3 + sm * 0.7) * 1.2))).
  { rewrite Esm. unfold sub. cbn [mul add opp]. apply between_Fin. split; nra. }
  assert (Hmed : between 0 1 (Fin d * (4.0 - (0.3 + sm * 0.7) * 3.0))).
  { rewrite Esm. unfold sub. cbn [mul add opp]. apply between_Fin. split; nra. }
  assert (Hfast : between 0 1 (Fin d * (8.0 - (0.3 + sm * 0.7) * 5.0))).
  { rewrite Esm. unfold sub. cbn [mul add opp]. apply between_Fin. split; nra. }
  assert (Hswc : between 0 1 (Fin d * (0.5 - sm * 0.35))).
  { rewrite Esm. unfold sub. cbn [mul add opp]. apply between_Fin. split; nra. }
  (* the pulse *)
  assert (Hclamp : between 0 1 (clamp (onsetKick audio * 0.9) 0.5 1.0)).
  { apply (@between_weaken 0.5 1.0); [|lra|lra].
    apply clamp_between; [|lra].
    destruct (rg_onsetKick Rg) as (k & -> & _). reflexivity. }
  assert (Hraw1 : between 0 1 (if pulse_triggers m audio
                               then clamp (onsetKick audio * 0.9) 0.5 1.0
                               else _pulseRaw m)).
  { destruct (pulse_triggers m audio); [exact Hclamp | exact (mr_pulseRaw Mr)]. }
  assert (Hraw : between 0 1 ((if pulse_triggers m audio
                               then clamp (onsetKick audio * 0.9) 0.5 1.0
                               else _pulseRaw m) * (0.92 + sm * 0.06))).
  { apply (@between_weaken 0 (1 * 1)); [|lra|lra].
    apply mul_between; [exact Hraw1|].
    rewrite Esm. cbn [mul add]. apply between_Fin. lra. }
  assert (Hp1 : between 0 1 (lerp (_pulseSmooth1 m)
                  ((if pulse_triggers m audio
                    then clamp (onsetKick audio * 0.9) 0.5 1.0
                    else _pulseRaw m) * (0.92 + sm * 0.06))
                  (Fin d * (8.0 - (0.3 + sm * 0.7) * 5.0)))).
  { apply lerp_between'; auto. exact (mr_pulseSmooth1 Mr). }
  assert (Hp2 : between 0 1 (lerp (_pulseSmooth2 m)
                  (lerp (_pulseSmooth1 m)
                     ((if pulse_triggers m audio
                       then clamp (onsetKick audio * 0.9) 0.5 1.0
                       else _pulseRaw m) * (0.92 + sm * 0.06))
                     (Fin d * (8.0 - (0.3 + sm * 0.7) * 5.0)))
                  (Fin d * (4.0 - (0.3 + sm * 0.7) * 3.0)))).
  { apply lerp_between'; auto. exact (mr_pulseSmooth2 Mr). }
  (* the impact *)
  assert (Himp : between 0 1.2
            ((onsetSnare audio * 0.5 + onsetHihat audio * 0.3) * (1.0 - sm * 0.8))).
  { destruct (rg_onsetSnare Rg) as (sn & -> & Hsn).
    destruct (rg_onsetHihat Rg) as (hh & -> & Hhh).
    rewrite Esm. unfold sub. cbn [mul add opp]. apply between_Fin. split; nra. }
  assert (HimpRaw : between 0 1.2
            (Math_max (_impactRaw m * 0.9)
               ((onsetSnare audio * 0.5 + onsetHihat audio * 0.3) * (1.0 - sm * 0.8)))).
  { apply max_between; [|exact Himp].
    apply decay_between; [exact (mr_impactRaw Mr) | lra]. }
  (* the swell *)
  assert (Htarget : between 0 1 (energy audio * 0.7 + rmsSmooth audio * 0.3)).
  { destruct (ev_energy Ev) as (e & -> & He).
    destruct (ev_rmsSmooth Ev) as (q & -> & Hq).
    cbn [mul add]. apply between_Fin. lra. }
  assert (HswRaw : between 0 1 (lerp (_swellRaw m)
                     (energy audio * 0.7 + rmsSmooth audio * 0.3)
                     (Fin d * (0.5 - sm * 0.35)))).
  { apply lerp_between'; auto. exact (mr_swellRaw Mr). }
  assert (Hs1 : between 0 1 (lerp (_swellSmooth1 m)
                  (lerp (_swellRaw m) (energy audio * 0.7 + rmsSmooth audio * 0.3)
                     (Fin d * (0.5 - sm * 0.35)))
                  (Fin d * (1.5 - (0.3 + sm * 0.7) * 1.2)))).
  { apply lerp_between'; auto. exact (mr_swellSmooth1 Mr). }
  assert (Hs2 : between 0 1 (lerp (_swellSmooth2 m)
                  (lerp (_swellSmooth1 m)
                     (lerp (_swellRaw m) (energy audio * 0.7 + rmsSmooth audio * 0.3)
                        (Fin d * (0.5 - sm * 0.35)))
                     (Fin d * (1.5 - (0.3 + sm * 0.7) * 1.2)))
                  (Fin d * (1.5 - (0.3 + sm * 0.7) * 1.2)))).
  { apply lerp_between'; auto. exact (mr_swellSmooth2 Mr). }
  (* the breathing *)
  assert (Hphase : nonneg (_breathePhase m
                           + Fin d * (or_else (getBPM audio) 120 / 60) * 0.25)).
  { apply nonneg_add; [exact (mr_breathePhase Mr)|].
    unfold getBPM. rewrite Ebpm. cbn [isFinite Math_round].
    unfold or_else, truthy.
    destruct (base_Int_part (bpm + / 2)) as [A B].
    assert (Hk : (0 < IZR (Int_part (bpm + / 2)))%R) by lra.
    assert (E : Reqb (IZR (Int_part (bpm + / 2))) 0 = false) by (apply Reqb_false; lra).
    rewrite E. cbn [negb]. rewrite div_Fin by lra. cbn [mul].
    apply nonneg_Fin.
    apply Rmult_le_pos; [|lra]. apply Rmult_le_pos; [lra|].
    unfold Rdiv. apply Rmult_le_pos; lra. }
  assert (Hbr : forall sw : num, between 0 1 sw ->
            between 0 0.7
              ((Math_sin ((_breathePhase m
                           + Fin d * (or_else (getBPM audio) 120 / 60) * 0.25)
                          * Fin PI * 2) * 0.5 + 0.5) * sw * 0.7)).
  { intros sw (w & -> & Hw). destruct Hphase as (ph & -> & _).
    cbn [mul Math_sin add]. apply between_Fin.
    pose proof (SIN_bound (ph * PI * 2)) as [S1 S2]. split; nra. }
  (* the bands *)
  assert (Hband : forall x y cur : num,
            between 0 1 x -> between 0 1 y -> between 0 1 cur ->
            between 0 1 (lerp cur ((x + y) * 0.5) (Fin d * (4.0 - (0.3 + sm * 0.7) * 3.0)))).
  { intros x y cur (a & -> & Ha') (b & -> & Hb') Hcur.
    apply lerp_between'; auto. cbn [add mul]. apply between_Fin. lra. }
  (* the lockout *)
  assert (Hlock : between 0 350
            (Math_max 0 ((if pulse_triggers m audio then 150 + sm * 200 else _beatLockout m)
                         - Fin d * 1000))).
  { assert (H1 : between 0 350 (if pulse_triggers m audio
                                then 150 + sm * 200 else _beatLockout m)).
    { destruct (pulse_triggers m audio); [|exact (mr_beatLockout Mr)].
      rewrite Esm. cbn [mul add]. apply between_Fin. lra. }
    destruct H1 as (l & -> & Hl). unfold sub. cbn [mul opp add].
    rewrite Math_max_Fin. apply between_Fin.
    unfold Rmax. destruct (Rle_dec 0 (l + - (d * 1000))); lra. }
  constructor; unfold update; fold sm;
    cbn [pulse impact swell breathe lowMotion midMotion highMotion scaleSuggestion
         zoomSuggestion _pulseRaw _impactRaw _swellRaw _lowRaw _midRaw _highRaw
         _pulseSmooth1 _pulseSmooth2 _swellSmooth1 _swellSmooth2 _lastBeatTime
         _beatLockout _breathePhase].
  - exact Hp2.
  - apply lerp_between'; auto. exact (mr_impact Mr).
  - exact Hs2.
  - now apply Hbr.
  - apply lerp_between'; auto; [exact (mr_lowMotion Mr)|].
    apply Hband; [exact (ev_smoothSubBass Ev) | exact (ev_smoothBass Ev)
                  | exact (mr_lowRaw Mr)].
  - apply lerp_between'; auto; [exact (mr_midMotion Mr)|].
    apply Hband; [exact (ev_smoothLowMid Ev) | exact (ev_smoothMid Ev)
                  | exact (mr_midRaw Mr)].
  - apply lerp_between'; auto; [exact (mr_highMotion Mr)|].
    apply Hband; [exact (ev_smoothHighMid Ev) | exact (ev_smoothHigh Ev)
                  | exact (mr_highRaw Mr)].
  - destruct Hp2 as (p & -> & Hp). destruct (Hbr _ Hs2) as (b & -> & Hb).
    destruct Hs2 as (w & -> & Hw). rewrite Esm. unfold sub. cbn [mul add opp].
    apply between_Fin. split; nra.
  - destruct Hp2 as (p & -> & Hp). destruct (Hbr _ Hs2) as (b & -> & Hb).
    rewrite Esm. unfold sub. cbn [mul add opp].
    apply between_Fin. split; nra.
  - exact Hraw.
  - exact HimpRaw.
  - exact HswRaw.
  - apply Hband; [exact (ev_smoothSubBass Ev) | exact (ev_smoothBass Ev)
                  | exact (mr_lowRaw Mr)].
  - apply Hband; [exact (ev_smoothLowMid Ev) | exact (ev_smoothMid Ev)
                  | exact (mr_midRaw Mr)].
  - apply Hband; [exact (ev_smoothHighMid Ev) | exact (ev_smoothHigh Ev)
                  | exact (mr_highRaw Mr)].
  - exact Hp1.
  - exact Hp2.
  - exact Hs1.
  - exact Hs2.
  - exact Hlock.
  - exact Hphase.
Qed.

Lemma motion_driven_ranges (m : MotionCoordinator) : motion_driven m -> motion_ranges m.
Proof.
  induction 1.
  - apply new_MotionCoordinator_ranges.
  - now apply update_ranges.
Qed.

(** X19: when the coordinator is updated as the animation loop does it
    ([dt] from 0 to 0.05 s, [smoothness] from 0 to 1, an analyzer driven
    with [dt >= 0]), its outputs stay in range after every update: [pulse],
    [swell] and the three band motions in [0, 1], [impact] in [0, 1.2],
    [breathe] in [0, 0.7], [scaleSuggestion] in [1, 1.362] and
    [zoomSuggestion] in [-0.12, 0.028]; the lockout countdown stays in
    [0, 350] ms. *)
Theorem motion_outputs_in_range :
  forall m : MotionCoordinator, motion_driven m ->
    between 0 1 (pulse m) /\ between 0 1.2 (impact m)
    /\ between 0 1 (swell m) /\ between 0 0.7 (breathe m)
    /\ between 0 1 (lowMotion m) /\ between 0 1 (midMotion m)
    /\ between 0 1 (highMotion m)
    /\ between 1 1.362 (scaleSuggestion m)
    /\ between (-0.12) 0.028 (zoomSuggestion m)
    /\ between 0 350 (_beatLockout m).
Proof.
  intros m Hm. destruct (motion_driven_ranges Hm). repeat split; assumption.
Qed.

Lemma motion_outputs_in_range_witness :
  let m := update new_MotionCoordinator (Fin 16)
                  (run new_AudioAnalyzer (cycles 1)) (Fin 0.016) None in
  between 0 1 (pulse m) /\ between 1 1.362 (scaleSuggestion m).
Proof.
  assert (D : motion_driven (update new_MotionCoordinator (Fin 16)
                               (run new_AudioAnalyzer (cycles 1)) (Fin 0.016) None)).
  { apply driven_update.
    - apply driven_new.
    - apply reachable_forward_cycles.
    - lra.
    - apply between_Fin. lra. }
  destruct (@motion_outputs_in_range _ D) as (H1 & _ & _ & _ & _ & _ & _ & H2 & _).
  split; assumption.
Defined.

(** With one call of [update] per second ([dt = 1], [smoothness = 0],
    [onsetKick = 1]) the first smoothing stage of the pulse has the factor
    [lerpFast = 6.5]: it oscillates with growing amplitude, and in doubles
    [pulse] is [-Infinity] after 416 calls and [NaN] from then on. *)
Lemma pulse_overflows_in_doubles :
  PrimFloat.is_finite (Binary64.pulse_at_one_call_per_second 415) = true
  /\ PrimFloat.is_infinity (Binary64.pulse_at_one_call_per_second 416) = true
  /\ PrimFloat.is_nan (Binary64.pulse_at_one_call_per_second 417) = true.
Proof. repeat split; vm_compute; reflexivity. Qed.



(* ====================================================================== *)
(** ** main.js *)
(* ====================================================================== *)

(** X20: the [dt] the animation loop computes is 0.016 s on the first
    frame, never more than 0.05 s, and from 0 to 0.05 s whenever the time
    stamps do not go backwards. *)
Theorem frame_dt_capped :
  forall last now : R,
    frame_dt (Fin 0) (Fin now) = Fin 0.016
    /\ (exists d : R, frame_dt (Fin last) (Fin now) = Fin d /\ (d <= 0.05)%R)
    /\ ((0 < last <= now)%R -> between 0 0.05 (frame_dt (Fin last) (Fin now))).
Proof.
  intros last now. split; [|split].
  - unfold frame_dt, truthy.
    assert (E : Reqb 0 0 = true) by now apply Reqb_true.
    rewrite E. cbn [negb]. rewrite Math_min_Fin. f_equal. apply Rmin_left. lra.
  - unfold frame_dt, truthy. destruct (negb (Reqb last 0)).
    + unfold sub. cbn [opp add]. rewrite div_Fin by lra. rewrite Math_min_Fin.
      eexists. split; [reflexivity | apply Rmin_r].
    + rewrite Math_min_Fin. eexists. split; [reflexivity | apply Rmin_r].
  - intros Hl. unfold frame_dt, truthy.
    assert (E : Reqb last 0 = false) by (apply Reqb_false; lra).
    rewrite E. cbn [negb]. unfold sub. cbn [opp add]. rewrite div_Fin by lra.
    rewrite Math_min_Fin. apply between_Fin. split; [|apply Rmin_r].
    apply Rmin_glb; lra.
Qed.



(* ====================================================================== *)
(** ** js/geometryBuilders.js *)
(* ====================================================================== *)

Lemma flat_map_length_const (A B : Type) (f : A -> list B) (l : list A) (k : nat) :
  (forall x, In x l -> List.length (f x) = k) ->
  List.length (flat_map f l) = (List.length l * k)%nat.
Proof.
  induction l as [|x l IH]; intros H; [reflexivity|].
  cbn [flat_map List.length]. rewrite length_app, H by now left.
  rewrite IH by (intros; apply H; now right). lia.
Qed.

Lemma triangles_app6 (a b c d e f : nat) (rest : list nat) :
  triangles ([a; b; c; d; e; f] ++ rest) = (a, b, c) :: (d, e, f) :: triangles rest.
Proof. reflexivity. Qed.

Lemma triangles_quads (A : Type) (q : A -> list nat) (l : list A) (P : nat * nat * nat -> Prop) :
  (forall x, In x l -> exists a b c d e f, q x = [a; b; c; d; e; f]
                                           /\ P (a, b, c) /\ P (d, e, f)) ->
  Forall P (triangles (flat_map q l)).
Proof.
  induction l as [|x l IH]; intros H; [constructor|].
  cbn [flat_map].
  destruct (H x) as (a & b & c & d & e & f & -> & H1 & H2); [now left|].
  rewrite triangles_app6. constructor; [exact H1|]. constructor; [exact H2|].
  apply IH. intros; apply H; now right.
Qed.

Lemma flat_map_flat_map_quads (slices : nat) (l : list nat) (q : nat -> nat -> list nat)
    (P : nat * nat * nat -> Prop) :
  (forall i j, In i l -> In j (below slices) ->
     exists a b c d e f, q i j = [a; b; c; d; e; f] /\ P (a, b, c) /\ P (d, e, f)) ->
  Forall P (triangles (flat_map (fun i => flat_map (q i) (below slices)) l)).
Proof.
  intros H.
  assert (E : flat_map (fun i => flat_map (q i) (below slices)) l
              = flat_map (fun ij => q (fst ij) (snd ij))
                  (flat_map (fun i => map (fun j => (i, j)) (below slices)) l)).
  { induction l as [|i l IH]; [reflexivity|].
    cbn [flat_map]. rewrite flat_map_app, IH by (intros; apply H; auto; now right).
    f_equal. generalize (below slices). intros m.
    induction m as [|j m IHm]; [reflexivity|].
    cbn [flat_map map fst snd]. now rewrite IHm. }
  rewrite E. apply triangles_quads.
  intros [i j] Hin. apply in_flat_map in Hin. destruct Hin as (i' & Hi & Hj).
  apply in_map_iff in Hj. destruct Hj as (j' & [= <- <-] & Hj).
  cbn [fst snd]. now apply H.
Qed.

(** X22: for [slices] and [stacks] non-negative integers,
    [createParametricGeometry] emits [(stacks + 1) * (slices + 1)] vertices
    (three coordinates each) and [2 * stacks * slices] triangles (three
    indices each); every index refers to an emitted vertex, and the three
    corners of every triangle are distinct vertices. *)
Theorem parametric_geometry_indices_valid :
  forall (func : num -> num -> point) (slices stacks : nat) (scale : option num),
    let g := createParametricGeometry func slices stacks scale in
    let n := ((stacks + 1) * (slices + 1))%nat in
    List.length (vertices g) = (3 * n)%nat
    /\ List.length (indices g) = (6 * (stacks * slices))%nat
    /\ Forall (fun k => (k < n)%nat) (indices g)
    /\ Forall (fun t => let '(a, b, c) := t in a <> b /\ b <> c /\ a <> c)
              (triangles (indices g))
    /\ List.length (triangles (indices g)) = (2 * (stacks * slices))%nat.
Proof.
  intros func slices stacks scale g n. unfold g, createParametricGeometry.
  cbn [vertices indices].
  split; [|split; [|split; [|split]]].
  - rewrite flat_map_length_const with (k := (3 * (slices + 1))%nat).
    + unfold upto, n. rewrite length_seq. lia.
    + intros i _. rewrite flat_map_length_const with (k := 3%nat).
      * unfold upto. rewrite length_seq. lia.
      * reflexivity.
  - rewrite flat_map_length_const with (k := (6 * slices)%nat).
    + unfold below. rewrite length_seq. lia.
    + intros i _. rewrite flat_map_length_const with (k := 6%nat).
      * unfold below. rewrite length_seq. lia.
      * reflexivity.
  - apply Forall_forall. intros k Hk.
    apply in_flat_map in Hk. destruct Hk as (i & Hi & Hk).
    apply in_flat_map in Hk. destruct Hk as (j & Hj & Hk).
    unfold below in Hi, Hj. apply in_seq in Hi, Hj. unfold n.
    cbn [In] in Hk.
    assert (Hb : (i * (slices + 1) + j + slices + 1 + 1 < (stacks + 1) * (slices + 1))%nat).
    { assert (Hs : ((i + 1) * (slices + 1) <= stacks * (slices + 1))%nat)
        by (apply Nat.mul_le_mono_r; lia).
      lia. }
    destruct Hk as [<-|[<-|[<-|[<-|[<-|[<-|[]]]]]]]; lia.
  - apply flat_map_flat_map_quads. intros i j Hi Hj.
    unfold below in Hj. apply in_seq in Hj.
    do 6 eexists. split; [reflexivity|]. split; repeat split; lia.
  - assert (H : forall l, List.length (triangles (flat_map (fun i =>
                 flat_map (fun j =>
                   [(i * (slices + 1) + j)%nat; (i * (slices + 1) + j + slices + 1)%nat;
                    (i * (slices + 1) + j + 1)%nat; (i * (slices + 1) + j + slices + 1)%nat;
                    (i * (slices + 1) + j + slices + 1 + 1)%nat;
                    (i * (slices + 1) + j + 1)%nat]) (below slices)) l))
               = (2 * (List.length l * slices))%nat).
    { induction l as [|i l IH]; [reflexivity|].
      cbn [flat_map List.length].
      assert (Hin : forall (m : list nat) (rest : list nat),
                 List.length (triangles (flat_map (fun j =>
                   [(i * (slices + 1) + j)%nat; (i * (slices + 1) + j + slices + 1)%nat;
                    (i * (slices + 1) + j + 1)%nat; (i * (slices + 1) + j + slices + 1)%nat;
                    (i * (slices + 1) + j + slices + 1 + 1)%nat;
                    (i * (slices + 1) + j + 1)%nat]) m ++ rest))
                 = (2 * List.length m + List.length (triangles rest))%nat).
      { induction m as [|j m IHm]; intros rest; [reflexivity|].
        cbn [flat_map]. rewrite <- app_assoc, triangles_app6. cbn [List.length].
        rewrite IHm. lia. }
      rewrite Hin, IH. unfold below. rewrite length_seq. lia. }
    rewrite H. unfold below. rewrite length_seq. lia.
Qed.

(* ====================================================================== *)
(** ** The shockwave pool *)
(* ====================================================================== *)

Section ShockwaveFacts.

Variable color : Type.

Lemma update_at_length (l : list (shockwave color)) (i : nat) (f : shockwave color -> shockwave color) :
  List.length (update_at l i f) = List.length l.
Proof.
  revert i. induction l as [|s l IH]; intros [|i]; cbn; auto.
Qed.

Lemma update_at_same (l : list (shockwave color)) (i : nat) (f : shockwave color -> shockwave color) :
  (i < List.length l)%nat ->
  exists s, nth_error l i = Some s /\ nth_error (update_at l i f) i = Some (f s).
Proof.
  revert i. induction l as [|s l IH]; intros [|i] Hi; cbn in *; try lia.
  - eauto.
  - apply IH. lia.
Qed.

Lemma update_at_other (l : list (shockwave color)) (i j : nat) (f : shockwave color -> shockwave color) :
  i <> j -> nth_error (update_at l i f) j = nth_error l j.
Proof.
  revert i j. induction l as [|s l IH]; intros [|i] [|j] Hij; cbn; auto; try congruence.
Qed.

Lemma first_inactive_spec (l : list (shockwave color)) (i : nat) :
  first_inactive l = Some i ->
  exists s, nth_error l i = Some s /\ sw_active s = false.
Proof.
  revert i. induction l as [|s l IH]; intros i; cbn [first_inactive]; [discriminate|].
  destruct (sw_active s) eqn:E; cbn [negb].
  - destruct (first_inactive l) as [k|]; cbn [option_map]; [|discriminate].
    intros [= <-]. cbn [nth_error]. now apply IH.
  - intros [= <-]. exists s. auto.
Qed.

Lemma first_inactive_none (l : list (shockwave color)) :
  first_inactive l = None -> Forall (fun s => sw_active s = true) l.
Proof.
  induction l as [|s l IH]; cbn [first_inactive]; [constructor|].
  destruct (sw_active s) eqn:E; cbn [negb]; [|discriminate].
  destruct (first_inactive l); cbn [option_map]; [discriminate|].
  intros _. constructor; auto.
Qed.

Lemma spawn_slot_lt (l : list (shockwave color)) :
  l <> [] -> (spawn_slot l < List.length l)%nat.
Proof.
  intros Hl. unfold spawn_slot. destruct (first_inactive l) as [i|] eqn:E.
  - destruct (first_inactive_spec _ E) as (s & Hs & _).
    apply nth_error_Some. congruence.
  - destruct l; [congruence | cbn; lia].
Qed.

Lemma active_count_update (l : list (shockwave color)) (i : nat) (f : shockwave color -> shockwave color)
    (s : shockwave color) :
  nth_error l i = Some s -> sw_active (f s) = true ->
  active_count (update_at l i f)
  = (if sw_active s then active_count l else S (active_count l)).
Proof.
  unfold active_count.
  revert i. induction l as [|x l IH]; intros [|i] Hs Hf; cbn in Hs; try discriminate.
  - injection Hs as ->. cbn [update_at filter]. rewrite Hf.
    destruct (sw_active s); reflexivity.
  - cbn [update_at filter]. destruct (sw_active x); cbn [List.length];
      rewrite (IH i Hs Hf); destruct (sw_active s); reflexivity.
Qed.

(** X23: [spawnShockwave] leaves the pool alone when shockwaves are
    switched off or the pool is empty.  Otherwise it restarts exactly one
    entry, the first inactive one, or entry 0 when all are active; that
    entry becomes active with life 1, scale 1 and a strength clamped into
    [0.15, 1.25], every other entry is untouched, the pool keeps its
    length, and the number of active entries grows by one, or stays the
    same when the pool was full. *)
Theorem spawnShockwave_reuses_one_slot :
  forall (l : list (shockwave color)) (intensity : num) (c : color) (strength : option num),
    spawnShockwave l false intensity c strength = l
    /\ spawnShockwave [] true intensity c strength = []
    /\ (l <> [] ->
        isNaN (match strength with Some x => x | None => Fin 1.0 end) = false ->
        let l' := spawnShockwave l true intensity c strength in
        let i := spawn_slot l in
        List.length l' = List.length l
        /\ (exists s : shockwave color,
              nth_error l' i = Some s /\ sw_active s = true /\ sw_life s = Fin 1.0
              /\ sw_scale s = Fin 1.0 /\ sw_color s = c
              /\ between 0.15 1.25 (sw_strength s)
              /\ sw_opacity s = intensity * sw_strength s)
        /\ (forall j : nat, j <> i -> nth_error l' j = nth_error l j)
        /\ (forall k : nat, first_inactive l = Some k ->
              i = k /\ active_count l' = S (active_count l))
        /\ (first_inactive l = None -> i = 0%nat /\ active_count l' = active_count l)).
Proof.
  intros l intensity c strength. split; [reflexivity|]. split; [reflexivity|].
  intros Hl Hs l' i.
  assert (E : l' = update_at l i (respawn intensity c
                 (match strength with Some x => x | None => Fin 1.0 end))).
  { unfold l', spawnShockwave. cbn [negb orb].
    destruct l; [congruence | reflexivity]. }
  pose proof (spawn_slot_lt Hl) as Hi. fold i in Hi.
  destruct (update_at_same l (respawn intensity c
              (match strength with Some x => x | None => Fin 1.0 end)) Hi)
    as (s & Hs0 & Hs1).
  rewrite E. split; [apply update_at_length|]. split; [|split; [|split]].
  - eexists. split; [exact Hs1|]. cbn [respawn sw_active sw_life sw_scale sw_color
                                      sw_strength sw_opacity].
    repeat split. apply clamp_between; [exact Hs | lra].
  - intros j Hj. apply update_at_other. congruence.
  - intros k Hk. assert (Hik : i = k) by (unfold i, spawn_slot; now rewrite Hk).
    split; [exact Hik|].
    destruct (first_inactive_spec _ Hk) as (s' & Hs' & Hina).
    rewrite <- Hik in Hs'. rewrite Hs0 in Hs'. injection Hs' as <-.
    rewrite (@active_count_update l i _ s Hs0) by reflexivity. now rewrite Hina.
  - intros Hnone. assert (Hi0 : i = 0%nat) by (unfold i, spawn_slot; now rewrite Hnone).
    split; [exact Hi0|].
    pose proof (first_inactive_none _ Hnone) as Hall.
    rewrite Forall_forall in Hall.
    rewrite (@active_count_update l i _ s Hs0) by reflexivity.
    rewrite (Hall s); [reflexivity|]. eapply nth_error_In, Hs0.
Qed.

(** *** Ageing *)

Lemma age_inactive (dt intensity : num) (s : shockwave color) :
  sw_active s = false -> age_shockwave dt intensity s = s.
Proof. intros H. unfold age_shockwave. now rewrite H. Qed.

Lemma age_active (d : R) (intensity : num) (s : shockwave color) (l : R) :
  sw_active s = true -> sw_life s = Fin l ->
  let s' := age_shockwave (Fin d) intensity s in
  sw_life s' = Fin (l - d * 1.8)
  /\ sw_active s' = negb (Rleb (l - d * 1.8) 0)
  /\ (sw_active s' = false -> sw_opacity s' = Fin 0).
Proof.
  intros Ha El s'. unfold s', age_shockwave. rewrite Ha, El. cbn [negb].
  unfold sub. cbn [mul opp add leb].
  change (l + - (d * 1.8))%R with (l - d * 1.8)%R.
  destruct (Rleb (l - d * 1.8) 0); cbn [sw_life sw_active sw_opacity negb]; auto.
  repeat split. discriminate.
Qed.

Lemma age_settled (intensity : num) (s : shockwave color) :
  settled s -> forall d : R, (0 <= d)%R -> settled (age_shockwave (Fin d) intensity s).
Proof.
  intros St d Hd. destruct (sw_active s) eqn:Ha.
  - destruct St as [H1 H2]. destruct (H1 Ha) as (l & El & Hl).
    destruct (@age_active d intensity s l Ha El) as (E1 & E2 & E3). cbn zeta in *.
    split.
    + intros Hact. rewrite E2 in Hact. exists (l - d * 1.8)%R. split; [exact E1|].
      destruct (Rleb (l - d * 1.8) 0) eqn:E; [discriminate|].
      apply Rleb_false in E. nra.
    + exact E3.
  - rewrite age_inactive by exact Ha. exact St.
Qed.

Lemma age_run_expires (intensity : num) (dts : list R) :
  forall s : shockwave color,
    settled s -> Forall (fun d => 0 <= d)%R dts ->
    (1 <= 1.8 * fold_right Rplus 0%R dts)%R ->
    let s' := fold_left (fun s d => age_shockwave (Fin d) intensity s) dts s in
    sw_active s' = false /\ sw_opacity s' = Fin 0.
Proof.
  assert (Hgen : forall dts (s : shockwave color),
             settled s -> Forall (fun d => 0 <= d)%R dts ->
             (sw_active s = true ->
              exists l : R, sw_life s = Fin l
                            /\ (l <= 1.8 * fold_right Rplus 0%R dts)%R) ->
             let s' := fold_left (fun s d => age_shockwave (Fin d) intensity s) dts s in
             sw_active s' = false /\ sw_opacity s' = Fin 0).
  { clear dts. induction dts as [|d dts IH]; intros s St Hd Hl; cbn [fold_left].
    - destruct (sw_active s) eqn:Ha.
      + destruct (Hl eq_refl) as (l & El & Hle). cbn [fold_right] in Hle.
        destruct St as [St1 _]. destruct (St1 Ha) as (l' & El' & Hl').
        rewrite El in El'. injection El' as <-. lra.
      + split; [reflexivity|]. now apply St.
    - inversion Hd as [|? ? Hd0 Hd']; subst.
      apply IH; [now apply age_settled | exact Hd' |].
      intros Hact. destruct (sw_active s) eqn:Ha.
      + destruct (Hl eq_refl) as (l & El & Hle). cbn [fold_right] in Hle.
        destruct (@age_active d intensity s l Ha El) as (E1 & _). cbn zeta in E1.
        exists (l - d * 1.8)%R. split; [exact E1 | lra].
      + rewrite age_inactive in Hact by exact Ha. congruence. }
  intros s St Hd Hsum. apply Hgen; auto.
  intros Ha. destruct St as [St1 _]. destruct (St1 Ha) as (l & El & Hl).
  exists l. split; [exact El | lra].
Qed.

Lemma age_frames_map (intensity : num) (dts : list R) :
  forall l : list (shockwave color),
    age_frames intensity (map Fin dts) l
    = map (fun s => fold_left (fun s d => age_shockwave (Fin d) intensity s) dts s) l.
Proof.
  unfold age_frames, age_shockwaves.
  induction dts as [|d dts IH]; intros l; cbn [map fold_left].
  - now rewrite map_id.
  - rewrite IH, map_map. reflexivity.
Qed.


End ShockwaveFacts.


Lemma spawnShockwave_reuses_one_slot_witness :
  let pool := buildShockwaves tt true in
  let pool' := spawnShockwave pool true (Fin 1) tt (Some (Fin 0.75)) in
  List.length pool' = 12%nat /\ active_count pool' = 1%nat.
Proof.
  cbn zeta.
  destruct (@spawnShockwave_reuses_one_slot unit (buildShockwaves tt true) (Fin 1) tt
              (Some (Fin 0.75))) as (_ & _ & H).
  destruct H as (H1 & _ & _ & H4 & _); [discriminate | reflexivity |].
  split; [exact H1|].
  destruct (H4 0%nat eq_refl) as [_ E]. exact E.
Defined.

(* ====================================================================== *)
(** ** js/colorHelpers.js *)
(* ====================================================================== *)

Lemma finite_cos (a : num) : finite a -> finite (Math_cos a).
Proof. intros; fin_cases; reflexivity. Qed.

Lemma Math_max_of_finite (values : list num) :
  Forall finite values ->
  Math_max_of values = NInf \/ finite (Math_max_of values).
Proof.
  intros H. unfold Math_max_of.
  assert (Hgen : forall l acc, Forall finite l -> (acc = NInf \/ finite acc) ->
             fold_left Math_max l acc = NInf \/ finite (fold_left Math_max l acc)).
  { induction l as [|x l IH]; intros acc Hl Hacc; [exact Hacc|].
    cbn [fold_left]. inversion Hl as [|? ? Hx Hl']; subst. apply IH; auto.
    right. destruct (finite_inv Hx) as [r ->].
    destruct Hacc as [->|Hacc]; [reflexivity|].
    destruct (finite_inv Hacc) as [a ->]. now rewrite Math_max_Fin. }
  apply Hgen; auto.
Qed.



(** *** The dominant pitch class *)

Lemma dominant_prefix (chroma : list num) (k : nat) :
  Forall finite chroma -> (k <= List.length chroma)%nat ->
  exists (m : R) (i : nat),
    fold_left (dominant_step chroma) (seq 0 k) (Fin 0, Fin 0) = (Fin m, of_nat i)
    /\ (0 <= m)%R
    /\ (forall j, (j < k)%nat -> exists v : R, get chroma j = Fin v /\ (v <= m)%R)
    /\ ((0 < m)%R ->
        (i < k)%nat /\ get chroma i = Fin m
        /\ forall j, (j < i)%nat -> exists v : R, get chroma j = Fin v /\ (v < m)%R)
    /\ (m = 0%R -> i = 0%nat).
Proof.
  intros Hc. induction k as [|k IH]; intros Hk.
  - exists 0%R, 0%nat. cbn [seq fold_left]. repeat split; try lra; try lia;
      intros j Hj; lia.
  - destruct IH as (m & i & E & Hm & Hle & Hpos & Hz); [lia|].
    rewrite seq_S, fold_left_app, E. cbn [Nat.add fold_left].
    unfold dominant_step. cbn [fst snd].
    destruct (finite_inv (@get_finite chroma k Hc Hk)) as [v Ev]. rewrite Ev.
    unfold gtb. cbn [ltb]. destruct (Rltb m v) eqn:Ecmp.
    + apply Rltb_true in Ecmp. exists v, k. split; [reflexivity|].
      split; [lra|]. split; [|split].
      * intros j Hj. destruct (Nat.eq_dec j k) as [->|Hne].
        -- exists v. split; [exact Ev | lra].
        -- destruct (Hle j) as (w & Ew & Hw); [lia|]. exists w. split; [exact Ew | lra].
      * intros _. split; [lia|]. split; [exact Ev|].
        intros j Hj. destruct (Hle j Hj) as (w & Ew & Hw). exists w. split; [exact Ew | lra].
      * intros ->. lra.
    + apply Rltb_false in Ecmp. exists m, i. split; [reflexivity|].
      split; [exact Hm|]. split; [|split].
      * intros j Hj. destruct (Nat.eq_dec j k) as [->|Hne].
        -- exists v. split; [exact Ev | exact Ecmp].
        -- apply Hle. lia.
      * intros Hp. destruct (Hpos Hp) as (Hi & Ei & Hbefore).
        split; [lia|]. split; assumption.
      * exact Hz.
Qed.

Lemma reachable_chroma_length (s : AudioAnalyzer) :
  reachable s -> List.length (chroma s) = 12%nat.
Proof.
  induction 1 as [|s f r _ IH|s fr _ IH _].
  - reflexivity.
  - exact IH.
  - unfold analyze_frame, analyze. cbn [snd chroma].
    now rewrite analyze_chroma_length.
Qed.



(** *** The smoothed bins follow the length of the input *)

(** X27: after a call the analyzer holds one smoothed bin per input bin;
    when the input has another length than the bins kept from the previous
    call (or there are none yet), the old bins are dropped and every bin is
    smoothed from 0. *)
Theorem fftSmooth_follows_input_length :
  forall (s : AudioAnalyzer) (fr : frame),
    let s' := snd (analyze_frame s fr) in
    let alpha := match smoothingAlpha fr with Some a => a | None => Fin 0.18 end in
    (exists l : list num,
       _fftSmooth s' = Some l /\ List.length l = List.length (freqData fr))
    /\ ((forall old, _fftSmooth s = Some old ->
           List.length old <> List.length (freqData fr)) ->
        _fftSmooth s'
        = Some (map (fun f => smooth_bin (clamp alpha 0.05 0.4) f (Fin 0)) (freqData fr))).
Proof.
  intros s fr s' alpha. unfold s', analyze_frame, analyze. cbn [snd _fftSmooth].
  fold alpha. split.
  - eexists. split; [reflexivity | apply analyze_fft_length].
  - intros Hdiff. f_equal. unfold analyze_fft.
    assert (E : _ensureFftSmooth (_fftSmooth s) (List.length (freqData fr))
                = repeat (Fin 0) (List.length (freqData fr))).
    { unfold _ensureFftSmooth. destruct (_fftSmooth s) as [old|]; [|reflexivity].
      destruct (Nat.eqb_spec (List.length old) (List.length (freqData fr))) as [El|_];
        [|reflexivity].
      exfalso. now apply (Hdiff old). }
    rewrite E. generalize (freqData fr). intros l.
    induction l as [|f l IH]; [reflexivity|].
    cbn [List.length repeat combine map fst snd]. now rewrite IH.
Qed.
